(** * The decoding engine of mlx_vlm/utils.py

    A shallow embedding of the sampling, repetition-penalty, stopping and
    streaming code of [mlx_vlm/utils.py], followed by the properties the
    specification states about it.

    Conventions of the embedding:
    - an [mx.array] of logits of shape [batch, vocab] is a [list (list V)],
      one inner list per batch row; [V] is the scalar type of the array,
      kept abstract behind the [Scalar] interface;
    - token ids are [nat];
    - a Python exception is a value of [exn]; code that may raise and that
      reads or writes interpreter-wide state runs in the monad [M];
    - calls into the model, the random generator, the clock and the
      detokenizer are fields of the [Runtime] interface. *)

From Stdlib Require Import ZArith QArith String Ascii Lia.
From stdpp Require Import base option list strings pretty sorting.

Open Scope Z_scope.
Open Scope nat_scope.

(** ** Scalars *)

(** The arithmetic the source performs on array elements and Python
    floats. *)
Class Scalar (V : Type) := {
  s_zero : V;
  s_one : V;
  s_add : V → V → V;
  s_sub : V → V → V;
  s_mul : V → V → V;
  s_div : V → V → V;
  s_ltb : V → V → bool;
  s_eqb : V → V → bool;
  s_of_nat : nat → V;
  s_repr : V → string
}.

(** The laws of multiplication and division by one, which hold for IEEE
    floats and for exact numbers alike. *)
Class ScalarUnit (V : Type) `{Scalar V} : Prop := {
  s_mul_one : ∀ x : V, s_mul x s_one = x;
  s_div_one : ∀ x : V, s_div x s_one = x
}.

(** The comparison [<] on finite scalars is a strict weak order. *)
Class ScalarOrder (V : Type) `{Scalar V} : Prop := {
  s_ltb_irrefl : ∀ x : V, s_ltb x x = false;
  s_ltb_trans : ∀ x y z : V, s_ltb x y = true → s_ltb y z = true → s_ltb x z = true;
  s_ltb_cotrans : ∀ x y z : V, s_ltb x z = true → s_ltb x y = true ∨ s_ltb y z = true
}.

(** Exact rationals as scalars, used to run the embedding. *)
Definition Q_ltb (x y : Q) : bool := negb (Qle_bool y x).

#[global] Instance Q_scalar : Scalar Q := {|
  s_zero := 0%Q;
  s_one := 1%Q;
  s_add := Qplus;
  s_sub := Qminus;
  s_mul := Qmult;
  s_div := Qdiv;
  s_ltb := Q_ltb;
  s_eqb := Qeq_bool;
  s_of_nat := λ n, inject_Z (Z.of_nat n);
  s_repr := λ _, "<float>"%string
|}.

(** ** Python values, exceptions and results *)

Inductive exn : Type :=
  | ValueError (msg : string)
  | TypeError (msg : string)
  | UnboundLocalError (var : string)
  | AttributeError (msg : string).

(** [str(e)] for an exception. *)
Definition exn_str (e : exn) : string :=
  match e with
  | ValueError msg => msg
  | TypeError msg => msg
  | UnboundLocalError var =>
      ("cannot access local variable '" ++ var
         ++ "' where it is not associated with a value")%string
  | AttributeError msg => msg
  end.

(** The result of running a piece of code: a value, a raised exception, or
    [Unfinished] when a fuel-bounded loop was cut before it ended. *)
Inductive res (A : Type) : Type :=
  | Val (a : A)
  | Exn (e : exn)
  | Unfinished.
Arguments Val {A} a.
Arguments Exn {A} e.
Arguments Unfinished {A}.

(** State and exceptions: the state survives a raise. *)
Definition M (W A : Type) : Type := W → res A * W.

#[global] Instance M_ret {W} : MRet (M W) := λ A a w, (Val a, w).

#[global] Instance M_bind {W} : MBind (M W) := λ A B f m w,
  match m w with
  | (Val a, w') => f a w'
  | (Exn e, w') => (Exn e, w')
  | (Unfinished, w') => (Unfinished, w')
  end.

#[global] Instance res_ret : MRet res := λ A a, Val a.

#[global] Instance res_bind : MBind res := λ A B f m,
  match m with
  | Val a => f a
  | Exn e => Exn e
  | Unfinished => Unfinished
  end.

Definition lift_res {W A} (r : res A) : M W A := λ w, (r, w).
Definition raise {W A} (e : exn) : M W A := λ w, (Exn e, w).
Definition modify {W} (f : W → W) : M W unit := λ w, (Val (), f w).
Definition gets {W A} (f : W → A) : M W A := λ w, (Val (f w), w).

(** [spec I m Q]: run from a state in [I], [m] ends in a state in [I],
    however it ends, and a value it returns is in [Q]. *)
Definition spec {W A} (I : W → Prop) (m : M W A) (Q : A → Prop) : Prop :=
  ∀ w, I w → I (m w).2 ∧ ∀ a, (m w).1 = Val a → Q a.

(** The values a caller can pass for an option that Python does not type
    check. *)
Inductive pyval (V : Type) : Type :=
  | PyNone
  | PyBool (b : bool)
  | PyInt (z : Z)
  | PyFloat (x : V)
  | PyStr (s : string)
  | PyList (l : list Z).
Arguments PyNone {V}.
Arguments PyBool {V} b.
Arguments PyInt {V} z.
Arguments PyFloat {V} x.
Arguments PyStr {V} s.
Arguments PyList {V} l.

(** An array as the generator hands it out: [logprobs] is of shape
    [batch, vocab] after the prompt pass and of shape [vocab] after
    [squeeze(0)]. *)
Inductive array (V : Type) : Type :=
  | Arr1 (a : list V)
  | Arr2 (a : list (list V)).
Arguments Arr1 {V} a.
Arguments Arr2 {V} a.

(** ** The interface to the runtime *)

(** What a forward pass returns, as far as the loop reads it:
    [outputs.logits[:, -1, :]] and the two optional side channels. *)
Record model_output (V S : Type) : Type := {
  out_logits : list (list V);
  cross_attention_states : option S;
  encoder_outputs : option S
}.
Arguments out_logits {V S} _.
Arguments cross_attention_states {V S} _.
Arguments encoder_outputs {V S} _.

(** The keyword arguments [generate_step] holds for the single-token
    passes, fixed after the prompt pass. *)
Inductive step_kwargs (S : Type) : Type :=
  | KwNone
  | KwCross (states : S)
  | KwEncDec (decoder_input_ids : list nat) (encoder : S).
Arguments KwNone {S}.
Arguments KwCross {S} states.
Arguments KwEncDec {S} decoder_input_ids encoder.

(** The collaborators of the engine. [make_cache] is the cache
    [generate_step] starts from: [model.language_model.make_cache()] where
    the model has it, else a pair of [SimpleKVCache] per layer for
    florence2 and one [KVCache] per entry of [n_kv_heads] otherwise; the
    loop only hands it to the model. [model] is the prompt pass
    [model(input_ids, pixel_values, cache=cache, mask=mask, **kwargs)]
    with the multimodal arguments fixed; [language_model] is the
    single-token pass, given [y[None]] unless the decoder input ids travel
    in the keyword arguments; both return the cache as they leave it.
    [perf_counter k] is the [k]-th reading of the clock. *)
Class Runtime (V : Type) : Type := {
  rng_t : Type;
  cache_t : Type;
  side_t : Type;
  detok_t : Type;
  categorical : rng_t → list (list V) → list nat * rng_t;
  top_p_sampling : rng_t → list (list V) → V → V → list nat * rng_t;
  logsumexp : list (list V) → V;
  make_cache : cache_t;
  model : list (list nat) → cache_t → model_output V side_t * cache_t;
  language_model :
    option (list nat) → step_kwargs side_t → cache_t → list (list V) * cache_t;
  perf_counter : nat → V;
  get_peak_memory : nat → V;
  detok_reset : detok_t → detok_t;
  detok_add_token : nat → list nat → detok_t → detok_t;
  detok_finalize : detok_t → detok_t;
  detok_last_segment : detok_t → string
}.

(** The arguments of [generate_step] that the loop itself reads. *)
Record gen_args (V : Type) : Type := {
  input_ids : list (list nat);
  max_tokens : Z;
  temperature : V;
  repetition_penalty : pyval V;
  repetition_context_size : option Z;
  top_p : V;
  logit_bias : option (list (nat * V))
}.
Arguments input_ids {V} _.
Arguments max_tokens {V} _.
Arguments temperature {V} _.
Arguments repetition_penalty {V} _.
Arguments repetition_context_size {V} _.
Arguments top_p {V} _.
Arguments logit_bias {V} _.

Record GenerationResult (V : Type) : Type := {
  text : string;
  token : option nat;
  logprobs : option (array V);
  prompt_tokens : nat;
  generation_tokens : nat;
  prompt_tps : V;
  generation_tps : V;
  peak_memory : V
}.
Arguments text {V} _.
Arguments token {V} _.
Arguments logprobs {V} _.
Arguments prompt_tokens {V} _.
Arguments generation_tokens {V} _.
Arguments prompt_tps {V} _.
Arguments generation_tps {V} _.
Arguments peak_memory {V} _.

(** What the generator does on the device, in order. *)
Inductive device_event : Type :=
  | EvMakeCache
  | EvPrefill
  | EvDecode
  | EvPenalty (context : list nat)
  | EvClearCache.

(** What the session wrapper does with each token, in order. *)
Inductive session_event (V : Type) : Type :=
  | EvStopCheck (tok : nat) (hit : bool)
  | EvAddToken (tok : nat)
  | EvYield (r : GenerationResult V)
  | EvFinalize.
Arguments EvStopCheck {V} tok hit.
Arguments EvAddToken {V} tok.
Arguments EvYield {V} r.
Arguments EvFinalize {V}.

(** The interpreter-wide state: the random generator, the number of clock
    readings so far, and the two logs. *)
Record world (V : Type) `{Runtime V} : Type := {
  w_rng : rng_t;
  w_clock : nat;
  w_log : list device_event;
  w_trace : list (session_event V)
}.
Arguments w_rng {V _} _.
Arguments w_clock {V _} _.
Arguments w_log {V _} _.
Arguments w_trace {V _} _.

(** ** The embedding *)

Section Embedding.
Context {V : Type} `{!Scalar V} `{!Runtime V}.

(** *** Updates of the interpreter-wide state *)

Definition with_rng (rng : rng_t) (w : world V) : world V :=
  {| w_rng := rng; w_clock := w_clock w; w_log := w_log w;
     w_trace := w_trace w |}.

Definition with_clock_read (w : world V) : world V :=
  {| w_rng := w_rng w; w_clock := S (w_clock w); w_log := w_log w;
     w_trace := w_trace w |}.

Definition with_device_event (e : device_event) (w : world V) : world V :=
  {| w_rng := w_rng w; w_clock := w_clock w; w_log := w_log w ++ [e];
     w_trace := w_trace w |}.

Definition with_session_event (e : session_event V) (w : world V) : world V :=
  {| w_rng := w_rng w; w_clock := w_clock w; w_log := w_log w;
     w_trace := w_trace w ++ [e] |}.

(** *** Elementwise and column operations on a [batch, vocab] array *)

(** An elementwise operation with a scalar, as in [logits - c]. *)
Definition map_rows (f : V → V) (a : list (list V)) : list (list V) :=
  (λ row : list V, f <$> row) <$> a.

(** One row of [logits[:, indices]]. The array library does not check
    bounds; an index past the row reads nothing here and writes nothing
    in [put_cols]. *)
Definition take_cols (row : list V) (indices : list nat) : list (option V) :=
  (λ i, row !! i) <$> indices.

(** One row of [logits[:, indices] = vals]: the writes happen in the
    order of [indices]. *)
Definition put_cols (row : list V) (indices : list nat)
    (vals : list (option V)) : list V :=
  foldl (λ acc iv, match iv.2 with
                   | Some v => <[iv.1 := v]> acc
                   | None => acc
                   end) row (zip indices vals).

(** *** apply_repetition_penalty *)

(** [mx.where(x < 0, x * penalty, x / penalty)] on one element. *)
Definition where_penalty (penalty x : V) : V :=
  if s_ltb x s_zero then s_mul x penalty else s_div x penalty.

Definition apply_repetition_penalty (logits : list (list V))
    (generated_tokens : list nat) (penalty : V) : list (list V) :=
  if bool_decide (0 < length generated_tokens) then
    let indices := generated_tokens in
    (λ row,
       let selected_logits := take_cols row indices in
       let selected_logits :=
         (λ o : option V, where_penalty penalty <$> o) <$> selected_logits in
       put_cols row indices selected_logits) <$> logits
  else logits.

(** *** sample *)

(** Modelled from the spec: [mx.argmax] belongs to the array library and
    is not in the repository; the specification gives it as the
    deterministic arg-max with ties broken by the lowest index. The scan
    keeps the first element that no later element exceeds. *)
Fixpoint argmax_from (best_i : nat) (best : V) (i : nat) (l : list V) : nat :=
  match l with
  | [] => best_i
  | x :: l' =>
      if s_ltb best x then argmax_from i x (S i) l'
      else argmax_from best_i best (S i) l'
  end.

(** Modelled from the spec: [mx.argmax] on one row, the position of its
    first greatest element; an empty row has none. *)
Definition argmax (l : list V) : option nat :=
  match l with
  | [] => None
  | x :: l' => Some (argmax_from 0 x 1 l')
  end.

(** [i] is the position of the first greatest element of [row]. *)
Definition first_max (row : list V) (i : nat) : Prop :=
  ∃ x, row !! i = Some x
       ∧ (∀ j y, row !! j = Some y → s_ltb x y = false)
       ∧ (∀ j y, j < i → row !! j = Some y → s_ltb y x = true).

(** [mx.argmax(logits, axis=-1)]: one index per row; an empty axis is
    refused. *)
Fixpoint argmax_rows (logits : list (list V)) : res (list nat) :=
  match logits with
  | [] => Val []
  | row :: rest =>
      match argmax row with
      | None => Exn (ValueError "[argmax] Cannot argmax reduce zero size array.")
      | Some i => js ← argmax_rows rest; mret (i :: js)
      end
  end.

(** [logits[:, indices] += values] *)
Definition add_bias (bias : list (nat * V)) (logits : list (list V))
    : list (list V) :=
  let indices := bias.*1 in
  let values := bias.*2 in
  (λ row,
     put_cols row indices
       (zip_with (λ o v, (λ x, s_add x v) <$> o) (take_cols row indices) values))
    <$> logits.

(** Truth value of the [logit_bias] dictionary. *)
Definition dict_truthy {A} (d : option (list A)) : bool :=
  match d with
  | Some (_ :: _) => true
  | _ => false
  end.

(** [if logit_bias: logits[:, indices] += values] *)
Definition biased_logits (args : gen_args V) (logits : list (list V))
    : list (list V) :=
  if dict_truthy (logit_bias args)
  then add_bias (default [] (logit_bias args)) logits
  else logits.

(** The entry of the dictionary [logit_bias] for token [j], if it has
    one. *)
Fixpoint bias_of (bias : list (nat * V)) (j : nat) : option V :=
  match bias with
  | [] => None
  | (i, v) :: bias => if bool_decide (i = j) then Some v else bias_of bias j
  end.

(** Following the spec's words, the bias-adjusted logit of token [j] in
    a row: the logit, plus the bias the dictionary gives for [j] when it
    gives one. It is written without the array operations of
    [add_bias], to state what [sample] maximises. *)
Definition bias_adjusted (logit_bias : option (list (nat * V))) (row : list V)
    (j : nat) : option V :=
  (λ x, match bias_of (default [] logit_bias) j with
        | Some v => s_add x v
        | None => x
        end) <$> row !! j.

(** The nested function [sample] of [generate_step]. *)
Definition sample (args : gen_args V) (logits : list (list V))
    : M (world V) (list nat * list (list V)) :=
  let logits := biased_logits args logits in
  let logprobs := map_rows (λ x, s_sub x (logsumexp logits)) logits in
  if s_eqb (temperature args) s_zero then
    token ← lift_res (argmax_rows logits);
    mret (token, logprobs)
  else if s_ltb s_zero (top_p args) && s_ltb (top_p args) s_one then
    λ w, let '(token, rng) :=
           top_p_sampling (w_rng w) logits (top_p args) (temperature args) in
         (Val (token, logprobs), with_rng rng w)
  else
    λ w, let '(token, rng) :=
           categorical (w_rng w)
             (map_rows (λ x, s_mul x (s_div s_one (temperature args))) logits) in
         (Val (token, logprobs), with_rng rng w).

(** *** The repetition_penalty check of generate_step *)

(** [bool(v)] *)
Definition py_truthy (v : pyval V) : bool :=
  match v with
  | PyNone => false
  | PyBool b => b
  | PyInt z => negb (z =? 0)%Z
  | PyFloat x => negb (s_eqb x s_zero)
  | PyStr s => negb (String.eqb s EmptyString)
  | PyList l => negb (bool_decide (l = []))
  end.

Definition py_type_name (v : pyval V) : string :=
  match v with
  | PyNone => "NoneType"
  | PyBool _ => "bool"
  | PyInt _ => "int"
  | PyFloat _ => "float"
  | PyStr _ => "str"
  | PyList _ => "list"
  end.

(** [v < 0]: defined on numbers, a [TypeError] otherwise. *)
Definition py_lt_zero (v : pyval V) : res bool :=
  match v with
  | PyBool _ => Val false
  | PyInt z => Val (z <? 0)%Z
  | PyFloat x => Val (s_ltb x s_zero)
  | _ => Exn (TypeError ("'<' not supported between instances of '"
                           ++ py_type_name v ++ "' and 'int'"))
  end.

(** [v] is a number: a bool, an int or a float. *)
Definition py_is_number (v : pyval V) : bool :=
  match v with
  | PyBool _ | PyInt _ | PyFloat _ => true
  | _ => false
  end.

(** [v] is a number below zero. *)
Definition py_negative (v : pyval V) : bool :=
  match v with
  | PyInt z => (z <? 0)%Z
  | PyFloat x => s_ltb x s_zero
  | _ => false
  end.

(** [isinstance(v, float)] *)
Definition py_is_float (v : pyval V) : bool :=
  match v with
  | PyFloat _ => true
  | _ => false
  end.

(** [str(v)], as the f-string of the error message renders it. *)
Definition py_str (v : pyval V) : string :=
  match v with
  | PyNone => "None"
  | PyBool b => if b then "True" else "False"
  | PyInt z => pretty z
  | PyFloat x => s_repr x
  | PyStr s => s
  | PyList l => "[" ++ String.concat ", " (pretty <$> l) ++ "]"
  end.

(** The first statement of the body of [generate_step]:
    [if repetition_penalty and (repetition_penalty < 0 or not
    isinstance(repetition_penalty, float)): raise ValueError(...)]. *)
Definition check_repetition_penalty (repetition_penalty : pyval V) : res unit :=
  if py_truthy repetition_penalty then
    lt ← py_lt_zero repetition_penalty;
    if lt || negb (py_is_float repetition_penalty) then
      Exn (ValueError ("repetition_penalty must be a non-negative float, got "
                         ++ py_str repetition_penalty))
    else mret ()
  else mret ().

(** The penalty as the scalar that multiplies the logits. A truthy value
    that passed [check_repetition_penalty] is a float. *)
Definition py_float (v : pyval V) : res V :=
  match v with
  | PyFloat x => Val x
  | _ => Exn (TypeError ("unsupported operand type(s) for *: 'array' and '"
                           ++ py_type_name v ++ "'"))
  end.

(** *** The repetition context *)

(** [l[start:]] *)
Definition slice_from {A} (start : Z) (l : list A) : list A :=
  if (start <? 0)%Z then drop (Z.to_nat (Z.of_nat (length l) + start)) l
  else drop (Z.to_nat start) l.

(** Truth value of [repetition_context_size]. *)
Definition size_truthy (size : option Z) : bool :=
  match size with
  | Some k => negb (k =? 0)%Z
  | None => false
  end.

(** [input_ids.reshape(-1).tolist()], cut to its last
    [repetition_context_size] entries when that is set. *)
Definition initial_context (args : gen_args V) : list nat :=
  let repetition_context := concat (input_ids args) in
  if size_truthy (repetition_context_size args) then
    slice_from (- default 0%Z (repetition_context_size args)) repetition_context
  else repetition_context.

(** The trimming at the end of [_step]. *)
Definition trim_context (args : gen_args V) (repetition_context : list nat)
    : list nat :=
  if size_truthy (repetition_context_size args) then
    if (Z.of_nat (length repetition_context)
          >? default 0%Z (repetition_context_size args))%Z
    then slice_from (- default 0%Z (repetition_context_size args))
           repetition_context
    else repetition_context
  else repetition_context.

(** *** generate_step *)

(** [y.item()] *)
Definition item (y : list nat) : res nat :=
  match y with
  | [t] => Val t
  | _ => Exn (ValueError
                "[convert] Only length-1 arrays can be converted to Python scalars.")
  end.

(** [logprobs.squeeze(0)] *)
Definition squeeze0 (a : list (list V)) : res (array V) :=
  match a with
  | [row] => Val (Arr1 row)
  | _ => Exn (ValueError "[squeeze] Cannot squeeze axis 0 with size not equal to 1.")
  end.

Definition log_device (e : device_event) : M (world V) unit :=
  modify (with_device_event e).

(** The nested function [_step]: one single-token pass, the penalty, the
    sampling and the update of the repetition context. It returns the
    cache and the context as it leaves them. *)
Definition _step (args : gen_args V) (y : list nat) (kwargs : step_kwargs side_t)
    (cache : cache_t) (repetition_context : list nat)
    : M (world V) (list nat * array V * cache_t * list nat) :=
  let '(logits, cache) :=
    match kwargs with
    | KwEncDec _ _ => language_model None kwargs cache
    | _ => language_model (Some y) kwargs cache
    end in
  _ ← log_device EvDecode;
  '(y, logprobs, repetition_context) ←
    (if py_truthy (repetition_penalty args) then
       penalty ← lift_res (py_float (repetition_penalty args));
       _ ← log_device (EvPenalty repetition_context);
       let logits := apply_repetition_penalty logits repetition_context penalty in
       '(y, logprobs) ← sample args logits;
       t ← lift_res (item y);
       mret (y, logprobs, repetition_context ++ [t])
     else
       '(y, logprobs) ← sample args logits;
       mret (y, logprobs, repetition_context));
  let repetition_context := trim_context args repetition_context in
  logprobs ← lift_res (squeeze0 logprobs);
  mret (y, logprobs, cache, repetition_context).

(** The local variables that are live while the generator is suspended
    at its [yield]. *)
Record gen_frame : Type := {
  f_next_y : list nat;
  f_next_logprobs : array V;
  f_n : Z;
  f_cache : cache_t;
  f_repetition_context : list nat;
  f_kwargs : step_kwargs side_t
}.

Inductive gen_state : Type :=
  | GenCreated
  | GenSuspended (f : gen_frame)
  | GenClosed.

(** What one [next()] on the generator gives: a pair and the suspended
    generator, or the end of the iteration. *)
Inductive gen_out : Type :=
  | GenYield (token : nat) (logprobs : array V) (g : gen_state)
  | GenStop.

(** The body of [while True] from its head to the [yield], or to the
    [break]. *)
Definition loop_iteration (args : gen_args V) (y : list nat) (logprobs : array V)
    (n : Z) (cache : cache_t) (repetition_context : list nat)
    (kwargs : step_kwargs side_t) : M (world V) gen_out :=
  if bool_decide (n ≠ max_tokens args) then
    '(next_y, next_logprobs, cache, repetition_context) ←
      _step args y kwargs cache repetition_context;
    let kwargs :=
      match kwargs with
      | KwEncDec _ encoder => KwEncDec next_y encoder
      | _ => kwargs
      end in
    token ← lift_res (item y);
    mret (GenYield token logprobs
            (GenSuspended {| f_next_y := next_y; f_next_logprobs := next_logprobs;
                             f_n := n; f_cache := cache;
                             f_repetition_context := repetition_context;
                             f_kwargs := kwargs |}))
  else mret GenStop.

(** The first [next()]: the body up to the first [yield]. *)
Definition gen_start (args : gen_args V) : M (world V) gen_out :=
  _ ← lift_res (check_repetition_penalty (repetition_penalty args));
  _ ← log_device EvMakeCache;
  let cache := make_cache in
  let repetition_context := initial_context args in
  let '(outputs, cache) := model (input_ids args) cache in
  _ ← log_device EvPrefill;
  '(y, logprobs) ← sample args (out_logits outputs);
  let kwargs :=
    match cross_attention_states outputs with
    | Some states => KwCross states
    | None =>
        match encoder_outputs outputs with
        | Some encoder => KwEncDec y encoder
        | None => KwNone
        end
    end in
  loop_iteration args y (Arr2 logprobs) 0%Z cache repetition_context kwargs.

(** A later [next()]: from the [yield] around the loop to the next one. *)
Definition gen_resume (args : gen_args V) (f : gen_frame) : M (world V) gen_out :=
  let y := f_next_y f in
  let logprobs := f_next_logprobs f in
  if bool_decide (f_n f = max_tokens args) then mret GenStop
  else
    let n := (f_n f + 1)%Z in
    _ ← (if bool_decide (n `mod` 50 = 0)%Z then log_device EvClearCache
         else mret ());
    loop_iteration args y logprobs n (f_cache f) (f_repetition_context f)
      (f_kwargs f).

Definition gen_next (args : gen_args V) (g : gen_state) : M (world V) gen_out :=
  match g with
  | GenCreated => gen_start args
  | GenSuspended f => gen_resume args f
  | GenClosed => mret GenStop
  end.

(** *** StoppingCriteria *)

(** An argument that is one id or a list of ids. *)
Inductive ids_arg : Type :=
  | OneId (i : nat)
  | Ids (l : list nat).

(** The tokenizer, as far as [StoppingCriteria] reads it. *)
Record tokenizer_t : Type := {
  tk_eos_token_ids : ids_arg
}.

Record StoppingCriteria : Type := {
  eos_token_ids : list nat;
  tokenizer : option tokenizer_t
}.

(** [isinstance(ids, int)] turns one id into a one-element list. *)
Definition as_id_list (ids : ids_arg) : list nat :=
  match ids with
  | OneId i => [i]
  | Ids l => l
  end.

(** [StoppingCriteria.__init__] *)
Definition StoppingCriteria_init (eos_token_ids : ids_arg)
    (tokenizer : option tokenizer_t) : StoppingCriteria :=
  {| eos_token_ids := as_id_list eos_token_ids; tokenizer := tokenizer |}.

(** The criteria [load_processor] creates. [load] passes it
    [model.config.eos_token_id], or [None] when the configuration of the
    model has no such attribute; the ids of the tokenizer are used only
    in the second case. *)
Definition load_processor_criteria (eos_token_ids : option ids_arg)
    (tokenizer_obj : tokenizer_t) : StoppingCriteria :=
  let final_eos_token_ids :=
    match eos_token_ids with
    | Some ids => ids
    | None => tk_eos_token_ids tokenizer_obj
    end in
  StoppingCriteria_init final_eos_token_ids (Some tokenizer_obj).

(** [StoppingCriteria.reset]; the argument is [None] when the caller
    gives no ids. *)
Definition StoppingCriteria_reset (self : StoppingCriteria)
    (ids : option ids_arg) : res StoppingCriteria :=
  ids ← match ids with
        | Some ids => Val ids
        | None =>
            match tokenizer self with
            | Some tk => Val (tk_eos_token_ids tk)
            | None => Exn (AttributeError
                "'NoneType' object has no attribute 'eos_token_ids'")
            end
        end;
  let ids := as_id_list ids in
  if bool_decide (eos_token_ids self ≠ ids) then
    mret {| eos_token_ids := ids; tokenizer := tokenizer self |}
  else mret self.

(** [StoppingCriteria.__call__] *)
Definition StoppingCriteria_call (self : StoppingCriteria) (token : nat) : bool :=
  bool_decide (token ∈ eos_token_ids self).

(** *** stream_generate *)

(** The local variables of [stream_generate] that the loop binds; [None]
    is a name that no assignment has reached yet. *)
Record stream_locals : Type := {
  l_n : option nat;
  l_token : option nat;
  l_logprobs : option (array V);
  l_prompt_tps : option V;
  l_tic : V;
  l_detokenizer : detok_t
}.

(** Reading a local variable. *)
Definition read_local {A} (name : string) (v : option A) : M (world V) A :=
  match v with
  | Some a => mret a
  | None => raise (UnboundLocalError name)
  end.

(** [time.perf_counter()] *)
Definition tick : M (world V) V :=
  λ w, (Val (perf_counter (w_clock w)), with_clock_read w).

Definition log_session (e : session_event V) : M (world V) unit :=
  modify (with_session_event e).

(** The record both [yield]s build. Elapsed times are taken to be
    non-zero, so the divisions do not raise. *)
Definition make_result (args : gen_args V) (d : detok_t) (token : nat)
    (logprobs : array V) (n : nat) (prompt_tps tic : V)
    : M (world V) (GenerationResult V) :=
  now ← tick;
  peak ← gets (λ w, get_peak_memory (w_clock w));
  mret {| text := detok_last_segment d;
          token := Some token;
          logprobs := Some logprobs;
          prompt_tokens := length (concat (input_ids args));
          generation_tokens := n + 1;
          prompt_tps := prompt_tps;
          generation_tps := s_div (s_of_nat (n + 1)) (s_sub now tic);
          peak_memory := peak |}.

(** How the body of a loop ends: by [break], or by falling through to
    the next iteration. *)
Inductive control (A : Type) : Type :=
  | Break (a : A)
  | Continue (a : A).

(** The body of the [for n, (token, logprobs) in enumerate(...)] loop,
    entered with [n], [token] and [logprobs] freshly bound. *)
Definition stream_body (args : gen_args V) (stopping_criteria : nat → bool)
    (skip_special_token_ids : list nat) (n : nat) (token : nat)
    (logprobs : array V) (loc : stream_locals)
    : M (world V) (control stream_locals) :=
  loc ← (if bool_decide (n = 0) then
           now ← tick;
           let prompt_time := s_sub now (l_tic loc) in
           let prompt_tps :=
             s_div (s_of_nat (length (concat (input_ids args)))) prompt_time in
           tic ← tick;
           mret {| l_n := Some n; l_token := Some token;
                   l_logprobs := Some logprobs;
                   l_prompt_tps := Some prompt_tps;
                   l_tic := tic;
                   l_detokenizer := l_detokenizer loc |}
         else
           mret {| l_n := Some n; l_token := Some token;
                   l_logprobs := Some logprobs;
                   l_prompt_tps := l_prompt_tps loc;
                   l_tic := l_tic loc;
                   l_detokenizer := l_detokenizer loc |});
  let hit := stopping_criteria token in
  _ ← log_session (EvStopCheck token hit);
  if hit then mret (Break _ loc)
  else
    let d := detok_add_token token skip_special_token_ids (l_detokenizer loc) in
    _ ← log_session (EvAddToken token);
    prompt_tps ← read_local "prompt_tps" (l_prompt_tps loc);
    r ← make_result args d token logprobs n prompt_tps (l_tic loc);
    _ ← log_session (EvYield r);
    mret (Continue _ {| l_n := l_n loc; l_token := l_token loc;
                        l_logprobs := l_logprobs loc;
                        l_prompt_tps := l_prompt_tps loc;
                        l_tic := l_tic loc;
                        l_detokenizer := d |}).

(** The [for] loop over the generator. [fuel] bounds the number of
    [next()] calls; the loop returns the local variables as it leaves
    them, by exhaustion or by [break]. *)
Fixpoint stream_loop (fuel : nat) (args : gen_args V)
    (stopping_criteria : nat → bool) (skip_special_token_ids : list nat)
    (g : gen_state) (n : nat) (loc : stream_locals)
    : M (world V) stream_locals :=
  match fuel with
  | 0 => λ w, (Unfinished, w)
  | S fuel =>
      out ← gen_next args g;
      match out with
      | GenStop => mret loc
      | GenYield token logprobs g =>
          c ← stream_body args stopping_criteria skip_special_token_ids n token
                logprobs loc;
          match c with
          | Break _ loc => mret loc
          | Continue _ loc =>
              stream_loop fuel args stopping_criteria skip_special_token_ids g
                (S n) loc
          end
      end
  end.

(** The body of [stream_generate] from [detokenizer.reset()] on, given
    the prepared inputs and run to the end of the stream; the records it
    yields are the [EvYield] entries of the session log, in order. The
    asynchronous evaluation only schedules the device and is left out,
    and so is the wired-memory limit that is set around this body; the
    line [wired_limit] may print on entry is part of [run_stream]
    below, where the standard output is modelled. *)
Definition stream_generate (fuel : nat) (args : gen_args V)
    (stopping_criteria : nat → bool) (skip_special_token_ids : list nat)
    (detokenizer : detok_t) : M (world V) unit :=
  let d := detok_reset detokenizer in
  tic ← tick;
  loc ← stream_loop fuel args stopping_criteria skip_special_token_ids
          GenCreated 0
          {| l_n := None; l_token := None; l_logprobs := None;
             l_prompt_tps := None; l_tic := tic; l_detokenizer := d |};
  let d := detok_finalize (l_detokenizer loc) in
  _ ← log_session EvFinalize;
  token ← read_local "token" (l_token loc);
  logprobs ← read_local "logprobs" (l_logprobs loc);
  n ← read_local "n" (l_n loc);
  prompt_tps ← read_local "prompt_tps" (l_prompt_tps loc);
  r ← make_result args d token logprobs n prompt_tps (l_tic loc);
  _ ← log_session (EvYield r);
  log_device EvClearCache.

(** A penalty application saw a context of at most [k] tokens. *)
Definition penalty_bounded (k : Z) (e : device_event) : Prop :=
  match e with
  | EvPenalty context => (Z.of_nat (length context) ≤ k)%Z
  | _ => True
  end.

(** The generator holds a context that satisfies [P]. *)
Definition gen_context (P : list nat → Prop) (g : gen_state) : Prop :=
  match g with
  | GenSuspended f => P (f_repetition_context f)
  | _ => True
  end.

Definition out_context (P : list nat → Prop) (out : gen_out) : Prop :=
  match out with
  | GenYield _ _ g => gen_context P g
  | GenStop => True
  end.

(** Every penalty application so far saw at most [k] tokens. *)
Definition log_ok (k : Z) (w : world V) : Prop :=
  Forall (penalty_bounded k) (w_log w).

(** The events of one emitted token: the test, the push to the
    detokenizer, the record. *)
Definition step_block (s : nat * GenerationResult V) : list (session_event V) :=
  [EvStopCheck s.1 false; EvAddToken s.1; EvYield s.2].

Definition blocks (steps : list (nat * GenerationResult V))
    : list (session_event V) :=
  concat (step_block <$> steps).

(** The detokenizer after the given tokens. *)
Definition detok_feed (skip : list nat) (d : detok_t) (tokens : list nat)
    : detok_t :=
  foldl (λ d t, detok_add_token t skip d) d tokens.

(** The step records of a session that starts with the detokenizer [d]
    and the counter [n]: each belongs to a token the stopping criteria
    let pass, carries that token and the running count, and shows the
    text the detokenizer reveals after the tokens up to it. *)
Definition steps_ok (stopping_criteria : nat → bool) (skip : list nat)
    (d : detok_t) (n : nat) (args : gen_args V)
    (steps : list (nat * GenerationResult V)) : Prop :=
  ∀ i s, steps !! i = Some s →
    stopping_criteria s.1 = false
    ∧ token s.2 = Some s.1
    ∧ generation_tokens s.2 = n + i + 1
    ∧ prompt_tokens s.2 = length (concat (input_ids args))
    ∧ text s.2 = detok_last_segment (detok_feed skip d (take (S i) steps.*1)).

(** An event that handles no token: neither a test of the stopping
    criteria nor a push to the detokenizer. *)
Definition quiet (e : session_event V) : Prop :=
  match e with
  | EvStopCheck _ _ | EvAddToken _ => False
  | _ => True
  end.

(** Logits of one batch row over a non-empty vocabulary. *)
Definition single_row (l : list (list V)) : Prop :=
  ∃ row, l = [row] ∧ row ≠ [].

(** A runtime that decodes one sequence: both passes return one row of
    logits, and the random samplers return one token for one row. *)
Record runtime_ok : Prop := {
  model_single : ∀ ids cache, single_row (out_logits (model ids cache).1);
  language_model_single :
    ∀ y kwargs cache, single_row (language_model y kwargs cache).1;
  categorical_single :
    ∀ rng logits, single_row logits → ∃ t, (categorical rng logits).1 = [t];
  top_p_sampling_single :
    ∀ rng logits p t, single_row logits →
      ∃ tok, (top_p_sampling rng logits p t).1 = [tok]
}.

(** The generator has yielded [k] pairs and can be resumed. *)
Definition gen_at (k : nat) (g : gen_state) : Prop :=
  match g with
  | GenCreated => k = 0
  | GenSuspended f =>
      0 < k ∧ f_n f = (Z.of_nat k - 1)%Z ∧ ∃ t, f_next_y f = [t]
  | GenClosed => False
  end.

(** The records a session has yielded. *)
Definition yielded (trace : list (session_event V)) : list (GenerationResult V) :=
  omap (λ e, match e with EvYield r => Some r | _ => None end) trace.

(** The tokens a session has pushed to the detokenizer. *)
Definition added (trace : list (session_event V)) : list nat :=
  omap (λ e, match e with EvAddToken t => Some t | _ => None end) trace.

(** The tokens a session has tested with the stopping criteria. *)
Definition checked (trace : list (session_event V)) : list nat :=
  omap (λ e, match e with EvStopCheck t _ => Some t | _ => None end) trace.

(** The tokens of the first [k] pairs of the generator resumed from [g],
    fewer if it ends before: for a new generator,
    [[token for token, _ in itertools.islice(generate_step(...), k)]]. *)
Fixpoint generated_tokens (k : nat) (args : gen_args V) (g : gen_state)
    : M (world V) (list nat) :=
  match k with
  | 0 => mret []
  | S k =>
      out ← gen_next args g;
      match out with
      | GenStop => mret []
      | GenYield token _ g => tokens ← generated_tokens k args g; mret (token :: tokens)
      end
  end.

(** Code of the engine proper: what it returns, and what it does to the
    random generator and to the device log, depends on these two alone,
    not on the clock or on the session log. *)
Definition engine_only {A} (m : M (world V) A) : Prop :=
  ∀ w v, w_rng w = w_rng v → w_log w = w_log v →
    (m w).1 = (m v).1
    ∧ w_rng (m w).2 = w_rng (m v).2
    ∧ w_log (m w).2 = w_log (m v).2.

End Embedding.

(** ** Input processing *)

Section Inputs.
Context {prompt_t image_t audio_t inputs_t : Type}.

(** The keyword arguments [process_inputs] assembles; an absent key is
    [None]. *)
Record process_kwargs : Type := {
  kw_text : prompt_t;
  kw_images : option image_t;
  kw_padding : bool;
  kw_return_tensors : string;
  kw_add_special_tokens : option bool;
  kw_audio : option audio_t
}.

(** A processor: its [process] method (or itself, when it has none), with
    the parameter names its signature shows. *)
Record processor_t : Type := {
  proc_str : string;
  accepts_add_special_tokens : bool;
  accepts_audio : bool;
  process_method : process_kwargs → res inputs_t
}.

(** What the caller can observe besides the result: the lines printed and
    the tensor representation of each call of [process_inputs]. *)
Record io_log : Type := {
  io_printed : list string;
  io_attempts : list string
}.

(** The body of [process_inputs]. *)
Definition process_inputs_body (processor : processor_t) (prompts : prompt_t)
    (images : option image_t) (audio : option audio_t)
    (add_special_tokens : bool) (return_tensors : string) : res inputs_t :=
  let args := {| kw_text := prompts; kw_images := images; kw_padding := true;
                 kw_return_tensors := return_tensors;
                 kw_add_special_tokens :=
                   if accepts_add_special_tokens processor
                   then Some add_special_tokens else None;
                 kw_audio := None |} in
  args ← match audio with
         | Some a =>
             if accepts_audio processor then
               Val {| kw_text := kw_text args; kw_images := kw_images args;
                      kw_padding := kw_padding args;
                      kw_return_tensors := kw_return_tensors args;
                      kw_add_special_tokens := kw_add_special_tokens args;
                      kw_audio := Some a |}
             else Exn (ValueError ("Processor " ++ proc_str processor
                                     ++ " does not support audio parameter"))
         | None => Val args
         end;
  process_method processor args.

(** [process_inputs], noting each call in the log. *)
Definition process_inputs (processor : processor_t) (prompts : prompt_t)
    (images : option image_t) (audio : option audio_t)
    (add_special_tokens : bool) (return_tensors : string) : M io_log inputs_t :=
  λ w, (process_inputs_body processor prompts images audio add_special_tokens
          return_tensors,
        {| io_printed := io_printed w;
           io_attempts := io_attempts w ++ [return_tensors] |}).

Definition print (line : string) : M io_log unit :=
  modify (λ w, {| io_printed := io_printed w ++ [line];
                  io_attempts := io_attempts w |}).

(** [try: m except Exception as e: handler(e)] *)
Definition try_except {W A} (m : M W A) (handler : exn → M W A) : M W A :=
  λ w, match m w with
       | (Exn e, w') => handler e w'
       | r => r
       end.

Definition esc : string := String (Ascii.ascii_of_nat 27) EmptyString.

Definition fallback_warning (e : exn) : string :=
  esc ++ "[33mWarning" ++ esc ++ "[0m: Failed to process inputs with error: "
    ++ exn_str e ++ ". Trying to process inputs with return_tensors='pt'".

Definition process_inputs_with_fallback (processor : processor_t)
    (prompts : prompt_t) (images : option image_t) (audio : option audio_t)
    (add_special_tokens : bool) (return_tensors : string) : M io_log inputs_t :=
  try_except
    (process_inputs processor prompts images audio add_special_tokens
       return_tensors)
    (λ e,
       if negb (String.eqb return_tensors "pt") then
         try_except
           (_ ← print (fallback_warning e);
            process_inputs processor prompts images audio add_special_tokens "pt")
           (λ fallback_error,
              raise (ValueError ("Failed to process inputs with error: "
                                   ++ exn_str fallback_error)))
       else
         raise (ValueError ("Failed to process inputs with error: "
                              ++ exn_str e))).

End Inputs.

Arguments process_kwargs : clear implicits.
Arguments processor_t : clear implicits.

(** [sub] occurs in [s]. *)
Fixpoint contains (sub s : string) : bool :=
  String.prefix sub s ||
  match s with
  | EmptyString => false
  | String _ s' => contains sub s'
  end.


(** ** A small runtime to run the embedding on *)

Module Toy.

(** A row of [n] logits, [1] at position [i] and [0] elsewhere. *)
Definition one_hot (n i : nat) : list Q :=
  (λ j, if bool_decide (j = i) then 1%Q else 0%Q) <$> seq 0 n.

(** A ten-token model that always continues [t] with [t + 1] modulo ten;
    its cache counts the positions it has seen. The detokenizer keeps
    the tokens it was given and shows the last one as text. *)
#[global] Instance runtime : Runtime Q := {|
  rng_t := unit;
  cache_t := nat;
  side_t := unit;
  detok_t := list nat * string;
  categorical := λ rng logits, ((λ _, 0) <$> logits, rng);
  top_p_sampling := λ rng logits _ _, ((λ _, 0) <$> logits, rng);
  logsumexp := λ _, 0%Q;
  make_cache := 0;
  model := λ input_ids cache,
    ({| out_logits :=
          [one_hot 10 ((default 0 (last (concat input_ids)) + 1) `mod` 10)];
        cross_attention_states := None;
        encoder_outputs := None |},
     cache + length (concat input_ids));
  language_model := λ y _ cache,
    ([one_hot 10 ((default 0 (y ≫= head) + 1) `mod` 10)], S cache);
  perf_counter := λ k, inject_Z (Z.of_nat (S k));
  get_peak_memory := λ _, 0%Q;
  detok_reset := λ _, ([], EmptyString);
  detok_add_token := λ t skip d,
    if bool_decide (t ∈ skip) then (d.1, EmptyString) else (d.1 ++ [t], pretty t);
  detok_finalize := λ d, (d.1, EmptyString);
  detok_last_segment := λ d, d.2
|}.

Definition detokenizer0 : @detok_t Q runtime := ([], EmptyString).

Definition world0 : world Q :=
  {| w_rng := (); w_clock := 0; w_log := []; w_trace := [] |}.

(** Greedy decoding of a prompt with the given budget and penalty. *)
Definition args (prompt : list nat) (max_tokens : Z)
    (repetition_penalty : pyval Q) (size : option Z) : gen_args Q :=
  {| input_ids := [prompt]; max_tokens := max_tokens; temperature := 0%Q;
     repetition_penalty := repetition_penalty;
     repetition_context_size := size; top_p := 1%Q; logit_bias := None |}.

(** A processor that fails under every tensor representation, with a
    different error for each. *)
Definition failing_processor : processor_t unit unit unit unit :=
  {| proc_str := "P"; accepts_add_special_tokens := false;
     accepts_audio := false;
     process_method := λ kw,
       if String.eqb (kw_return_tensors kw) "pt"
       then Exn (TypeError "torch tensors unavailable")
       else Exn (ValueError "mlx conversion failed") |}.

Definition io0 : io_log := {| io_printed := []; io_attempts := [] |}.

End Toy.


(** ** Saving weights *)

(** [d[k] = v] on a dictionary, kept as the list of its items in insertion
    order: a key that is present keeps its place. *)
Fixpoint dict_set {A} (k : string) (v : A) (d : list (string * A))
    : list (string * A) :=
  match d with
  | [] => [(k, v)]
  | (k', v') :: d' =>
      if String.eqb k' k then (k, v) :: d' else (k', v') :: dict_set k v d'
  end.

(** [d.get(k)] *)
Fixpoint dict_get {A} (k : string) (d : list (string * A)) : option A :=
  match d with
  | [] => None
  | (k', v') :: d' => if String.eqb k' k then Some v' else dict_get k d'
  end.

(** [sorted(keys)] on strings, which Python orders by code point. *)
Definition sorted_strings (keys : list string) : list string :=
  merge_sort (λ a b, String.leb a b) keys.

Section Shards.
Context {T : Type} (nbytes : T → N).


(** [sum(v.nbytes for v in d.values())] *)
Definition total_nbytes (d : list (string * T)) : N :=
  foldr (λ kv acc, (nbytes kv.2 + acc)%N) 0%N d.

(** The body of the loop of [make_shards], on the state
    [(shards, shard, shard_size)]. *)
Definition make_shards_step (max_file_size_bytes : Z)
    (st : list (list (string * T)) * list (string * T) * N) (kv : string * T)
    : list (list (string * T)) * list (string * T) * N :=
  let '(shards, shard, shard_size) := st in
  let '(shards, shard, shard_size) :=
    if (max_file_size_bytes <? Z.of_N (shard_size + nbytes kv.2))%Z
    then (shards ++ [shard], [], 0%N)
    else (shards, shard, shard_size) in
  (shards, dict_set kv.1 kv.2 shard, (shard_size + nbytes kv.2)%N).

(** The state of the loop of [make_shards] after the weights [ws]. *)
Definition shards_state (limit : Z) (ws : list (string * T)) :=
  foldl (make_shards_step limit) ([], [], 0%N) ws.

Definition make_shards (weights : list (string * T)) (max_file_size_gb : Z)
    : list (list (string * T)) :=
  let max_file_size_bytes := Z.shiftl max_file_size_gb 30 in
  let '(shards, shard, _) :=
    foldl (make_shards_step max_file_size_bytes) ([], [], 0%N) weights in
  shards ++ [shard].

(** [MAX_FILE_SIZE_GB] *)
Definition MAX_FILE_SIZE_GB : Z := 5.

(** ["0" * n] *)
Fixpoint zeros (n : nat) : string :=
  match n with
  | 0 => EmptyString
  | S n => String "0"%char (zeros n)
  end.

(** ["{:05d}".format(n)] for [n >= 0]: the decimal digits, filled with
    zeros on the left up to five characters. *)
Definition format_05d (n : nat) : string :=
  let digits := pretty n in
  zeros (5 - String.length digits) +:+ digits.

(** [shard_file_format.format(i + 1, shards_count)] for the shard at
    position [i]. *)
Definition shard_file_name (shards_count i : nat) : string :=
  if bool_decide (1 < shards_count)
  then "model-" +:+ format_05d (i + 1) +:+ "-of-" +:+ format_05d shards_count
         +:+ ".safetensors"
  else "model.safetensors".

(** What [save_weights] leaves behind: the shard files under [save_path]
    in the order they were written, the two entries of
    [model.safetensors.index.json], and the caller's [weights]. *)
Record saved_weights : Type := {
  shard_files : list (string * list (string * T));
  total_size : N;
  weight_map : list (string * string);
  caller_weights : list (string * T)
}.

(** The inner loop [for weight_name in shard.keys()]. *)
Definition map_shard (shard_name : string) (shard : list (string * T))
    (weight_map : list (string * string)) : list (string * string) :=
  foldl (λ wm weight_name, dict_set weight_name shard_name wm) weight_map shard.*1.

(** The loop [for i in range(len(shards))], from position [i] on, on the
    files written and [index_data["weight_map"]]. *)
Fixpoint write_shards (shards_count i : nat) (shards : list (list (string * T)))
    (st : list (string * list (string * T)) * list (string * string))
    : list (string * list (string * T)) * list (string * string) :=
  match shards with
  | [] => st
  | shard :: shards =>
      let shard_name := shard_file_name shards_count i in
      write_shards shards_count (S i) shards
        (st.1 ++ [(shard_name, shard)], map_shard shard_name shard st.2)
  end.

(** The index entries of the shards written from position [i] on. *)
Fixpoint shard_index (shards_count i : nat) (shards : list (list (string * T)))
    : list (string * string) :=
  match shards with
  | [] => []
  | shard :: shards =>
      ((λ kv, (kv.1, shard_file_name shards_count i)) <$> shard)
        ++ shard_index shards_count (S i) shards
  end.

Definition save_weights (weights : list (string * T)) (donate_weights : bool)
    : saved_weights :=
  let shards := make_shards weights MAX_FILE_SIZE_GB in
  let shards_count := length shards in
  let total_size := total_nbytes weights in
  let '(files, weight_map) := write_shards shards_count 0 shards ([], []) in
  {| shard_files := files;
     total_size := total_size;
     weight_map :=
       omap (λ k, (λ name, (k, name)) <$> dict_get k weight_map)
         (sorted_strings weight_map.*1);
     caller_weights := if donate_weights then [] else weights |}.

End Shards.

(** [int] on the decimal digits a string starts with, continuing from
    [acc]; it reads the number back from a formatted file name. *)
Fixpoint read_digits (acc : N) (s : string) : N :=
  match s with
  | EmptyString => acc
  | String c s' =>
      let d := Ascii.N_of_ascii c in
      if ((48 <=? d) && (d <=? 57))%N
      then read_digits (10 * acc + (d - 48)) s'
      else acc
  end.

(** Weights for the examples: a tensor is given by its size in bytes. *)
Definition example_weights : list (string * N) :=
  [("lm_head.weight", 3 * 2 ^ 30); ("embed.weight", 3 * 2 ^ 30);
   ("norm.weight", 4096)]%N.

Definition small_weights : list (string * N) :=
  [("lm_head.weight", 2 ^ 30); ("embed.weight", 2 ^ 30); ("norm.weight", 4096)]%N.

(** ** Configuration and audio helpers *)

(** The exceptions of the code outside the decoding engine: those of
    [exn], and the ones raised by subscripts and integer division. *)
Inductive pyerr : Type :=
  | Raised (e : exn)
  | KeyError (key : string)
  | IndexError (msg : string)
  | ZeroDivisionError (msg : string)
  | OverflowError (msg : string).

(** The result of code that may raise one of them; [Cut] is [Unfinished]
    of [res], for code that runs a fuel-bounded loop. *)
Inductive outcome (A : Type) : Type :=
  | Ok (a : A)
  | Err (e : pyerr)
  | Cut.
Arguments Ok {A} a.
Arguments Err {A} e.
Arguments Cut {A}.

Definition of_res {A} (r : res A) : outcome A :=
  match r with
  | Val a => Ok a
  | Exn e => Err (Raised e)
  | Unfinished => Cut
  end.

#[global] Instance outcome_ret : MRet outcome := λ A a, Ok a.

#[global] Instance outcome_bind : MBind outcome := λ A B f m,
  match m with
  | Ok a => f a
  | Err e => Err e
  | Cut => Cut
  end.

(** [d.pop(k, None)], as far as the dictionary goes. *)
Fixpoint dict_pop {A} (k : string) (d : list (string * A)) : list (string * A) :=
  match d with
  | [] => []
  | (k', v') :: d' => if String.eqb k' k then d' else (k', v') :: dict_pop k d'
  end.

(** A value of the configuration that is not a dictionary. *)
Inductive config_leaf : Type :=
  | CInt (z : Z)
  | CBool (b : bool)
  | CStr (s : string).

(** An entry of the model configuration: a plain value or a
    sub-configuration such as ["vision_config"]. *)
Inductive config_value : Type :=
  | Leaf (v : config_leaf)
  | Sub (d : list (string * config_leaf)).

(** The argument [value: Union[int, bool]]. *)
Inductive size_value : Type :=
  | SInt (z : Z)
  | SBool (b : bool).

(** A [bool] counts as 0 or 1 in integer arithmetic. *)
Definition size_int (v : size_value) : Z :=
  match v with
  | SInt z => z
  | SBool b => if b then 1%Z else 0%Z
  end.

Definition size_leaf (v : size_value) : config_leaf :=
  match v with
  | SInt z => CInt z
  | SBool b => CBool b
  end.

(** [type(v).__name__] *)
Definition leaf_type_name (v : config_leaf) : string :=
  match v with
  | CInt _ => "int"
  | CBool _ => "bool"
  | CStr _ => "str"
  end.

(** [a % b] on Python integers. *)
Definition py_mod (a b : Z) : outcome Z :=
  if (b =? 0)%Z then Err (ZeroDivisionError "integer modulo by zero")
  else Ok (a `mod` b)%Z.

(** [a // b] on Python integers. *)
Definition py_floordiv (a b : Z) : outcome Z :=
  if (b =? 0)%Z then Err (ZeroDivisionError "integer division or modulo by zero")
  else Ok (a `div` b)%Z.

(** [_update_vision_config]: the right-hand side is evaluated before
    [config["vision_config"]] is looked up. The dictionary is returned as
    the call leaves it. *)
Definition _update_vision_config (config : list (string * config_value))
    (value : size_value) (divisor : Z) (key : string)
    : outcome (list (string * config_value)) :=
  new ← (if bool_decide (key ∈ ["intermediate_size"; "hidden_size"]) then
           r ← py_mod (size_int value) divisor;
           if bool_decide (r ≠ 0%Z) then
             q ← py_floordiv (size_int value) divisor;
             mret (CInt ((q + 1) * divisor))
           else mret (size_leaf value)
         else mret (size_leaf value));
  match dict_get "vision_config" config with
  | None => Err (KeyError "vision_config")
  | Some (Leaf v) =>
      Err (Raised (TypeError ("'" +:+ leaf_type_name v
                                +:+ "' object does not support item assignment")))
  | Some (Sub vision_config) =>
      mret (dict_set "vision_config" (Sub (dict_set key new vision_config)) config)
  end.

(** The range of a 64-bit integer. *)
Definition is_int64 (z : Z) : bool := ((- 2 ^ 63 <=? z) && (z <? 2 ^ 63))%Z.

(** A Python integer handed to a numpy function such as [np.gcd]: it is
    converted to a 64-bit integer, and one that does not fit is
    refused. *)
Definition np_int64 (z : Z) : outcome Z :=
  if is_int64 z then Ok z
  else Err (OverflowError
              ("Python integer " +:+ pretty z +:+ " out of bounds for int64")).

(** A result computed in 64 bits wraps around. *)
Definition wrap_int64 (z : Z) : Z := ((z + 2 ^ 63) `mod` 2 ^ 64 - 2 ^ 63)%Z.

(** The two factors [resample_audio] hands to [signal.resample_poly].
    [np.gcd] works on 64-bit integers and returns one: the greatest
    common divisor of the absolute values, which wraps to [- 2 ^ 63]
    when it is [2 ^ 63]. The integer [//] of numpy rounds down, and
    gives 0 for a zero divisor, as [Z.div] does. *)
Definition resample_factors (orig_sr target_sr : Z) : outcome (Z * Z) :=
  a ← np_int64 orig_sr;
  b ← np_int64 target_sr;
  let gcd := wrap_int64 (Z.gcd a b) in
  let up := (target_sr `div` gcd)%Z in
  let down := (orig_sr `div` gcd)%Z in
  mret (up, down).

(** [resample_audio], over the resampler of the signal library. *)
Definition resample_audio {audio_t} (resample_poly : audio_t → Z → Z → audio_t)
    (audio : audio_t) (orig_sr target_sr : Z) : outcome audio_t :=
  '(up, down) ← resample_factors orig_sr target_sr;
  mret (resample_poly audio up down).

(** [save_config]: the caller's dictionary as the call leaves it, and the
    items written to [config_path], in the order [json.dump] writes
    them. *)
Definition save_config {A} (config : list (string * A))
    : list (string * A) * list (string * A) :=
  let config := dict_pop "_name_or_path" config in
  let config := dict_pop "torch_dtype" config in
  let written :=
    omap (λ k, (λ v, (k, v)) <$> dict_get k config) (sorted_strings config.*1) in
  (config, written).

(** ** The stopping criteria as objects *)

(** State and the wider exceptions. *)
Definition P (W A : Type) : Type := W → outcome A * W.

#[global] Instance P_ret {W} : MRet (P W) := λ A a w, (Ok a, w).

#[global] Instance P_bind {W} : MBind (P W) := λ A B f m w,
  match m w with
  | (Ok a, w') => f a w'
  | (Err e, w') => (Err e, w')
  | (Cut, w') => (Cut, w')
  end.

Definition throw {W A} (e : pyerr) : P W A := λ w, (Err e, w).
Definition lift_outcome {W A} (r : outcome A) : P W A := λ w, (r, w).
Definition inspect {W A} (f : W → A) : P W A := λ w, (Ok (f w), w).
Definition update {W} (f : W → W) : P W unit := λ w, (Ok (), f w).

(** The list objects of the interpreter that hold token ids, by
    address. Two names for one address are two names for one list. *)
Abbreviation heap := (list (list nat)).

(** A value that stands for token ids: [None], one id, or a reference to
    a list object. *)
Inductive ids_ref : Type :=
  | RNone
  | RInt (i : nat)
  | RList (p : nat).

(** A list display [[i]]: a new list object. *)
Definition alloc (l : list nat) : P heap nat := λ h, (Ok (length h), h ++ [l]).

(** The ids a value stands for, as the value-level embedding reads
    them. *)
Definition read_ids (h : heap) (r : ids_ref) : option ids_arg :=
  match r with
  | RNone => None
  | RInt i => Some (OneId i)
  | RList p => Ids <$> h !! p
  end.

(** [a != b] on such values; lists compare by content. *)
Definition ids_differ (h : heap) (a b : ids_ref) : bool :=
  match a, b with
  | RNone, RNone => false
  | RInt i, RInt j => negb (i =? j)
  | RList p, RList q => bool_decide (h !! p ≠ h !! q)
  | _, _ => true
  end.

(** The tokenizer object, as far as the stopping criteria use it. *)
Record tokenizer_obj : Type := {
  encode : string → list nat;
  t_eos_token_ids : ids_ref
}.

(** A [StoppingCriteria] object: its two attributes. *)
Record criteria_obj : Type := {
  c_eos_token_ids : ids_ref;
  c_tokenizer : option tokenizer_obj
}.

(** [StoppingCriteria.__init__]: a list argument is stored as it is
    given, not copied. *)
Definition StoppingCriteria_init_obj (eos_token_ids : ids_ref)
    (tokenizer : option tokenizer_obj) : P heap criteria_obj :=
  match eos_token_ids with
  | RInt i =>
      p ← alloc [i];
      mret {| c_eos_token_ids := RList p; c_tokenizer := tokenizer |}
  | _ => mret {| c_eos_token_ids := eos_token_ids; c_tokenizer := tokenizer |}
  end.

(** One element of the argument of [add_eos_token_ids]. *)
Inductive token_arg : Type :=
  | TokStr (s : string)
  | TokInt (i : Z).

(** The argument of [add_eos_token_ids]. *)
Inductive eos_tokens_arg : Type :=
  | EosNone
  | EosOne (t : token_arg)
  | EosList (l : list token_arg).

(** The double quote, for the messages of the interpreter. *)
Definition dq : string := String (Ascii.ascii_of_nat 34) EmptyString.

(** [self.tokenizer.encode(" " + token, add_special_tokens=False)[-1]] *)
Definition encode_last (tk : tokenizer_obj) (token : token_arg) : outcome nat :=
  match token with
  | TokStr s =>
      match last (encode tk (" " +:+ s)) with
      | Some i => Ok i
      | None => Err (IndexError "list index out of range")
      end
  | TokInt _ =>
      Err (Raised (TypeError ("can only concatenate str (not " +:+ dq +:+ "int"
                                +:+ dq +:+ ") to str")))
  end.

(** The list comprehension over the tokens, left to right. *)
Fixpoint encode_all (tk : tokenizer_obj) (tokens : list token_arg)
    : outcome (list nat) :=
  match tokens with
  | [] => Ok []
  | token :: tokens =>
      i ← encode_last tk token;
      ids ← encode_all tk tokens;
      mret (i :: ids)
  end.

(** [l.extend(new)] on the object a value refers to. *)
Definition extend (r : ids_ref) (new : list nat) : P heap unit :=
  match r with
  | RList p => update (alter (λ l, l ++ new) p)
  | RInt _ => throw (Raised (AttributeError "'int' object has no attribute 'extend'"))
  | RNone =>
      throw (Raised (AttributeError "'NoneType' object has no attribute 'extend'"))
  end.

(** [StoppingCriteria.add_eos_token_ids] *)
Definition StoppingCriteria_add_eos_token_ids (self : criteria_obj)
    (new_eos_token_ids : eos_tokens_arg) : P heap unit :=
  match new_eos_token_ids with
  | EosNone => mret ()
  | _ =>
      match c_tokenizer self with
      | None => throw (Raised (ValueError "Processor is not provided"))
      | Some tk =>
          tokens ← match new_eos_token_ids with
                   | EosOne (TokStr s) => mret [TokStr s]
                   | EosOne (TokInt _) =>
                       throw (Raised (TypeError "'int' object is not iterable"))
                   | EosList l => mret l
                   | EosNone => mret []
                   end;
          new ← lift_outcome (encode_all tk tokens);
          extend (c_eos_token_ids self) new
      end
  end.

(** [StoppingCriteria.reset]: the object is returned as the call leaves
    it. *)
Definition StoppingCriteria_reset_obj (self : criteria_obj)
    (eos_token_ids : ids_ref) : P heap criteria_obj :=
  eos_token_ids ←
    match eos_token_ids with
    | RNone =>
        match c_tokenizer self with
        | Some tk => mret (t_eos_token_ids tk)
        | None =>
            throw (Raised (AttributeError
              "'NoneType' object has no attribute 'eos_token_ids'"))
        end
    | _ => mret eos_token_ids
    end;
  eos_token_ids ←
    match eos_token_ids with
    | RInt i => (p ← alloc [i]; mret (RList p))
    | _ => mret eos_token_ids
    end;
  differ ← inspect (λ h, ids_differ h (c_eos_token_ids self) eos_token_ids);
  if differ : bool
  then mret {| c_eos_token_ids := eos_token_ids; c_tokenizer := c_tokenizer self |}
  else mret self.

(** [StoppingCriteria.__call__] *)
Definition StoppingCriteria_call_obj (h : heap) (self : criteria_obj)
    (token : nat) : outcome bool :=
  match c_eos_token_ids self with
  | RList p => Ok (bool_decide (token ∈ default [] (h !! p)))
  | RInt _ => Err (Raised (TypeError "argument of type 'int' is not iterable"))
  | RNone => Err (Raised (TypeError "argument of type 'NoneType' is not iterable"))
  end.

(** The part of [load_processor] that creates the stopping criteria
    from the ids it is given and the tokenizer. *)
Definition load_stopping_criteria (eos_token_ids : ids_ref)
    (tokenizer_obj : tokenizer_obj) : P heap criteria_obj :=
  let final_eos_token_ids :=
    match eos_token_ids with
    | RNone => t_eos_token_ids tokenizer_obj
    | _ => eos_token_ids
    end in
  StoppingCriteria_init_obj final_eos_token_ids (Some tokenizer_obj).

(** What the attribute [tokenizer.stopping_criteria] holds: the object
    [load_processor] made, or whatever callable a caller of [generate]
    put there. *)
Inductive criteria_slot : Type :=
  | SlotCriteria (c : criteria_obj)
  | SlotCallable (f : nat → bool).

(** The keyword argument [stopping_criteria] of [generate]. *)
Inductive criteria_arg : Type :=
  | ArgNone
  | ArgCriteria (c : criteria_obj)
  | ArgCallable (f : nat → bool)
  | ArgOther.

(** The lines of [generate] that choose the stopping criteria, on the
    list objects and the attribute [tokenizer.stopping_criteria];
    [config_eos_token_id] is [model.config.eos_token_id]. *)
Definition choose_stopping_criteria (config_eos_token_id : ids_ref)
    (eos_tokens : eos_tokens_arg) (stopping_criteria : criteria_arg)
    (slot : criteria_slot) : P heap criteria_slot :=
  match eos_tokens with
  | EosNone =>
      match stopping_criteria with
      | ArgNone =>
          match slot with
          | SlotCriteria c =>
              c ← StoppingCriteria_reset_obj c config_eos_token_id;
              mret (SlotCriteria c)
          | SlotCallable _ =>
              throw (Raised (AttributeError
                "'function' object has no attribute 'reset'"))
          end
      | ArgCriteria c => mret (SlotCriteria c)
      | ArgCallable f => mret (SlotCallable f)
      | ArgOther =>
          throw (Raised (ValueError
            "stopping_criteria must be an instance of StoppingCriteria or a callable"))
      end
  | _ =>
      match slot with
      | SlotCriteria c =>
          _ ← StoppingCriteria_add_eos_token_ids c eos_tokens;
          mret slot
      | SlotCallable _ =>
          throw (Raised (AttributeError
            "'function' object has no attribute 'add_eos_token_ids'"))
      end
  end.

(** [tokenizer.stopping_criteria(token)] *)
Definition slot_call (h : heap) (slot : criteria_slot) (token : nat)
    : outcome bool :=
  match slot with
  | SlotCriteria c => StoppingCriteria_call_obj h c token
  | SlotCallable f => Ok (f token)
  end.

(** The value-level reading of the objects: the criteria of the
    embedding above that an object stands for in a heap. *)
Definition read_tokenizer (h : heap) (tk : tokenizer_obj) : option tokenizer_t :=
  (λ ids, {| tk_eos_token_ids := ids |}) <$> read_ids h (t_eos_token_ids tk).

Definition read_criteria (h : heap) (c : criteria_obj) : option StoppingCriteria :=
  match c_eos_token_ids c with
  | RList p =>
      ids ← h !! p;
      tk ← match c_tokenizer c with
           | Some tk => Some <$> read_tokenizer h tk
           | None => Some None
           end;
      Some {| eos_token_ids := ids; tokenizer := tk |}
  | _ => None
  end.

Arguments read_criteria : simpl never.
Arguments StoppingCriteria_call_obj : simpl never.

(** ** generate *)

(** [image], [audio] and the keyword [video]: [None], one path, or a
    list of paths. *)
Inductive media_arg : Type :=
  | MediaNone
  | MediaOne (path : string)
  | MediaList (paths : list string).

(** [list(s)] for a string: its characters. *)
Fixpoint chars (s : string) : list string :=
  match s with
  | EmptyString => []
  | String c s' => String c EmptyString :: chars s'
  end.

(** [if m is not None: files.extend(m)]; extending by a string appends
    its characters. *)
Definition extend_files (files : list string) (m : media_arg) : list string :=
  match m with
  | MediaNone => files
  | MediaOne path => files ++ chars path
  | MediaList paths => files ++ paths
  end.

(** The [print] calls of [generate] and the one of [wired_limit], by the
    statement that prints and the data it shows. *)
Inductive printed (V : Type) : Type :=
  | PrWiredLimit (model_mb max_rec_mb : Z)
  | PrRule
  | PrFiles (files : list string)
  | PrPrompt (prompt : string)
  | PrText (s : string)
  | PrEndRule
  | PrNoText
  | PrPromptStats (tokens : nat) (tps : V)
  | PrGenerationStats (tokens : nat) (tps : V)
  | PrPeakMemory (gb : V).
Arguments PrWiredLimit {V} model_mb max_rec_mb.
Arguments PrRule {V}.
Arguments PrFiles {V} files.
Arguments PrPrompt {V} prompt.
Arguments PrText {V} s.
Arguments PrEndRule {V}.
Arguments PrNoText {V}.
Arguments PrPromptStats {V} tokens tps.
Arguments PrGenerationStats {V} tokens tps.
Arguments PrPeakMemory {V} gb.

(** The dictionary [usage_stats]. *)
Record usage_stats (V : Type) : Type := {
  input_tokens : nat;
  output_tokens : nat;
  total_tokens : nat;
  usage_prompt_tps : V;
  usage_generation_tps : V;
  usage_peak_memory : V
}.
Arguments input_tokens {V} _.
Arguments output_tokens {V} _.
Arguments total_tokens {V} _.
Arguments usage_prompt_tps {V} _.
Arguments usage_generation_tps {V} _.
Arguments usage_peak_memory {V} _.

(** What [wired_limit] reads of the model and of the device: the bytes
    of the arrays of the model, the entry
    ["max_recommended_working_set_size"] of the device information, and
    [near_limit], the outcome of the test
    [model_bytes > 0.9 * max_rec_size], which compares an integer with a
    floating-point product. *)
Record wired_t : Type := {
  model_bytes : Z;
  max_rec_size : Z;
  near_limit : bool
}.

(** What a call of [generate] reads and writes: the engine's state, the
    list objects, the attribute [tokenizer.stopping_criteria] and the
    standard output. *)
Record session (V : Type) `{Runtime V} : Type := {
  s_world : world V;
  s_heap : heap;
  s_stopping_criteria : criteria_slot;
  s_stdout : list (printed V)
}.
Arguments s_world {V _} _.
Arguments s_heap {V _} _.
Arguments s_stopping_criteria {V _} _.
Arguments s_stdout {V _} _.

Section Generate.
Context {V : Type} `{!Scalar V} `{!Runtime V}.

Definition say (p : printed V) : P (session V) unit :=
  update (λ s, {| s_world := s_world s; s_heap := s_heap s;
                  s_stopping_criteria := s_stopping_criteria s;
                  s_stdout := s_stdout s ++ [p] |}).

(** The line [wired_limit] prints for a model close to the limit. *)
Definition wired_limit_warning (wl : wired_t) : option (printed V) :=
  if near_limit wl then
    let model_mb := (model_bytes wl `div` 2 ^ 20)%Z in
    let max_rec_mb := (max_rec_size wl `div` 2 ^ 20)%Z in
    Some (PrWiredLimit model_mb max_rec_mb)
  else None.

(** Entering [with wired_limit(model, [generation_stream])]: the
    warning does not depend on [verbose]. Setting the wired limit, and
    synchronizing and restoring it when the block is left, print
    nothing. *)
Definition wired_limit_enter (wl : wired_t) : P (session V) unit :=
  match wired_limit_warning wl with
  | Some warning => say warning
  | None => mret ()
  end.

(** The session when the stopping criteria cannot be called on a token,
    as with an object whose [eos_token_ids] is not a list: the first
    test raises [e]. *)
Definition stream_generate_untested (args : gen_args V) (detokenizer : detok_t)
    (e : exn) : M (world V) unit :=
  let d := detok_reset detokenizer in
  tic ← tick;
  out ← gen_next args GenCreated;
  match out with
  | GenYield token logprobs g =>
      now ← tick;
      tic ← tick;
      raise e
  | GenStop =>
      _ ← log_session EvFinalize;
      raise (UnboundLocalError "token")
  end.

(** The test [tokenizer.stopping_criteria(token)] as a function of the
    token, or the exception every such test raises. *)
Definition stopping_function (h : heap) (slot : criteria_slot)
    : (nat → bool) + exn :=
  match slot with
  | SlotCallable f => inl f
  | SlotCriteria c =>
      match c_eos_token_ids c with
      | RList p => inl (λ token, bool_decide (token ∈ default [] (h !! p)))
      | RInt _ => inr (TypeError "argument of type 'int' is not iterable")
      | RNone => inr (TypeError "argument of type 'NoneType' is not iterable")
      end
  end.

(** The lines of [generate] that choose the stopping criteria. *)
Definition generate_criteria (config_eos_token_id : ids_ref)
    (eos_tokens : eos_tokens_arg) (stopping_criteria : criteria_arg)
    : P (session V) unit :=
  λ s,
    match choose_stopping_criteria config_eos_token_id eos_tokens
            stopping_criteria (s_stopping_criteria s) (s_heap s) with
    | (Ok slot, h) =>
        (Ok (), {| s_world := s_world s; s_heap := h;
                   s_stopping_criteria := slot; s_stdout := s_stdout s |})
    | (Err e, h) =>
        (Err e, {| s_world := s_world s; s_heap := h;
                   s_stopping_criteria := s_stopping_criteria s;
                   s_stdout := s_stdout s |})
    | (Cut, h) =>
        (Cut, {| s_world := s_world s; s_heap := h;
                 s_stopping_criteria := s_stopping_criteria s;
                 s_stdout := s_stdout s |})
    end.

(** The block of [stream_generate] under [wired_limit], run to its end:
    the records it yields, in order, and how it ends. *)
Definition stream_block (fuel : nat) (args : gen_args V)
    (skip_special_token_ids : list nat) (detokenizer : detok_t)
    : P (session V) (list (GenerationResult V) * res unit) :=
  λ s,
    let w := s_world s in
    let '(r, w') :=
      match stopping_function (s_heap s) (s_stopping_criteria s) with
      | inl f => stream_generate fuel args f skip_special_token_ids detokenizer w
      | inr e => stream_generate_untested args detokenizer e w
      end in
    (Ok (drop (length (yielded (w_trace w))) (yielded (w_trace w')), r),
     {| s_world := w'; s_heap := s_heap s;
        s_stopping_criteria := s_stopping_criteria s; s_stdout := s_stdout s |}).

(** The call [stream_generate(model, processor, prompt, ...)] run to its
    end, for keyword arguments that hold the prepared [input_ids], so
    that the head of the function prepares nothing and prints nothing. *)
Definition run_stream (fuel : nat) (args : gen_args V) (wl : wired_t)
    (skip_special_token_ids : list nat) (detokenizer : detok_t)
    : P (session V) (list (GenerationResult V) * res unit) :=
  _ ← wired_limit_enter wl;
  stream_block fuel args skip_special_token_ids detokenizer.

(** The body of [for response in stream_generate(...)], over the records
    the generator yields before it ends; [so_far] is the variable
    [text]. *)
Fixpoint consume (verbose : bool) (responses : list (GenerationResult V))
    (so_far : string) (last_response : option (GenerationResult V))
    : P (session V) (string * option (GenerationResult V)) :=
  match responses with
  | [] => mret (so_far, last_response)
  | response :: responses =>
      _ ← (if verbose then say (PrText (text response)) else mret ());
      consume verbose responses (so_far +:+ text response) (Some response)
  end.

(** Reading an attribute of [last_response]. *)
Definition attribute {A} (name : string) (last_response : option (GenerationResult V))
    (field : GenerationResult V → A) : P (session V) A :=
  match last_response with
  | Some r => mret (field r)
  | None =>
      throw (Raised (AttributeError
        ("'NoneType' object has no attribute '" +:+ name +:+ "'")))
  end.

(** [generate], called with the prepared inputs of the stream among
    its keyword arguments; the result is [None] where the source returns
    nothing. *)
Definition generate (fuel : nat) (config_eos_token_id : ids_ref)
    (args : gen_args V) (wl : wired_t) (skip_special_token_ids : list nat)
    (detokenizer : detok_t) (prompt : string) (image audio video : media_arg)
    (verbose : bool) (eos_tokens : eos_tokens_arg)
    (stopping_criteria : criteria_arg)
    : P (session V) (option (string * usage_stats V)) :=
  _ ← (if verbose then
         _ ← say PrRule;
         let files := extend_files (extend_files (extend_files [] image) audio) video in
         _ ← say (PrFiles files);
         say (PrPrompt prompt)
       else mret ());
  _ ← generate_criteria config_eos_token_id eos_tokens stopping_criteria;
  '(responses, r) ← run_stream fuel args wl skip_special_token_ids detokenizer;
  '(text, last_response) ← consume verbose responses EmptyString None;
  _ ← lift_outcome (of_res r);
  if verbose && (String.length text =? 0) then
    _ ← say PrEndRule;
    _ ← say PrNoText;
    mret None
  else
    _ ← (if verbose then
           _ ← say PrEndRule;
           tokens ← attribute "prompt_tokens" last_response prompt_tokens;
           tps ← attribute "prompt_tps" last_response prompt_tps;
           _ ← say (PrPromptStats tokens tps);
           tokens ← attribute "generation_tokens" last_response generation_tokens;
           tps ← attribute "generation_tps" last_response generation_tps;
           _ ← say (PrGenerationStats tokens tps);
           gb ← attribute "peak_memory" last_response peak_memory;
           say (PrPeakMemory gb)
         else mret ());
    input ← attribute "prompt_tokens" last_response prompt_tokens;
    output ← attribute "generation_tokens" last_response generation_tokens;
    input' ← attribute "prompt_tokens" last_response prompt_tokens;
    output' ← attribute "generation_tokens" last_response generation_tokens;
    prompt_tps ← attribute "prompt_tps" last_response prompt_tps;
    generation_tps ← attribute "generation_tps" last_response generation_tps;
    peak ← attribute "peak_memory" last_response peak_memory;
    mret (Some (text, {| input_tokens := input;
                         output_tokens := output;
                         total_tokens := input' + output';
                         usage_prompt_tps := prompt_tps;
                         usage_generation_tps := generation_tps;
                         usage_peak_memory := peak |})).

End Generate.

(** [text] after the loop of [generate] over the given records. *)
Definition joined_text {V} (responses : list (GenerationResult V)) : string :=
  foldl (λ so_far response, so_far +:+ text response) EmptyString responses.

(** The lines [generate] prints itself; the warning of [wired_limit],
    printed by the stream, is not one of them. *)
Definition own_line {V} (p : printed V) : bool :=
  match p with
  | PrWiredLimit _ _ => false
  | _ => true
  end.

(** The lines of an output that [generate] did not print itself. *)
Definition other_lines {V} (out : list (printed V)) : list (printed V) :=
  filter (λ p, own_line p = false) out.
Arguments other_lines : simpl never.

(** Two sessions that differ at most in the lines [generate] itself
    printed: the same engine state, list objects and stopping criteria,
    and the same lines of other origin on the standard output. *)
Definition same_engine {V} `{Runtime V} (s1 s2 : session V) : Prop :=
  s_world s1 = s_world s2 ∧ s_heap s1 = s_heap s2
  ∧ s_stopping_criteria s1 = s_stopping_criteria s2
  ∧ other_lines (s_stdout s1) = other_lines (s_stdout s2).

(** Two pieces of code that, run from sessions with the same engine
    state, leave sessions with the same engine state and give results
    related by [Q]. *)
Definition sim {V} `{Runtime V} {A B} (Q : outcome A → outcome B → Prop)
    (m1 : P (session V) A) (m2 : P (session V) B) : Prop :=
  ∀ s1 s2, same_engine s1 s2 →
    Q (m1 s1).1 (m2 s2).1 ∧ same_engine (m1 s1).2 (m2 s2).2.

(** Code that only prints lines of [generate]. *)
Definition prints {V} `{Runtime V} (m : P (session V) unit) : Prop :=
  ∀ s, (m s).1 = Ok () ∧ same_engine (m s).2 s.

(** Code that prints nothing. *)
Definition silent {V} `{Runtime V} {A} (m : P (session V) A) : Prop :=
  ∀ s, s_stdout (m s).2 = s_stdout s.

(** What [verbose=True] makes of the result of the same call with
    [verbose=False]. *)
Definition verbose_result {V}
    (quiet : outcome (option (string * usage_stats V)))
    : outcome (option (string * usage_stats V)) :=
  match quiet with
  | Ok (Some (txt, _)) => if String.length txt =? 0 then Ok None else quiet
  | _ => quiet
  end.

(** A configuration, a tokenizer and a session for the examples. The
    tokenizer encodes a string as its length; the model's list of stop
    ids is the list object at address 0. *)
Definition example_config : list (string * config_value) :=
  [("model_type", Leaf (CStr "llava"));
   ("vision_config", Sub [("hidden_size", CInt 1024)]);
   ("torch_dtype", Leaf (CStr "float16"))].

Definition example_tokenizer : tokenizer_obj :=
  {| encode := λ s, [String.length s]; t_eos_token_ids := RInt 9 |}.

Definition example_criteria : criteria_obj :=
  {| c_eos_token_ids := RList 0; c_tokenizer := Some example_tokenizer |}.

Definition example_session : session Q :=
  {| s_world := Toy.world0; s_heap := [[4]];
     s_stopping_criteria := SlotCriteria example_criteria; s_stdout := [] |}.

(** A model of 15 GiB on a device that recommends 16 GiB at most. *)
Definition example_wired : wired_t :=
  {| model_bytes := 15 * 2 ^ 30; max_rec_size := 16 * 2 ^ 30; near_limit := true |}.

(** ** Forward passes *)

(** The number of single-token passes in a device log. *)
Definition decode_passes (log : list device_event) : nat :=
  length (omap (λ e, match e with EvDecode => Some () | _ => None end) log).

(** The number of prompt passes in a device log. *)
Definition prompt_passes (log : list device_event) : nat :=
  length (omap (λ e, match e with EvPrefill => Some () | _ => None end) log).

(** The contexts of the penalty applications in a device log, in
    order. *)
Definition penalty_contexts (log : list device_event) : list (list nat) :=
  omap (λ e, match e with EvPenalty context => Some context | _ => None end) log.

(** Following the documentation of [repetition_context_size], "the
    number of tokens to consider for repetition penalty": the last
    [size] tokens of a context, and the whole context when no size, or
    the size 0, is given. It is written with [drop], without the slices
    of [initial_context] and [trim_context], for sizes that are not
    negative. *)
Definition last_window (size : option Z) (context : list nat) : list nat :=
  match size with
  | Some k =>
      if (0 <? k)%Z then drop (length context - Z.to_nat k) context else context
  | None => context
  end.

(** ** prepare_inputs *)

(** [s.split(sep)] for a non-empty [sep], scanning [s] from the left:
    [cur] is the piece being read, [skip] the number of characters of a
    separator just found that are still to be passed over. *)
Fixpoint split_go (sep : string) (skip : nat) (cur : string) (s : string)
    : list string :=
  match s with
  | EmptyString => [cur]
  | String c s' =>
      match skip with
      | S skip => split_go sep skip cur s'
      | 0 =>
          if String.prefix sep s
          then cur :: split_go sep (String.length sep - 1) EmptyString s'
          else split_go sep 0 (cur +:+ String c EmptyString) s'
      end
  end.

Definition py_split (sep s : string) : list string :=
  split_go sep 0 EmptyString s.

(** The argument [prompts]: one prompt or a list of prompts. *)
Inductive prompts_arg : Type :=
  | OnePrompt (prompt : string)
  | Prompts (prompts : list string).

Section PrepareInputs.
Context {image_t pixel_t : Type}.

(** A processor with a [BaseImageProcessor]: its tokenizer call
    [processor(chunk).input_ids], the id of its end-of-sequence token,
    which is the padding token once [pad_token = eos_token] is set, and
    [image_processor.preprocess]. *)
Record image_text_processor : Type := {
  tokenize : string → list nat;
  eos_token_id : nat;
  preprocess : option (list image_t) → pixel_t
}.

(** The entries of [model_inputs] on this path. *)
Record model_inputs : Type := {
  mi_input_ids : list (list nat);
  mi_pixel_values : pixel_t;
  mi_attention_mask : list (list Z)
}.

(** [max(xs)] *)
Definition py_max (xs : list nat) : outcome nat :=
  match xs with
  | [] => Err (Raised (ValueError "max() arg is an empty sequence"))
  | x :: xs => Ok (foldl Nat.max x xs)
  end.

(** [l[i]] *)
Definition py_index {A} (l : list A) (i : nat) : outcome A :=
  match l !! i with
  | Some a => Ok a
  | None => Err (IndexError "list index out of range")
  end.

(** One turn of the loop [for chunks in text_chunks]. *)
Definition pad_row (image_token_index pad_token_id max_length : nat)
    (chunks : list (list nat)) : outcome (list nat) :=
  first ← py_index chunks 0;
  second ← py_index chunks 1;
  let ids := first ++ [image_token_index] ++ second in
  let padding := replicate (max_length - length ids) pad_token_id in
  mret (ids ++ padding).

(** The loop, left to right. *)
Fixpoint pad_rows (image_token_index pad_token_id max_length : nat)
    (text_chunks : list (list (list nat))) : outcome (list (list nat)) :=
  match text_chunks with
  | [] => Ok []
  | chunks :: text_chunks =>
      row ← pad_row image_token_index pad_token_id max_length chunks;
      rows ← pad_rows image_token_index pad_token_id max_length text_chunks;
      mret (row :: rows)
  end.

(** The branch of [prepare_inputs] for a processor whose
    [image_processor] is a [BaseImageProcessor], from the images as
    loaded and with no audio. *)
Definition prepare_inputs_image (processor : image_text_processor)
    (images : option (list image_t)) (prompts : prompts_arg)
    (image_token_index : nat) : outcome model_inputs :=
  let prompts :=
    match prompts with
    | OnePrompt prompt => [prompt]
    | Prompts prompts => prompts
    end in
  let pad_token_id := eos_token_id processor in
  let text_chunks :=
    (λ prompt, tokenize processor <$> py_split "<image>" prompt) <$> prompts in
  max_length ←
    py_max ((λ chunks, sum_list (length <$> chunks) + 1) <$> text_chunks);
  input_ids ← pad_rows image_token_index pad_token_id max_length text_chunks;
  let pixel_values := preprocess processor images in
  mret {| mi_input_ids := input_ids;
          mi_pixel_values := pixel_values;
          mi_attention_mask :=
            (λ ids : list nat,
               (λ id, if bool_decide (id ≠ pad_token_id) then 1%Z else 0%Z) <$> ids)
              <$> input_ids |}.

End PrepareInputs.

Arguments image_text_processor : clear implicits.
Arguments model_inputs : clear implicits.

(** A processor for the examples of [prepare_inputs]: a chunk is encoded
    as the lengths of its words, and token 0 ends a sequence. *)
Definition example_image_processor : image_text_processor unit nat :=
  {| tokenize := λ chunk, String.length <$> py_split " " chunk;
     eos_token_id := 0;
     preprocess := λ images, length (default [] images) |}.

(** * Properties *)

(** ** The rationals satisfy the scalar laws *)

#[global] Instance Q_scalar_unit : ScalarUnit Q.
Proof.
  split; intros [n d]; cbn.
  - unfold Qmult; cbn. by rewrite Z.mul_1_r, Pos.mul_1_r.
  - unfold Qdiv, Qmult; cbn. by rewrite Z.mul_1_r, Pos.mul_1_r.
Qed.

Lemma Q_ltb_lt (x y : Q) : Q_ltb x y = true ↔ (x < y)%Q.
Proof.
  unfold Q_ltb. rewrite negb_true_iff. split.
  - intros Hle. apply Qnot_le_lt. intros Hyx.
    apply Qle_bool_iff in Hyx. congruence.
  - intros Hlt. destruct (Qle_bool y x) eqn:Hle; [|done].
    apply Qle_bool_iff in Hle. exfalso. by apply (Qlt_not_le x y).
Qed.

#[global] Instance Q_scalar_order : ScalarOrder Q.
Proof.
  split; cbn.
  - intros x. destruct (Q_ltb x x) eqn:Hx; [|done].
    apply Q_ltb_lt in Hx. exfalso. by apply (Qlt_irrefl x).
  - intros x y z Hxy Hyz. apply Q_ltb_lt. apply Q_ltb_lt in Hxy, Hyz.
    by apply Qlt_trans with y.
  - intros x y z Hxz. apply Q_ltb_lt in Hxz.
    destruct (Qlt_le_dec x y) as [Hxy|Hyx].
    + left. by apply Q_ltb_lt.
    + right. apply Q_ltb_lt. by apply Qle_lt_trans with x.
Qed.

Section Properties.
Context {V : Type} `{!Scalar V} `{!Runtime V}.

(** ** apply_repetition_penalty *)

Lemma bool_decide_if_app_ne {A} (j i : nat) (l : list nat) (a b : A) :
  j ≠ i →
  (if bool_decide (j ∈ l) then a else b)
  = (if bool_decide (j ∈ l ++ [i]) then a else b).
Proof.
  intros Hne. destruct (decide (j ∈ l)) as [Hin|Hout].
  - rewrite !bool_decide_eq_true_2; [done| |done].
    apply elem_of_app. by left.
  - rewrite !bool_decide_eq_false_2; [done| |done].
    rewrite elem_of_app, list_elem_of_singleton. tauto.
Qed.

Lemma put_cols_length (row : list V) indices vals :
  length (put_cols row indices vals) = length row.
Proof.
  unfold put_cols. generalize (zip indices vals) as ivs.
  intros ivs. revert row.
  induction ivs as [|[i [v|]] ivs IH]; intros row; cbn; [done| |].
  - by rewrite IH, length_insert.
  - by rewrite IH.
Qed.

(** Writing back, at the gathered columns, a function of what was read
    there changes exactly those columns. *)
Lemma put_cols_lookup (f : V → V) (row : list V) (indices : list nat) (j : nat) :
  put_cols row indices ((λ o : option V, f <$> o) <$> take_cols row indices) !! j
  = (λ x, if bool_decide (j ∈ indices) then f x else x) <$> row !! j.
Proof.
  induction indices as [|i indices IH] using rev_ind.
  - cbn. by destruct (row !! j).
  - unfold put_cols, take_cols in *. rewrite !fmap_app. cbn.
    rewrite zip_with_app by (by rewrite !length_fmap).
    rewrite foldl_app. cbn.
    set (acc := foldl _ row _) in *.
    assert (Hlen : length acc = length row).
    { subst acc.
      apply (put_cols_length row indices
               ((λ o : option V, f <$> o) <$> ((λ i, row !! i) <$> indices))). }
    destruct (row !! i) as [x|] eqn:Hi; cbn.
    + destruct (decide (j = i)) as [->|Hne].
      * rewrite list_lookup_insert_eq
          by (rewrite Hlen; by eapply lookup_lt_Some).
        rewrite Hi. cbn. rewrite bool_decide_eq_true_2; [done|].
        apply elem_of_app. right. apply list_elem_of_singleton. done.
      * rewrite list_lookup_insert_ne by done. rewrite IH.
        destruct (row !! j); [cbn|done]. f_equal.
        apply bool_decide_if_app_ne; done.
    + rewrite IH. destruct (row !! j) as [y|] eqn:Hj; [cbn|done].
      f_equal. apply bool_decide_if_app_ne. congruence.
Qed.

Lemma apply_repetition_penalty_rows (logits : list (list V)) (context : list nat)
    (p : V) :
  apply_repetition_penalty logits context p
  = (λ row, imap (λ j x, if bool_decide (j ∈ context)
                         then where_penalty p x else x) row) <$> logits.
Proof.
  unfold apply_repetition_penalty. case_bool_decide as Hlen.
  - apply list_fmap_ext. intros _ row _. cbn. apply list_eq. intros j.
    by rewrite put_cols_lookup, list_lookup_imap.
  - destruct context; [|cbn in Hlen; lia].
    rewrite <- (list_fmap_id logits) at 1.
    apply list_fmap_ext. intros _ row _. cbn. apply list_eq. intros j.
    rewrite list_lookup_imap. destruct (row !! j); [cbn|done]. f_equal.
Qed.

(** C6. For every logits array, every context of token ids and every
    penalty [p], [apply_repetition_penalty] changes exactly the logits of
    the token ids that occur in the context: a negative logit is
    multiplied by [p], any other is divided by [p]; every other logit is
    unchanged. With an empty context the logits come back unchanged. *)
Theorem apply_repetition_penalty_scales (logits : list (list V))
    (context : list nat) (p : V) :
  apply_repetition_penalty logits context p
  = (λ row, imap (λ j x, if bool_decide (j ∈ context)
                         then (if s_ltb x s_zero then s_mul x p else s_div x p)
                         else x) row) <$> logits
  ∧ apply_repetition_penalty logits [] p = logits.
Proof.
  split; [apply apply_repetition_penalty_rows|done].
Qed.

Lemma apply_repetition_penalty_one_id `{!ScalarUnit V} (logits : list (list V))
    (context : list nat) :
  apply_repetition_penalty logits context s_one = logits.
Proof.
  rewrite apply_repetition_penalty_rows.
  rewrite <- (list_fmap_id logits) at 2.
  apply list_fmap_ext. intros _ row _. cbn. apply list_eq. intros j.
  rewrite list_lookup_imap. destruct (row !! j) as [x|]; [cbn|done].
  f_equal. unfold where_penalty.
  rewrite s_mul_one, s_div_one. by repeat case_match.
Qed.

(** C7. With penalty [1] and a non-empty context,
    [apply_repetition_penalty] returns the logits it was given. *)
Theorem apply_repetition_penalty_one `{!ScalarUnit V} (logits : list (list V))
    (context : list nat) :
  context ≠ [] →
  apply_repetition_penalty logits context s_one = logits.
Proof. intros _. apply apply_repetition_penalty_one_id. Qed.

(** ** sample *)

Lemma argmax_from_first_max `{!ScalarOrder V} (l p : list V) (bi : nat) (b : V) :
  p !! bi = Some b →
  (∀ j y, p !! j = Some y → s_ltb b y = false) →
  (∀ j y, j < bi → p !! j = Some y → s_ltb y b = true) →
  first_max (p ++ l) (argmax_from bi b (length p) l).
Proof.
  revert p bi b. induction l as [|x l IH]; intros p bi b Hb Hmax Hfirst.
  - cbn. rewrite app_nil_r. by exists b.
  - cbn. replace (p ++ x :: l) with ((p ++ [x]) ++ l) by by rewrite <- app_assoc.
    replace (S (length p)) with (length (p ++ [x]))
      by (rewrite length_app; cbn; lia).
    destruct (s_ltb b x) eqn:Hbx.
    + apply IH.
      * by rewrite lookup_app_r, Nat.sub_diag.
      * intros j y Hj. apply lookup_app_Some in Hj as [Hj|[_ Hj]].
        -- destruct (s_ltb x y) eqn:Hxy; [|done].
           rewrite <- (Hmax j y Hj). symmetry. by apply s_ltb_trans with x.
        -- apply list_lookup_singleton_Some in Hj as [_ <-]. apply s_ltb_irrefl.
      * intros j y Hlt Hj. rewrite lookup_app_l in Hj by done.
        destruct (s_ltb_cotrans b y x Hbx) as [Hby|Hyx]; [|done].
        rewrite (Hmax j y Hj) in Hby. done.
    + apply IH.
      * rewrite lookup_app_l; [done|]. by eapply lookup_lt_Some.
      * intros j y Hj. apply lookup_app_Some in Hj as [Hj|[_ Hj]].
        -- by eapply Hmax.
        -- by apply list_lookup_singleton_Some in Hj as [_ <-].
      * intros j y Hlt Hj. apply (Hfirst j y Hlt).
        rewrite lookup_app_l in Hj; [done|].
        apply lookup_lt_Some in Hb. lia.
Qed.

Lemma argmax_first_max `{!ScalarOrder V} (row : list V) :
  row ≠ [] → ∃ i, argmax row = Some i ∧ first_max row i.
Proof.
  destruct row as [|x row]; [done|]. intros _. eexists. split; [done|].
  apply (argmax_from_first_max row [x] 0 x).
  - done.
  - intros j y Hj. apply list_lookup_singleton_Some in Hj as [_ <-].
    apply s_ltb_irrefl.
  - intros j y Hlt. lia.
Qed.

Lemma argmax_rows_first_max `{!ScalarOrder V} (logits : list (list V)) :
  Forall (λ row, row ≠ []) logits →
  ∃ tokens, argmax_rows logits = Val tokens ∧ Forall2 first_max logits tokens.
Proof.
  induction 1 as [|row logits Hrow _ (tokens & Htokens & IH)].
  - by exists [].
  - destruct (argmax_first_max row Hrow) as (i & Hi & Hmax).
    exists (i :: tokens). cbn. rewrite Hi, Htokens. cbn. split; [done|].
    by constructor.
Qed.

Lemma biased_logits_rows (args : gen_args V) (logits : list (list V)) :
  Forall (λ row, row ≠ []) logits →
  Forall (λ row, row ≠ []) (biased_logits args logits).
Proof.
  unfold biased_logits, add_bias. destruct (dict_truthy _); [|done].
  intros Hrows. apply Forall_fmap. eapply Forall_impl; [done|].
  intros row Hrow. cbn. intros Hnil. apply Hrow.
  apply (f_equal length) in Hnil. rewrite put_cols_length in Hnil.
  by destruct row.
Qed.

Lemma bias_of_None (bias : list (nat * V)) (j : nat) :
  j ∉ bias.*1 → bias_of bias j = None.
Proof.
  induction bias as [|[i v] bias IH]; [done|]. cbn.
  rewrite not_elem_of_cons. intros [Hne Hout].
  rewrite bool_decide_eq_false_2 by done. by apply IH.
Qed.

Lemma bias_of_app (a b : list (nat * V)) (j : nat) :
  bias_of (a ++ b) j
  = match bias_of a j with Some v => Some v | None => bias_of b j end.
Proof.
  induction a as [|[i v] a IH]; [done|]. cbn. by case_bool_decide.
Qed.

(** [logits[:, indices] += values] for the keys and values of a
    dictionary adds to each listed column its own value, and leaves the
    other columns alone. *)
Lemma add_bias_lookup (bias : list (nat * V)) (row : list V) (j : nat) :
  NoDup bias.*1 →
  put_cols row bias.*1
    (zip_with (λ o v, (λ x, s_add x v) <$> o) (take_cols row bias.*1) bias.*2) !! j
  = bias_adjusted (Some bias) row j.
Proof.
  unfold bias_adjusted. cbn [default].
  induction bias as [|[i v] bias IH] using rev_ind; intros Hdup.
  - cbn. by destruct (row !! j).
  - rewrite fmap_app in Hdup. apply NoDup_app in Hdup as (Hdup & Hfresh & _).
    assert (i ∉ bias.*1) as Hi.
    { intros Hin. apply (Hfresh i Hin). cbn. apply list_elem_of_here. }
    specialize (IH Hdup).
    unfold put_cols, take_cols in *. rewrite !fmap_app. cbn.
    rewrite zip_with_app by (by rewrite !length_fmap).
    rewrite zip_with_app by (by rewrite length_zip_with, !length_fmap, Nat.min_id).
    rewrite foldl_app. cbn.
    set (acc := foldl _ row _) in *.
    assert (Hlen : length acc = length row).
    { subst acc.
      apply (put_cols_length row bias.*1
               (zip_with (λ o v, (λ x, s_add x v) <$> o)
                  ((λ i, row !! i) <$> bias.*1) bias.*2)). }
    rewrite bias_of_app. cbn.
    destruct (row !! i) as [x|] eqn:Hrow; cbn.
    + destruct (decide (j = i)) as [->|Hne].
      * rewrite list_lookup_insert_eq
          by (rewrite Hlen; by eapply lookup_lt_Some).
        rewrite Hrow. cbn. rewrite (bias_of_None bias i Hi).
        by rewrite bool_decide_eq_true_2.
      * rewrite list_lookup_insert_ne by done. rewrite IH.
        rewrite (bool_decide_eq_false_2 (i = j)) by done.
        destruct (row !! j); [cbn|done]. by destruct (bias_of bias j).
    + rewrite IH. destruct (row !! j) as [y|] eqn:Hj; [cbn|done].
      rewrite (bool_decide_eq_false_2 (i = j)) by congruence.
      by destruct (bias_of bias j).
Qed.

(** What [sample] maximises: column by column, the rows after
    [if logit_bias: ...] hold the bias-adjusted logits. *)
Lemma biased_logits_adjusted (args : gen_args V) (logits : list (list V)) :
  NoDup (default [] (logit_bias args)).*1 →
  ∃ g : list V → list V,
    biased_logits args logits = g <$> logits
    ∧ ∀ row j, g row !! j = bias_adjusted (logit_bias args) row j.
Proof.
  intros Hdup. unfold biased_logits.
  destruct (logit_bias args) as [[|kv bias]|] eqn:Hbias; cbn [dict_truthy default] in *.
  - exists id. split; [by rewrite list_fmap_id|].
    intros row j. unfold bias_adjusted. cbn. by destruct (row !! j).
  - eexists. split; [reflexivity|]. intros row j. cbn beta.
    by apply (add_bias_lookup (kv :: bias)).
  - exists id. split; [by rewrite list_fmap_id|].
    intros row j. unfold bias_adjusted. cbn. by destruct (row !! j).
Qed.

(** C8. With [temperature = 0], on logits whose rows are non-empty and
    for a dictionary [logit_bias] (an association list with distinct
    keys), [sample] returns for each row a position whose bias-adjusted
    logit no other exceeds, and the lowest such position: every earlier
    bias-adjusted logit is strictly smaller. The call neither reads nor
    advances the random generator and returns the same tokens from
    every state, so the same logits give the same token on every call. *)
Theorem sample_greedy `{!ScalarOrder V} (args : gen_args V)
    (logits : list (list V)) :
  s_eqb (temperature args) s_zero = true →
  Forall (λ row, row ≠ []) logits →
  NoDup (default [] (logit_bias args)).*1 →
  ∃ tokens logprobs,
    (∀ w, sample args logits w = (Val (tokens, logprobs), w))
    ∧ Forall2 (λ row i,
        ∃ x, bias_adjusted (logit_bias args) row i = Some x
             ∧ (∀ j y, bias_adjusted (logit_bias args) row j = Some y →
                  s_ltb x y = false)
             ∧ (∀ j y, j < i →
                  bias_adjusted (logit_bias args) row j = Some y →
                  s_ltb y x = true)) logits tokens.
Proof.
  intros Htemp Hrows Hdup. apply (biased_logits_rows args) in Hrows.
  destruct (argmax_rows_first_max _ Hrows) as (tokens & Htokens & Hmax).
  exists tokens. eexists. split.
  { intros w. unfold sample. rewrite Htemp.
    unfold mbind, M_bind, lift_res. rewrite Htokens. done. }
  destruct (biased_logits_adjusted args logits Hdup) as (g & Hg & Hlookup).
  rewrite Hg, Forall2_fmap_l in Hmax.
  eapply Forall2_impl; [exact Hmax|].
  intros row i (x & Hx & Hle & Hlt). cbn in *. exists x.
  rewrite <- Hlookup. split; [done|]. split.
  - intros j y Hj. rewrite <- Hlookup in Hj. by eapply Hle.
  - intros j y Hji Hj. rewrite <- Hlookup in Hj. by eapply Hlt.
Qed.

(** ** StoppingCriteria *)

(** C9, as the code has it. [reset] with ids makes exactly those ids the
    active end-of-sequence ids, one id alone counting as the list that
    holds it. [reset] with no ids makes the ids of the tokenizer the
    criteria hold the active ones, also for criteria that [load_processor]
    built from the ids configured for the model, which it does not look
    at; and without a tokenizer it raises [AttributeError]. *)
Theorem StoppingCriteria_reset_replaces (self : StoppingCriteria) :
  (∀ ids, ∃ self',
      StoppingCriteria_reset self (Some ids) = Val self'
      ∧ eos_token_ids self' = as_id_list ids)
  ∧ (∀ tk, tokenizer self = Some tk →
      ∃ self',
        StoppingCriteria_reset self None = Val self'
        ∧ eos_token_ids self' = as_id_list (tk_eos_token_ids tk))
  ∧ (∀ configured tk, self = load_processor_criteria configured tk →
      ∃ self',
        StoppingCriteria_reset self None = Val self'
        ∧ eos_token_ids self' = as_id_list (tk_eos_token_ids tk))
  ∧ (tokenizer self = None →
      StoppingCriteria_reset self None
      = Exn (AttributeError "'NoneType' object has no attribute 'eos_token_ids'")).
Proof.
  assert (∀ tk, tokenizer self = Some tk →
      ∃ self',
        StoppingCriteria_reset self None = Val self'
        ∧ eos_token_ids self' = as_id_list (tk_eos_token_ids tk)) as Hnone.
  { intros tk Htk. unfold StoppingCriteria_reset. rewrite Htk. cbn.
    case_bool_decide as Hne; eexists; (split; [done|]); done. }
  split; [|split; [done|split]].
  - intros ids. unfold StoppingCriteria_reset. cbn.
    case_bool_decide as Hne; eexists; (split; [done|]); done.
  - intros configured tk ->. by apply Hnone.
  - intros Htk. unfold StoppingCriteria_reset. by rewrite Htk.
Qed.

End Properties.

Section InputProperties.
Context {prompt_t image_t audio_t inputs_t : Type}.
Implicit Types (processor : processor_t prompt_t image_t audio_t inputs_t).


End InputProperties.

(** ** Invariants of the generator *)

Section SpecRules.
Context {W : Type} (I : W → Prop).

Lemma spec_ret {A} (a : A) (Q : A → Prop) : Q a → spec I (mret a) Q.
Proof. intros HQ w Hw. cbn. split; [done|]. by intros ? [= <-]. Qed.

Lemma spec_bind {A B} (m : M W A) (f : A → M W B) (Q : A → Prop) (R : B → Prop) :
  spec I m Q → (∀ a, Q a → spec I (f a) R) → spec I (m ≫= f) R.
Proof.
  intros Hm Hf w Hw. destruct (Hm w Hw) as [HI HQ].
  unfold mbind, M_bind. destruct (m w) as [[a|e|] w']; cbn in *.
  - by apply Hf; [apply HQ|].
  - done.
  - done.
Qed.

Lemma spec_lift_res {A} (r : res A) (Q : A → Prop) :
  (∀ a, r = Val a → Q a) → spec I (lift_res r) Q.
Proof. intros HQ w Hw. done. Qed.

Lemma spec_raise {A} (e : exn) (Q : A → Prop) : spec I (raise e) Q.
Proof. intros w Hw. done. Qed.

Lemma spec_modify (f : W → W) (Q : unit → Prop) :
  (∀ w, I w → I (f w)) → Q () → spec I (modify f) Q.
Proof. intros Hf HQ w Hw. cbn. split; [by apply Hf|]. by intros [] _. Qed.

End SpecRules.

(** Running the monad on the operations that compute. *)
Ltac run_m :=
  cbn; unfold mbind, M_bind, mret, M_ret, tick, log_session, log_device,
    make_result, read_local, modify, gets, lift_res, raise, with_clock_read,
    with_session_event, with_device_event, with_rng; cbn.

Lemma bind_val {W A B} (m : M W A) (f : A → M W B) (w : W) (a : A) (w1 : W) :
  m w = (Val a, w1) → (m ≫= f) w = f a w1.
Proof. intros Hm. unfold mbind, M_bind. by rewrite Hm. Qed.

Lemma bind_exn {W A B} (m : M W A) (f : A → M W B) (w : W) (e : exn) (w1 : W) :
  m w = (Exn e, w1) → (m ≫= f) w = (Exn e, w1).
Proof. intros Hm. unfold mbind, M_bind. by rewrite Hm. Qed.

(** One step of a run whose first part computes to a value. *)
Ltac bind_refl := erewrite bind_val by reflexivity.

(** A bind whose first part only has to keep the invariant. *)
Ltac bind_any := eapply spec_bind with (Q := λ _, True).

Section GeneratorInvariant.
Context {V : Type} `{!Scalar V} `{!Runtime V}.
Context (args : gen_args V).
Context (I : world V → Prop) (ok : device_event → Prop)
        (context_ok : list nat → Prop).
Hypothesis I_rng : ∀ w rng, I w → I (with_rng rng w).
Hypothesis I_device : ∀ w e, ok e → I w → I (with_device_event e w).
Hypothesis ok_make_cache : ok EvMakeCache.
Hypothesis ok_prefill : ok EvPrefill.
Hypothesis ok_decode : ok EvDecode.
Hypothesis ok_clear_cache : ok EvClearCache.
Hypothesis ok_penalty : ∀ c, context_ok c → ok (EvPenalty c).
Hypothesis context_initial : context_ok (initial_context args).
Hypothesis context_trim : ∀ c, context_ok (trim_context args c).

Lemma spec_log_device (e : device_event) :
  ok e → spec I (log_device e) (λ _, True).
Proof. intros He. apply spec_modify; [|done]. intros w. by apply I_device. Qed.

Lemma spec_sample (logits : list (list V)) :
  spec I (sample args logits) (λ _, True).
Proof.
  unfold sample. repeat case_match.
  - bind_any; [by apply spec_lift_res|]. intros ? _. by apply spec_ret.
  - intros w Hw. destruct (top_p_sampling _ _ _ _). cbn. split; [|done].
    by apply I_rng.
  - intros w Hw. destruct (categorical _ _). cbn. split; [|done].
    by apply I_rng.
Qed.

Lemma spec__step y kwargs cache context :
  context_ok context →
  spec I (_step args y kwargs cache context) (λ r, context_ok r.2).
Proof.
  intros Hctx. unfold _step.
  destruct (match kwargs with KwEncDec _ _ => _ | _ => _ end) as [logits cache'].
  bind_any; [by apply spec_log_device|]. intros [] _.
  bind_any.
  - case_match.
    + bind_any; [by apply spec_lift_res|]. intros penalty _.
      bind_any; [by apply spec_log_device, ok_penalty|]. intros [] _.
      bind_any; [apply spec_sample|]. intros [y' logprobs] _.
      bind_any; [by apply spec_lift_res|]. intros t _.
      by apply spec_ret.
    + bind_any; [apply spec_sample|]. intros [y' logprobs] _.
      by apply spec_ret.
  - intros [[y' logprobs] context'] _.
    bind_any; [by apply spec_lift_res|]. intros lp _.
    apply spec_ret. cbn. apply context_trim.
Qed.

Lemma spec_loop_iteration y logprobs n cache context kwargs :
  context_ok context →
  spec I (loop_iteration args y logprobs n cache context kwargs)
    (out_context context_ok).
Proof.
  intros Hctx. unfold loop_iteration. case_bool_decide.
  - eapply spec_bind; [by apply spec__step|].
    intros [[[next_y next_logprobs] cache'] context'] Hctx'. cbn in Hctx'.
    bind_any; [by apply spec_lift_res|]. intros token _.
    by apply spec_ret.
  - by apply spec_ret.
Qed.

Lemma spec_gen_next (g : gen_state) :
  gen_context context_ok g →
  spec I (gen_next args g) (out_context context_ok).
Proof.
  intros Hg. destruct g as [|f|]; cbn.
  - unfold gen_start.
    bind_any; [by apply spec_lift_res|]. intros [] _.
    bind_any; [by apply spec_log_device|]. intros [] _.
    destruct (model _ _) as [outputs cache].
    bind_any; [by apply spec_log_device|]. intros [] _.
    bind_any; [apply spec_sample|]. intros [y logprobs] _.
    by apply spec_loop_iteration.
  - unfold gen_resume. case_bool_decide; [by apply spec_ret|].
    bind_any.
    + case_bool_decide; [by apply spec_log_device|by apply spec_ret].
    + intros [] _. by apply spec_loop_iteration.
  - by apply spec_ret.
Qed.

End GeneratorInvariant.

(** ** The repetition context *)

Section ContextProperties.
Context {V : Type} `{!Scalar V} `{!Runtime V}.

Lemma bind_val_inv {W A B} (m : M W A) (f : A → M W B) w b w' :
  (m ≫= f) w = (Val b, w') →
  ∃ a w1, m w = (Val a, w1) ∧ f a w1 = (Val b, w').
Proof.
  unfold mbind, M_bind. destruct (m w) as [[a|e|] w1]; [|done..].
  intros Hf. by exists a, w1.
Qed.

Lemma slice_from_neg_length {A} (k : Z) (l : list A) :
  (0 < k)%Z → (Z.of_nat (length (slice_from (- k) l)) ≤ k)%Z.
Proof.
  intros Hk. unfold slice_from.
  destruct (Z.ltb_spec (- k) 0); [|lia]. rewrite length_drop. lia.
Qed.

Lemma initial_context_bounded (args : gen_args V) (k : Z) :
  repetition_context_size args = Some k → (0 < k)%Z →
  (Z.of_nat (length (initial_context args)) ≤ k)%Z.
Proof.
  intros Hsize Hk. unfold initial_context, size_truthy. rewrite Hsize. cbn.
  destruct (Z.eqb_spec k 0); [lia|]. cbn. by apply slice_from_neg_length.
Qed.

Lemma trim_context_bounded (args : gen_args V) (k : Z) (context : list nat) :
  repetition_context_size args = Some k → (0 < k)%Z →
  (Z.of_nat (length (trim_context args context)) ≤ k)%Z.
Proof.
  intros Hsize Hk. unfold trim_context, size_truthy. rewrite Hsize. cbn.
  destruct (Z.eqb_spec k 0); [lia|]. cbn.
  destruct (Z.gtb_spec (Z.of_nat (length context)) k); [|lia].
  by apply slice_from_neg_length.
Qed.

Lemma log_ok_gen_next (args : gen_args V) (k : Z) (g : gen_state) :
  repetition_context_size args = Some k → (0 < k)%Z →
  gen_context (λ c, (Z.of_nat (length c) ≤ k)%Z) g →
  spec (log_ok k) (gen_next args g)
    (out_context (λ c, (Z.of_nat (length c) ≤ k)%Z)).
Proof.
  intros Hsize Hk Hg.
  apply (spec_gen_next args (log_ok k) (penalty_bounded k)); try done.
  - intros w e He Hw. unfold log_ok in *. cbn.
    apply Forall_app. split; [done|]. by constructor.
  - by apply initial_context_bounded.
  - intros c. by apply trim_context_bounded.
Qed.

Lemma log_ok_tick (k : Z) : spec (log_ok k) tick (λ _, True).
Proof. intros w Hw. done. Qed.

Lemma log_ok_log_session (k : Z) (e : session_event V) :
  spec (log_ok k) (log_session e) (λ _, True).
Proof. intros w Hw. done. Qed.

Lemma log_ok_read_local {A} (k : Z) (name : string) (v : option A) :
  spec (log_ok k) (read_local name v) (λ _, True).
Proof. destruct v; [by apply spec_ret|apply spec_raise]. Qed.

Lemma log_ok_make_result (k : Z) args d token logprobs n prompt_tps tic :
  spec (log_ok k) (make_result args d token logprobs n prompt_tps tic)
    (λ _, True).
Proof.
  unfold make_result.
  bind_any; [apply log_ok_tick|]. intros now _.
  bind_any; [|intros peak _; by apply spec_ret].
  intros w Hw. done.
Qed.

Lemma log_ok_stream_body (k : Z) (args : gen_args V) stopping_criteria skip
    n token logprobs loc :
  spec (log_ok k)
    (stream_body args stopping_criteria skip n token logprobs loc) (λ _, True).
Proof.
  unfold stream_body. bind_any.
  { case_bool_decide.
    - bind_any; [apply log_ok_tick|]. intros now _.
      bind_any; [apply log_ok_tick|]. intros tic _. by apply spec_ret.
    - by apply spec_ret. }
  intros loc' _.
  bind_any; [apply log_ok_log_session|]. intros [] _.
  case_match; [by apply spec_ret|].
  bind_any; [apply log_ok_log_session|]. intros [] _.
  bind_any; [apply log_ok_read_local|]. intros prompt_tps _.
  bind_any; [apply log_ok_make_result|]. intros r _.
  bind_any; [apply log_ok_log_session|]. intros [] _.
  by apply spec_ret.
Qed.

Lemma log_ok_stream_loop (k : Z) fuel (args : gen_args V) stopping_criteria skip
    g n loc :
  repetition_context_size args = Some k → (0 < k)%Z →
  gen_context (λ c, (Z.of_nat (length c) ≤ k)%Z) g →
  spec (log_ok k) (stream_loop fuel args stopping_criteria skip g n loc)
    (λ _, True).
Proof.
  intros Hsize Hk. revert g n loc.
  induction fuel as [|fuel IH]; intros g n loc Hg; cbn.
  - intros w Hw. done.
  - eapply spec_bind; [by apply log_ok_gen_next|].
    intros [token logprobs g'|] Hout; [|by apply spec_ret].
    bind_any; [apply log_ok_stream_body|].
    intros [loc'|loc'] _; [by apply spec_ret|by apply IH].
Qed.

Lemma log_ok_stream_generate (k : Z) fuel (args : gen_args V) stopping_criteria
    skip detokenizer :
  repetition_context_size args = Some k → (0 < k)%Z →
  spec (log_ok k) (stream_generate fuel args stopping_criteria skip detokenizer)
    (λ _, True).
Proof.
  intros Hsize Hk. unfold stream_generate.
  bind_any; [apply log_ok_tick|]. intros tic _.
  bind_any; [by apply log_ok_stream_loop|]. intros loc _.
  bind_any; [apply log_ok_log_session|]. intros [] _.
  bind_any; [apply log_ok_read_local|]. intros token _.
  bind_any; [apply log_ok_read_local|]. intros logprobs _.
  bind_any; [apply log_ok_read_local|]. intros n _.
  bind_any; [apply log_ok_read_local|]. intros prompt_tps _.
  bind_any; [apply log_ok_make_result|]. intros r _.
  bind_any; [apply log_ok_log_session|]. intros [] _.
  apply spec_modify; [|done]. intros w Hw. unfold log_ok in *. cbn.
  apply Forall_app. split; [done|]. by repeat constructor.
Qed.

(** With the penalty on, [_step] hands back the context it was given,
    extended by the sampled token and then trimmed. *)
Lemma _step_context (args : gen_args V) y kwargs cache context w
    next_y logprobs cache' context' w' :
  py_truthy (repetition_penalty args) = true →
  _step args y kwargs cache context w
    = (Val (next_y, logprobs, cache', context'), w') →
  ∃ t, next_y = [t] ∧ context' = trim_context args (context ++ [t]).
Proof.
  intros Hrp. unfold _step. rewrite Hrp.
  destruct (match kwargs with KwEncDec _ _ => _ | _ => _ end) as [logits c].
  intros Hrun.
  apply bind_val_inv in Hrun as ([] & w1 & _ & Hrun).
  apply bind_val_inv in Hrun as ([[y' lp] ctx] & w2 & Hmid & Hrun).
  apply bind_val_inv in Hrun as (lp' & w3 & _ & Hrun).
  injection Hrun as <- <- <- <- <-.
  apply bind_val_inv in Hmid as (penalty & w4 & _ & Hmid).
  apply bind_val_inv in Hmid as ([] & w5 & _ & Hmid).
  apply bind_val_inv in Hmid as ([y2 lp2] & w6 & _ & Hmid).
  apply bind_val_inv in Hmid as (t & w7 & Hitem & Hmid).
  injection Hmid as <- <- <- <-.
  exists t. split; [|done].
  unfold lift_res in Hitem. injection Hitem as Hitem _.
  destruct y2 as [|t' [|]]; cbn in Hitem; by simplify_eq.
Qed.

(** C5, as the code has it. In a session with
    [repetition_context_size = k > 0], every application of the penalty
    sees a context of at most [k] tokens; and the context is trimmed
    from the front: with [k = 2] and the penalty on, a step that starts
    from the history [3, 9] and samples token [3] leaves the history
    [9, 3] for the next application. The size [0] counts as no size:
    the context starts as the whole prompt and is never trimmed. *)
Theorem repetition_context_bounded fuel (args : gen_args V) stopping_criteria
    skip detokenizer (w : world V) (k : Z) :
  repetition_context_size args = Some k → w_log w = [] →
  ((0 < k)%Z →
   ∀ context,
     EvPenalty context
       ∈ w_log (stream_generate fuel args stopping_criteria skip detokenizer w).2 →
     (Z.of_nat (length context) ≤ k)%Z)
  ∧ (k = 2%Z → py_truthy (repetition_penalty args) = true →
     ∀ y kwargs cache w0 logprobs cache' context' w',
       _step args y kwargs cache [3; 9] w0
         = (Val ([3], logprobs, cache', context'), w') →
       context' = [9; 3])
  ∧ (k = 0%Z →
     initial_context args = concat (input_ids args)
     ∧ ∀ context, trim_context args context = context).
Proof.
  intros Hsize Hlog. split; [|split].
  - intros Hk context Hin.
    destruct (log_ok_stream_generate k fuel args stopping_criteria skip
                detokenizer Hsize Hk w) as [Hok _].
    { unfold log_ok. rewrite Hlog. constructor. }
    unfold log_ok in Hok. rewrite Forall_forall in Hok.
    by apply (Hok (EvPenalty context)).
  - intros -> Hrp y kwargs cache w0 logprobs cache' context' w' Hrun.
    apply _step_context in Hrun as (t & [= <-] & ->); [|done].
    unfold trim_context, size_truthy. rewrite Hsize. done.
  - intros ->. unfold initial_context, trim_context, size_truthy.
    by rewrite Hsize.
Qed.

End ContextProperties.

(** ** The session wrapper *)

Section SessionProperties.
Context {V : Type} `{!Scalar V} `{!Runtime V}.
Context (args : gen_args V) (stopping_criteria : nat → bool) (skip : list nat).

(** The generator leaves the session log alone. *)
Lemma gen_next_trace (g : gen_state) (w : world V) :
  w_trace (gen_next args g w).2 = w_trace w.
Proof.
  destruct (spec_gen_next args (λ w', w_trace w' = w_trace w) (λ _, True)
              (λ _, True)) with (g := g) (w := w) as [Htrace _]; try done.
  by destruct g.
Qed.

Lemma stream_body_run (n tok : nat) (lp : array V) (loc : stream_locals)
    (w : world V) :
  (n ≠ 0 → is_Some (l_prompt_tps loc)) →
  ∃ c w',
    stream_body args stopping_criteria skip n tok lp loc w = (Val c, w')
    ∧ if stopping_criteria tok then
        ∃ loc', c = Break _ loc'
          ∧ w_trace w' = w_trace w ++ [EvStopCheck tok true]
          ∧ l_n loc' = Some n ∧ l_token loc' = Some tok
          ∧ l_logprobs loc' = Some lp ∧ is_Some (l_prompt_tps loc')
          ∧ l_detokenizer loc' = l_detokenizer loc
      else
        ∃ loc' r, c = Continue _ loc'
          ∧ w_trace w' = w_trace w ++ step_block (tok, r)
          ∧ l_n loc' = Some n ∧ l_token loc' = Some tok
          ∧ l_logprobs loc' = Some lp ∧ is_Some (l_prompt_tps loc')
          ∧ l_detokenizer loc' = detok_add_token tok skip (l_detokenizer loc)
          ∧ token r = Some tok
          ∧ generation_tokens r = n + 1
          ∧ prompt_tokens r = length (concat (input_ids args))
          ∧ text r = detok_last_segment
                       (detok_add_token tok skip (l_detokenizer loc)).
Proof.
  intros Hbound. unfold stream_body. case_bool_decide as Hn.
  - destruct (stopping_criteria tok) eqn:Hstop; run_m.
    + eexists _, _. split; [done|]. eexists. by repeat split.
    + eexists _, _. split; [done|]. eexists _, _. split; [done|]. cbn.
      rewrite <- !app_assoc. by repeat split.
  - destruct (Hbound Hn) as [tps Htps].
    destruct (stopping_criteria tok) eqn:Hstop; run_m.
    + eexists _, _. split; [done|]. eexists. by repeat split.
    + rewrite Htps. run_m.
      eexists _, _. split; [done|]. eexists _, _. split; [done|]. cbn.
      rewrite <- !app_assoc. by repeat split.
Qed.

Lemma steps_ok_cons (d : detok_t) (n tok : nat) (r : GenerationResult V)
    (steps : list (nat * GenerationResult V)) :
  stopping_criteria tok = false →
  token r = Some tok →
  generation_tokens r = n + 1 →
  prompt_tokens r = length (concat (input_ids args)) →
  text r = detok_last_segment (detok_add_token tok skip d) →
  steps_ok stopping_criteria skip (detok_add_token tok skip d) (S n) args steps →
  steps_ok stopping_criteria skip d n args ((tok, r) :: steps).
Proof.
  intros Hstop Htok Hgen Hprompt Htext Hsteps [|i] s Hs; cbn in Hs.
  - injection Hs as <-. cbn. rewrite Hgen. repeat split; try done. lia.
  - destruct (Hsteps i s Hs) as (? & ? & Hg & ? & ?).
    repeat split; try done. rewrite Hg. lia.
Qed.

(** The shape of the session log after the loop: one block per emitted
    token, then the failed test of the stop token if there was one. *)
Lemma stream_loop_trace (fuel : nat) (g : gen_state) (n : nat)
    (loc : stream_locals) (w : world V) :
  (n ≠ 0 → is_Some (l_prompt_tps loc)) →
  ∃ steps,
    steps_ok stopping_criteria skip (l_detokenizer loc) n args steps
    ∧ match stream_loop fuel args stopping_criteria skip g n loc w with
      | (Val loc', w') =>
          l_detokenizer loc'
            = detok_feed skip (l_detokenizer loc) steps.*1
          ∧ (w_trace w' = w_trace w ++ blocks steps
             ∨ ∃ t, stopping_criteria t = true
                 ∧ w_trace w' = w_trace w ++ blocks steps ++ [EvStopCheck t true]
                 ∧ l_token loc' = Some t
                 ∧ l_n loc' = Some (n + length steps)
                 ∧ is_Some (l_logprobs loc')
                 ∧ is_Some (l_prompt_tps loc'))
      | (_, w') => w_trace w' = w_trace w ++ blocks steps
      end.
Proof.
  revert g n loc w. induction fuel as [|fuel IH]; intros g n loc w Hbound.
  { exists []. split; [by intros i s ?|]. cbn. by rewrite app_nil_r. }
  cbn [stream_loop]. unfold mbind at 1, M_bind at 1.
  pose proof (gen_next_trace g w) as Hframe.
  destruct (gen_next args g w) as [[[tok lp g'|]|e|] w1]; cbn in Hframe.
  2-4: exists []; (split; [by intros i s ?|]); cbn; rewrite Hframe, app_nil_r.
  2: by split; [|left].
  2-3: done.
  unfold mbind at 1, M_bind at 1.
  destruct (stream_body_run n tok lp loc w1 Hbound) as (c & w2 & -> & Hbody).
  destruct (stopping_criteria tok) eqn:Hstop.
  - destruct Hbody as (loc' & -> & Htr & Hn & Htok & Hlp & Htps & Hd).
    exists []. split; [by intros i s ?|]. cbn. split; [done|]. right.
    exists tok. rewrite Htr, Hframe, Nat.add_0_r. by repeat split.
  - destruct Hbody as (loc' & r & -> & Htr & Hn & Htok & Hlp & Htps & Hd
                       & Hrtok & Hrgen & Hrprompt & Hrtext).
    destruct (IH g' (S n) loc' w2) as (steps & Hsteps & Hrun); [done|].
    exists ((tok, r) :: steps). split.
    { apply steps_ok_cons; try done. by rewrite <- Hd. }
    destruct (stream_loop fuel args stopping_criteria skip g' (S n) loc' w2)
      as [[loc''|e|] w3].
    + destruct Hrun as [Hd'' Hrun]. split; [by rewrite Hd'', Hd|].
      destruct Hrun as [Hrun|(t & Ht & Hrun & Htok'' & Hn'' & Hrest)].
      * left. rewrite Hrun, Htr, Hframe. cbn. by rewrite <- app_assoc.
      * right. exists t. split; [done|]. split.
        { rewrite Hrun, Htr, Hframe. cbn. by rewrite <- !app_assoc. }
        split; [done|]. split; [|done]. rewrite Hn''. cbn. f_equal. lia.
    + rewrite Hrun, Htr, Hframe. cbn. by rewrite <- app_assoc.
    + rewrite Hrun, Htr, Hframe. cbn. by rewrite <- app_assoc.
Qed.

Lemma blocks_cons (s : nat * GenerationResult V) steps :
  blocks (s :: steps) = step_block s ++ blocks steps.
Proof. done. Qed.

Lemma checked_blocks (steps : list (nat * GenerationResult V)) :
  checked (blocks steps) = steps.*1.
Proof. induction steps as [|s steps IH]; [done|]. cbn. by f_equal. Qed.

Lemma added_blocks (steps : list (nat * GenerationResult V)) :
  added (blocks steps) = steps.*1.
Proof. induction steps as [|s steps IH]; [done|]. cbn. by f_equal. Qed.

Lemma yielded_blocks (steps : list (nat * GenerationResult V)) :
  yielded (blocks steps) = steps.*2.
Proof. induction steps as [|s steps IH]; [done|]. cbn. by f_equal. Qed.

Lemma checked_app (a b : list (session_event V)) :
  checked (a ++ b) = checked a ++ checked b.
Proof. apply omap_app. Qed.

Lemma added_app (a b : list (session_event V)) :
  added (a ++ b) = added a ++ added b.
Proof. apply omap_app. Qed.

Lemma yielded_app (a b : list (session_event V)) :
  yielded (a ++ b) = yielded a ++ yielded b.
Proof. apply omap_app. Qed.

Lemma blocks_stop_check (steps : list (nat * GenerationResult V)) t b :
  EvStopCheck t b ∈ blocks steps → b = false.
Proof.
  induction steps as [|s steps IH]; [by intros ?%elem_of_nil|].
  rewrite blocks_cons. unfold step_block. cbn.
  rewrite !elem_of_cons.
  intros [[= _ ->]|[[=]|[[=]|Hin]]]; [done|by apply IH].
Qed.

(** The session log of a whole session: the blocks of the emitted
    tokens, then either the successful test of a stop token, the finalize
    and the last record, or a tail that handles no token. *)
Lemma stream_generate_trace (fuel : nat) (d0 : detok_t) (w : world V) :
  ∃ steps,
    steps_ok stopping_criteria skip (detok_reset d0) 0 args steps
    ∧ ((∃ t final,
          stopping_criteria t = true
          ∧ (stream_generate fuel args stopping_criteria skip d0 w).1 = Val ()
          ∧ w_trace (stream_generate fuel args stopping_criteria skip d0 w).2
            = w_trace w ++ blocks steps
                ++ [EvStopCheck t true; EvFinalize; EvYield final]
          ∧ token final = Some t
          ∧ generation_tokens final = length steps + 1
          ∧ text final
            = detok_last_segment
                (detok_finalize (detok_feed skip (detok_reset d0) steps.*1)))
       ∨ (∃ tail,
            w_trace (stream_generate fuel args stopping_criteria skip d0 w).2
              = w_trace w ++ blocks steps ++ tail
            ∧ Forall quiet tail)).
Proof.
  destruct (stream_generate fuel args stopping_criteria skip d0 w)
    as [r w'] eqn:Hres. cbn [fst snd].
  unfold stream_generate in Hres. unfold mbind at 1, M_bind at 1 in Hres.
  cbn [tick] in Hres.
  set (w0 := with_clock_read w) in Hres.
  set (loc0 := {| l_n := None; l_token := None; l_logprobs := None;
                  l_prompt_tps := None; l_tic := perf_counter (w_clock w);
                  l_detokenizer := detok_reset d0 |}) in Hres.
  destruct (stream_loop_trace fuel GenCreated 0 loc0 w0) as (steps & Hsteps & Hrun);
    [done|].
  exists steps. split; [done|].
  unfold mbind at 1, M_bind at 1 in Hres.
  destruct (stream_loop fuel args stopping_criteria skip GenCreated 0 loc0 w0)
    as [[loc|e|] w1]; cbn in Hrun.
  - destruct Hrun as [Hd [Htr|(t & Ht & Htr & Htok & Hn & [lp Hlp] & [tps Htps])]].
    + right. destruct loc as [[n'|] [tok'|] [lp'|] [tps'|] tic' d'];
        revert Hres; run_m; intros [= <- <-]; cbn; rewrite Htr;
        first [ by exists [EvFinalize];
                  (split; [by rewrite <- ?app_assoc|repeat constructor])
              | by eexists [EvFinalize; EvYield _];
                  (split; [by rewrite <- ?app_assoc|repeat constructor]) ].
    + left. destruct loc as [n' tok' lp' tps' tic' d']. cbn in *. subst.
      revert Hres; run_m; intros [= <- <-]; cbn.
      exists t. eexists. split; [done|]. split; [done|]. split.
      { rewrite Htr. by rewrite <- !app_assoc. }
      cbn. by repeat split.
  - right. exists []. injection Hres as <- <-. by rewrite app_nil_r.
  - right. exists []. injection Hres as <- <-. by rewrite app_nil_r.
Qed.

(** The generator proper: clock readings and the session log do not
    influence it. *)
Lemma engine_only_ret {A} (a : A) : engine_only (mret a).
Proof. by intros w v Hr Hl. Qed.

Lemma engine_only_bind {A B} (m : M (world V) A) (f : A → M (world V) B) :
  engine_only m → (∀ a, engine_only (f a)) → engine_only (m ≫= f).
Proof.
  intros Hm Hf w v Hr Hl. unfold mbind, M_bind.
  destruct (Hm w v Hr Hl) as (H1 & H2 & H3).
  destruct (m w) as [[a|e|] w1], (m v) as [r2 v1]; cbn in *; subst r2; [|done..].
  by apply Hf.
Qed.

Lemma engine_only_lift_res {A} (r : res A) : engine_only (lift_res r).
Proof. by intros w v Hr Hl. Qed.

Lemma engine_only_log_device (e : device_event) : engine_only (log_device e).
Proof. intros w v Hr Hl. cbn. by rewrite Hl. Qed.

Lemma engine_only_sample (logits : list (list V)) : engine_only (sample args logits).
Proof.
  unfold sample. destruct (s_eqb _ _).
  - apply engine_only_bind; [apply engine_only_lift_res|].
    intros token. apply engine_only_ret.
  - destruct (_ && _); intros w v Hr Hl; rewrite Hr.
    + by destruct (top_p_sampling _ _ _ _).
    + by destruct (categorical _ _).
Qed.

Lemma engine_only__step y kwargs cache context :
  engine_only (_step args y kwargs cache context).
Proof.
  unfold _step.
  destruct (match kwargs with KwEncDec _ _ => _ | _ => _ end) as [logits c].
  apply engine_only_bind; [apply engine_only_log_device|]. intros [].
  apply engine_only_bind.
  - destruct (py_truthy _).
    + apply engine_only_bind; [apply engine_only_lift_res|]. intros penalty.
      apply engine_only_bind; [apply engine_only_log_device|]. intros [].
      apply engine_only_bind; [apply engine_only_sample|]. intros [y' lp].
      apply engine_only_bind; [apply engine_only_lift_res|]. intros t.
      apply engine_only_ret.
    + apply engine_only_bind; [apply engine_only_sample|]. intros [y' lp].
      apply engine_only_ret.
  - intros [[y' lp] context'].
    apply engine_only_bind; [apply engine_only_lift_res|]. intros lp'.
    apply engine_only_ret.
Qed.

Lemma engine_only_loop_iteration y lp n cache context kwargs :
  engine_only (loop_iteration args y lp n cache context kwargs).
Proof.
  unfold loop_iteration. case_bool_decide; [|apply engine_only_ret].
  apply engine_only_bind; [apply engine_only__step|].
  intros [[[next_y next_lp] cache'] context'].
  apply engine_only_bind; [apply engine_only_lift_res|]. intros token.
  apply engine_only_ret.
Qed.

Lemma engine_only_gen_next (g : gen_state) : engine_only (gen_next args g).
Proof.
  destruct g as [|f|]; cbn [gen_next]; [| |apply engine_only_ret].
  - unfold gen_start.
    apply engine_only_bind; [apply engine_only_lift_res|]. intros [].
    apply engine_only_bind; [apply engine_only_log_device|]. intros [].
    destruct (model (input_ids args) make_cache) as [outputs cache].
    apply engine_only_bind; [apply engine_only_log_device|]. intros [].
    apply engine_only_bind; [apply engine_only_sample|]. intros [y lp].
    apply engine_only_loop_iteration.
  - unfold gen_resume. case_bool_decide; [apply engine_only_ret|].
    apply engine_only_bind; [|intros []; apply engine_only_loop_iteration].
    case_bool_decide; [apply engine_only_log_device|apply engine_only_ret].
Qed.

(** The body of the loop tests the token it was entered with, and leaves
    the random generator and the device log alone. *)
Lemma stream_body_checked (n tok : nat) (lp : array V) (loc : stream_locals)
    (w : world V) :
  w_rng (stream_body args stopping_criteria skip n tok lp loc w).2 = w_rng w
  ∧ w_log (stream_body args stopping_criteria skip n tok lp loc w).2 = w_log w
  ∧ checked (w_trace (stream_body args stopping_criteria skip n tok lp loc w).2)
    = checked (w_trace w) ++ [tok].
Proof.
  unfold stream_body.
  case_bool_decide; destruct (stopping_criteria tok);
    destruct (l_prompt_tps loc); do 3 run_m; unfold checked; cbn;
    rewrite ?omap_app; cbn; rewrite <- ?app_assoc, ?app_nil_r; done.
Qed.

(** The tokens the loop tests are the tokens the generator yields, in
    order. *)
Lemma stream_loop_checked (fuel : nat) (g : gen_state) (n : nat)
    (loc : stream_locals) (w v : world V) :
  w_rng w = w_rng v → w_log w = w_log v →
  ∃ tokens,
    checked (w_trace (stream_loop fuel args stopping_criteria skip g n loc w).2)
    = checked (w_trace w) ++ tokens
    ∧ (generated_tokens (length tokens) args g v).1 = Val tokens.
Proof.
  revert g n loc w v. induction fuel as [|fuel IH]; intros g n loc w v Hr Hl.
  { exists []. cbn. by rewrite app_nil_r. }
  cbn [stream_loop]. unfold mbind at 1, M_bind at 1.
  pose proof (gen_next_trace g w) as Hframe.
  destruct (engine_only_gen_next g w v Hr Hl) as (Hout & Hr1 & Hl1).
  destruct (gen_next args g w) as [[[tok lp g'|]|e|] w1] eqn:Hw;
    cbn in Hframe, Hout, Hr1, Hl1.
  2-4: exists []; cbn; by rewrite Hframe, app_nil_r.
  destruct (gen_next args g v) as [r1 v1] eqn:Hv. cbn in Hout, Hr1, Hl1. subst r1.
  unfold mbind at 1, M_bind at 1.
  destruct (stream_body_checked n tok lp loc w1) as (Hr2 & Hl2 & Hc2).
  assert (Hone : (generated_tokens 1 args g v).1 = Val [tok]).
  { cbn [generated_tokens]. unfold mbind at 1, M_bind at 1. by rewrite Hv. }
  destruct (stream_body args stopping_criteria skip n tok lp loc w1)
    as [[[loc'|loc']|e|] w2]; cbn in Hr2, Hl2, Hc2.
  1,3,4: exists [tok]; unfold mret, M_ret; cbn [snd]; by rewrite Hc2, Hframe.
  destruct (IH g' (S n) loc' w2 v1) as (tokens & Hchecked & Htokens);
    [congruence..|].
  exists (tok :: tokens). split.
  - rewrite Hchecked, Hc2, Hframe. by rewrite <- app_assoc.
  - cbn [length generated_tokens]. unfold mbind at 1, M_bind at 1. rewrite Hv.
    unfold mbind, M_bind.
    destruct (generated_tokens (length tokens) args g' v1) as [r v2].
    cbn in Htokens. by subst r.
Qed.

(** The same for a whole session: what follows the loop tests nothing. *)
Lemma stream_generate_checked (fuel : nat) (d0 : detok_t) (w : world V) :
  ∃ tokens,
    checked (w_trace (stream_generate fuel args stopping_criteria skip d0 w).2)
    = checked (w_trace w) ++ tokens
    ∧ (generated_tokens (length tokens) args GenCreated w).1 = Val tokens.
Proof.
  destruct (stream_generate fuel args stopping_criteria skip d0 w)
    as [r w'] eqn:Hres. cbn [snd].
  unfold stream_generate in Hres. unfold mbind at 1, M_bind at 1 in Hres.
  cbn [tick] in Hres.
  set (w0 := with_clock_read w) in Hres.
  set (loc0 := {| l_n := None; l_token := None; l_logprobs := None;
                  l_prompt_tps := None; l_tic := perf_counter (w_clock w);
                  l_detokenizer := detok_reset d0 |}) in Hres.
  destruct (stream_loop_checked fuel GenCreated 0 loc0 w0 w)
    as (tokens & Hchecked & Htokens); [done..|].
  exists tokens. split; [|done].
  unfold mbind at 1, M_bind at 1 in Hres.
  destruct (stream_loop fuel args stopping_criteria skip GenCreated 0 loc0 w0)
    as [[loc|e|] w1]; cbn [snd] in Hchecked.
  2,3: by injection Hres as <- <-.
  change (w_trace w0) with (w_trace w) in Hchecked. rewrite <- Hchecked.
  destruct loc as [[n'|] [tok'|] [lp'|] [tps'|] tic' d'];
    revert Hres; run_m; intros [= <- <-]; unfold checked; cbn;
    rewrite ?omap_app; cbn; by rewrite ?app_nil_r.
Qed.

(** C1, as the code has it. In every session the stopping criteria are
    evaluated on the tokens the generator yields, all of them and in
    their order, and on each before it is pushed to the detokenizer and
    before a record carries it: the session log is one block (test,
    push, record) per emitted token, followed by events that push
    nothing, and the tokens tested are the first tokens of the
    generator. Once the test succeeds on a token [t], nothing more is
    tested or pushed: the log ends with that test, the finalize and the
    last record; the tokens pushed to the detokenizer, and hence the
    texts of all records, are those yielded strictly before [t], and
    there is one step record for each of them. The last record however
    carries [t] itself in its [token] field, and its
    [generation_tokens] counts [t]: it is one more than the number of
    tokens before [t]. *)
Theorem stream_generate_stops (fuel : nat) (d0 : detok_t) (w : world V) :
  w_trace w = [] →
  (∃ steps tail,
     w_trace (stream_generate fuel args stopping_criteria skip d0 w).2
       = blocks steps ++ tail
     ∧ steps_ok stopping_criteria skip (detok_reset d0) 0 args steps
     ∧ (Forall quiet tail
        ∨ ∃ t final, stopping_criteria t = true
                     ∧ tail = [EvStopCheck t true; EvFinalize; EvYield final]))
  ∧ (generated_tokens
       (length (checked
          (w_trace (stream_generate fuel args stopping_criteria skip d0 w).2)))
       args GenCreated w).1
    = Val (checked
             (w_trace (stream_generate fuel args stopping_criteria skip d0 w).2))
  ∧ (∀ t,
       EvStopCheck t true
         ∈ w_trace (stream_generate fuel args stopping_criteria skip d0 w).2 →
       ∃ steps final,
         (stream_generate fuel args stopping_criteria skip d0 w).1 = Val ()
         ∧ w_trace (stream_generate fuel args stopping_criteria skip d0 w).2
           = blocks steps ++ [EvStopCheck t true; EvFinalize; EvYield final]
         ∧ stopping_criteria t = true
         ∧ steps_ok stopping_criteria skip (detok_reset d0) 0 args steps
         ∧ (generated_tokens (S (length steps)) args GenCreated w).1
           = Val (steps.*1 ++ [t])
         ∧ text final
           = detok_last_segment
               (detok_finalize (detok_feed skip (detok_reset d0) steps.*1))
         ∧ token final = Some t
         ∧ generation_tokens final = length steps + 1
         ∧ checked
             (w_trace (stream_generate fuel args stopping_criteria skip d0 w).2)
           = steps.*1 ++ [t]
         ∧ added
             (w_trace (stream_generate fuel args stopping_criteria skip d0 w).2)
           = steps.*1
         ∧ yielded
             (w_trace (stream_generate fuel args stopping_criteria skip d0 w).2)
           = steps.*2 ++ [final]).
Proof.
  intros Hw.
  destruct (stream_generate_checked fuel d0 w) as (tokens & Hchecked & Htokens).
  rewrite Hw in Hchecked. cbn in Hchecked.
  destruct (stream_generate_trace fuel d0 w)
    as (steps & Hsteps & [(t' & final & Ht' & Hres & Htr & Htok & Hgen & Htext)
                         |(tail & Htr & Htail)]);
    rewrite Hw in Htr; cbn in Htr.
  - split; [|split].
    { exists steps, [EvStopCheck t' true; EvFinalize; EvYield final].
      split; [done|]. split; [done|]. right. by exists t', final. }
    { by rewrite Hchecked. }
    intros t Hin. rewrite Htr in Hin.
    assert (t' = t) as ->.
    { apply elem_of_app in Hin as [Hin|Hin].
      - by apply blocks_stop_check in Hin.
      - rewrite !elem_of_cons in Hin.
        destruct Hin as [[= ->]|[[=]|[[=]|Hin%elem_of_nil]]]; done. }
    exists steps, final.
    assert (tokens = steps.*1 ++ [t]) as Heq.
    { rewrite <- Hchecked, Htr, checked_app, checked_blocks. done. }
    rewrite Htr.
    rewrite checked_app, added_app, yielded_app.
    rewrite checked_blocks, added_blocks, yielded_blocks. cbn -[generated_tokens].
    rewrite app_nil_r. do 4 (split; [done|]). split.
    { rewrite <- Heq.
      replace (S (length steps)) with (length tokens); [done|].
      rewrite Heq, length_app, length_fmap. cbn. lia. }
    repeat (split; [done|]). done.
  - split; [|split].
    { exists steps, tail. split; [done|]. split; [done|]. by left. }
    { by rewrite Hchecked. }
    intros t Hin. rewrite Htr in Hin.
    exfalso. apply elem_of_app in Hin as [Hin|Hin].
    + by apply blocks_stop_check in Hin.
    + rewrite Forall_forall in Htail. by apply Htail in Hin.
Qed.

(** After a stop, the last record carries the stop token itself in its
    [token] field and counts it in [generation_tokens]. *)
Lemma stream_generate_final_after_stop (fuel : nat) (d0 : detok_t) (w : world V)
    (t : nat) (steps : list (nat * GenerationResult V))
    (final : GenerationResult V) :
  w_trace (stream_generate fuel args stopping_criteria skip d0 w).2
    = w_trace w ++ blocks steps ++ [EvStopCheck t true; EvFinalize; EvYield final] →
  token final = Some t ∧ generation_tokens final = length steps + 1.
Proof.
  intros Htr.
  destruct (stream_generate_trace fuel d0 w)
    as (steps' & Hsteps & [(t' & final' & Ht' & Hres & Htr' & Htok & Hgen & _)
                          |(tail & Htr' & Htail)]);
    rewrite Htr in Htr'; apply app_inv_head in Htr'.
  - apply (f_equal checked) in Htr' as Hchk.
    rewrite !checked_app, !checked_blocks in Hchk. cbn in Hchk.
    apply app_inj_2 in Hchk as [Hfst [= ->]]; [|done].
    apply (f_equal yielded) in Htr'.
    rewrite !yielded_app, !yielded_blocks in Htr'. cbn in Htr'.
    apply app_inj_2 in Htr' as [_ [= ->]]; [|done].
    split; [done|]. rewrite Hgen.
    apply (f_equal length) in Hfst. rewrite !length_fmap in Hfst. lia.
  - exfalso.
    assert (Hin : EvStopCheck t true ∈ blocks steps' ++ tail).
    { rewrite <- Htr'. apply elem_of_app. right. apply elem_of_cons. by left. }
    apply elem_of_app in Hin as [Hin|Hin].
    + by apply blocks_stop_check in Hin.
    + rewrite Forall_forall in Htail. by apply Htail in Hin.
Qed.

End SessionProperties.

(** ** Sessions that run to the token budget *)

Section BudgetProperties.
Context {V : Type} `{!Scalar V} `{!Runtime V}.
Context (args : gen_args V) (stopping_criteria : nat → bool) (skip : list nat).

Lemma single_row_fmap (f : list V → list V) (l : list (list V)) :
  (∀ row, length (f row) = length row) →
  single_row l → single_row (f <$> l).
Proof.
  intros Hf (row & -> & Hrow). exists (f row). split; [done|].
  intros Hnil. apply (f_equal length) in Hnil. rewrite Hf in Hnil.
  by destruct row.
Qed.

Lemma biased_logits_single (l : list (list V)) :
  single_row l → single_row (biased_logits args l).
Proof.
  unfold biased_logits, add_bias. destruct (dict_truthy _); [|done].
  apply single_row_fmap. intros row. apply put_cols_length.
Qed.

Lemma apply_repetition_penalty_single (l : list (list V)) context p :
  single_row l → single_row (apply_repetition_penalty l context p).
Proof.
  unfold apply_repetition_penalty. case_bool_decide; [|done].
  apply single_row_fmap. intros row. apply put_cols_length.
Qed.

Lemma map_rows_single (f : V → V) (l : list (list V)) :
  single_row l → single_row (map_rows f l).
Proof. apply single_row_fmap. intros row. apply length_fmap. Qed.

Lemma sample_run (logits : list (list V)) (w : world V) :
  runtime_ok → single_row logits →
  ∃ t lp w', sample args logits w = (Val ([t], lp), w') ∧ single_row lp.
Proof.
  intros Hrt Hrow. apply biased_logits_single in Hrow. unfold sample.
  set (bl := biased_logits args logits) in *.
  pose proof (map_rows_single (λ x, s_sub x (logsumexp bl)) bl Hrow) as Hlp.
  destruct (s_eqb (temperature args) s_zero).
  - destruct Hrow as ([|x row] & Hbl & Hne); [done|]. rewrite Hbl in *.
    run_m. by eexists _, _, _.
  - destruct (_ && _).
    + destruct (top_p_sampling_single Hrt (w_rng w) bl (top_p args)
                  (temperature args) Hrow) as [tok Htok].
      destruct (top_p_sampling _ _ _ _) as [toks rng]. cbn in Htok. subst.
      by eexists _, _, _.
    + set (scaled := map_rows _ bl).
      destruct (categorical_single Hrt (w_rng w) scaled) as [tok Htok].
      { by apply map_rows_single. }
      destruct (categorical _ _) as [toks rng]. cbn in Htok. subst.
      by eexists _, _, _.
Qed.

Lemma check_truthy_float (rp : pyval V) :
  check_repetition_penalty rp = Val () → py_truthy rp = true →
  ∃ x, rp = PyFloat x.
Proof.
  unfold check_repetition_penalty. intros Hcheck Htruthy.
  rewrite Htruthy in Hcheck.
  destruct rp; cbn in *; try done; [|by eexists].
  by destruct (_ <? _)%Z.
Qed.

Lemma _step_run y kwargs cache context (w : world V) :
  runtime_ok →
  check_repetition_penalty (repetition_penalty args) = Val () →
  ∃ t lp cache' context' w',
    _step args y kwargs cache context w = (Val ([t], lp, cache', context'), w').
Proof.
  intros Hrt Hcheck. unfold _step.
  assert (Hrow : single_row
            (match kwargs with
             | KwEncDec _ _ => language_model None kwargs cache
             | _ => language_model (Some y) kwargs cache
             end).1).
  { destruct kwargs; apply (language_model_single Hrt). }
  destruct (match kwargs with KwEncDec _ _ => _ | _ => _ end) as [logits cache'].
  cbn in Hrow.
  destruct (py_truthy (repetition_penalty args)) eqn:Htruthy.
  - destruct (check_truthy_float _ Hcheck Htruthy) as [p Hp]. rewrite Hp.
    destruct (sample_run (apply_repetition_penalty logits context p)
                (with_device_event (EvPenalty context)
                   (with_device_event EvDecode w)) Hrt)
      as (t & lp & w3 & Hsample & [row [-> _]]).
    { by apply apply_repetition_penalty_single. }
    eexists _, _, _, _, _. bind_refl.
    erewrite bind_val; cycle 1.
    { do 2 bind_refl. erewrite bind_val by exact Hsample. cbn.
      bind_refl. reflexivity. }
    cbn. bind_refl. reflexivity.
  - destruct (sample_run logits (with_device_event EvDecode w) Hrt Hrow)
      as (t & lp & w3 & Hsample & [row [-> _]]).
    eexists _, _, _, _, _. bind_refl.
    erewrite bind_val; cycle 1.
    { erewrite bind_val by exact Hsample. reflexivity. }
    cbn. bind_refl. reflexivity.
Qed.

Lemma loop_iteration_yields t lp (n : Z) cache context kwargs (w : world V) :
  runtime_ok →
  check_repetition_penalty (repetition_penalty args) = Val () →
  n ≠ max_tokens args →
  ∃ f w',
    loop_iteration args [t] lp n cache context kwargs w
      = (Val (GenYield t lp (GenSuspended f)), w')
    ∧ f_n f = n ∧ ∃ t', f_next_y f = [t'].
Proof.
  intros Hrt Hcheck Hn. unfold loop_iteration.
  rewrite bool_decide_eq_true_2 by done.
  destruct (_step_run [t] kwargs cache context w Hrt Hcheck)
    as (t' & lp' & cache' & context' & w' & Hstep).
  eexists _, _. split.
  - erewrite bind_val by exact Hstep. cbn. bind_refl. reflexivity.
  - cbn. split; [done|]. by exists t'.
Qed.

Lemma loop_iteration_stops y lp (n : Z) cache context kwargs (w : world V) :
  n = max_tokens args →
  loop_iteration args y lp n cache context kwargs w = (Val GenStop, w).
Proof.
  intros Hn. unfold loop_iteration. by rewrite bool_decide_eq_false_2 by tauto.
Qed.

(** What the prompt pass leaves for the loop. *)
Lemma gen_start_run (w : world V) :
  runtime_ok →
  check_repetition_penalty (repetition_penalty args) = Val () →
  ∃ t lp cache context kwargs w1,
    gen_start args w
    = loop_iteration args [t] lp 0%Z cache context kwargs w1.
Proof.
  intros Hrt Hcheck. unfold gen_start. rewrite Hcheck.
  pose proof (model_single Hrt (input_ids args) make_cache) as Hrow.
  destruct (model (input_ids args) make_cache) as [outputs cache].
  cbn in Hrow.
  destruct (sample_run (out_logits outputs)
              (with_device_event EvPrefill (with_device_event EvMakeCache w))
              Hrt Hrow) as (t & lp & w1 & Hsample & _).
  eexists t, _, _, _, _, w1. do 3 bind_refl.
  erewrite bind_val by exact Hsample. reflexivity.
Qed.

Lemma gen_next_yields (m k : nat) (g : gen_state) (w : world V) :
  runtime_ok →
  check_repetition_penalty (repetition_penalty args) = Val () →
  max_tokens args = Z.of_nat m →
  gen_at k g → k < m →
  ∃ tok lp g' w',
    gen_next args g w = (Val (GenYield tok lp g'), w') ∧ gen_at (S k) g'.
Proof.
  intros Hrt Hcheck Hmax Hg Hk. destruct g as [|f|]; cbn in Hg; [| |done].
  - subst k. cbn.
    destruct (gen_start_run w Hrt Hcheck)
      as (t & lp & cache & context & kwargs & w1 & ->).
    destruct (loop_iteration_yields t lp 0%Z cache context kwargs w1 Hrt Hcheck)
      as (f & w' & -> & Hn & Hy); [lia|].
    eexists _, _, _, _. split; [done|]. cbn. split; [lia|]. split; [lia|done].
  - destruct Hg as (Hpos & Hn & t & Hy). cbn. unfold gen_resume.
    rewrite bool_decide_eq_false_2 by lia. rewrite Hy.
    set (n := (f_n f + 1)%Z).
    assert (∃ w1, (if bool_decide (n `mod` 50 = 0)%Z
                   then log_device EvClearCache else mret ()) w = (Val (), w1))
      as [w1 Hclear].
    { case_bool_decide; by eexists. }
    destruct (loop_iteration_yields t (f_next_logprobs f) n (f_cache f)
                (f_repetition_context f) (f_kwargs f) w1 Hrt Hcheck)
      as (f' & w' & Hloop & Hn' & Hy'); [lia|].
    eexists _, _, _, _. split.
    + erewrite bind_val by exact Hclear. exact Hloop.
    + cbn. split; [lia|]. split; [lia|done].
Qed.

Lemma gen_next_stops (m : nat) (g : gen_state) (w : world V) :
  runtime_ok →
  check_repetition_penalty (repetition_penalty args) = Val () →
  max_tokens args = Z.of_nat m →
  gen_at m g →
  ∃ w', gen_next args g w = (Val GenStop, w').
Proof.
  intros Hrt Hcheck Hmax Hg. destruct g as [|f|]; cbn in Hg; [| |done].
  - subst m. cbn.
    destruct (gen_start_run w Hrt Hcheck)
      as (t & lp & cache & context & kwargs & w1 & ->).
    eexists. by apply loop_iteration_stops.
  - destruct Hg as (Hpos & Hn & t & Hy). cbn. unfold gen_resume.
    rewrite bool_decide_eq_false_2 by lia.
    set (n := (f_n f + 1)%Z).
    assert (∃ w1, (if bool_decide (n `mod` 50 = 0)%Z
                   then log_device EvClearCache else mret ()) w = (Val (), w1))
      as [w1 Hclear].
    { case_bool_decide; by eexists. }
    eexists. erewrite bind_val by exact Hclear.
    apply loop_iteration_stops. lia.
Qed.

Lemma steps_ok_nil (d : detok_t) (n : nat) :
  steps_ok stopping_criteria skip d n args [].
Proof. by intros i s ?. Qed.

(** With criteria that never match, the loop emits one block for every
    token left in the budget and then ends by exhaustion. *)
Lemma stream_loop_exhausts (m fuel k : nat) (g : gen_state)
    (loc : stream_locals) (w : world V) :
  runtime_ok →
  check_repetition_penalty (repetition_penalty args) = Val () →
  max_tokens args = Z.of_nat m →
  (∀ t, stopping_criteria t = false) →
  gen_at k g → k ≤ m → m - k < fuel →
  (k ≠ 0 → is_Some (l_prompt_tps loc)) →
  ∃ steps loc' w',
    stream_loop fuel args stopping_criteria skip g k loc w = (Val loc', w')
    ∧ length steps = m - k
    ∧ w_trace w' = w_trace w ++ blocks steps
    ∧ steps_ok stopping_criteria skip (l_detokenizer loc) k args steps
    ∧ l_detokenizer loc' = detok_feed skip (l_detokenizer loc) steps.*1
    ∧ (k < m → l_n loc' = Some (m - 1) ∧ is_Some (l_token loc')
               ∧ is_Some (l_logprobs loc') ∧ is_Some (l_prompt_tps loc'))
    ∧ (k = m → loc' = loc).
Proof.
  intros Hrt Hcheck Hmax Hstop. revert k g loc w.
  induction fuel as [|fuel IH]; intros k g loc w Hg Hk Hfuel Hbound; [lia|].
  cbn [stream_loop].
  destruct (decide (k = m)) as [->|Hne].
  - destruct (gen_next_stops m g w Hrt Hcheck Hmax Hg) as [w1 Hnext].
    pose proof (gen_next_trace args g w) as Hframe.
    rewrite Hnext in Hframe. cbn in Hframe.
    exists [], loc, w1. erewrite bind_val by exact Hnext. cbn.
    rewrite Hframe, app_nil_r, Nat.sub_diag.
    repeat (split; [done|]). split; [lia|done].
  - destruct (gen_next_yields m k g w Hrt Hcheck Hmax Hg)
      as (tok & lp & g' & w1 & Hnext & Hg'); [lia|].
    pose proof (gen_next_trace args g w) as Hframe.
    rewrite Hnext in Hframe. cbn in Hframe.
    destruct (stream_body_run args stopping_criteria skip k tok lp loc w1 Hbound)
      as (c & w2 & Hbody & Hc).
    rewrite Hstop in Hc.
    destruct Hc as (loc1 & r & -> & Htr & Hn & Htok & Hlp & Htps & Hd
                    & Hrtok & Hrgen & Hrprompt & Hrtext).
    destruct (IH (S k) g' loc1 w2) as (steps & loc' & w' & Hloop & Hlen & Htr'
                                       & Hsteps & Hd' & Hlast & Hsame);
      [done|lia|lia|done|].
    exists ((tok, r) :: steps), loc', w'.
    erewrite bind_val by exact Hnext. cbn.
    erewrite bind_val by exact Hbody. cbn.
    split; [done|]. split; [cbn; lia|]. split.
    { rewrite Htr', Htr, Hframe. cbn. by rewrite <- !app_assoc. }
    split.
    { apply steps_ok_cons; try done. by rewrite <- Hd. }
    split; [by rewrite Hd', Hd|]. split; [|lia].
    intros _. destruct (decide (S k = m)) as [Heq|Hlt].
    + rewrite (Hsame Heq), Hn, Htok, Hlp.
      split; [f_equal; lia|]. by repeat split.
    + apply Hlast. lia.
Qed.

(** A session with a budget of [m > 0] tokens and criteria that never
    match: [m] step records, then the finalize and a last record that
    reports [m] generated tokens. *)
Lemma stream_generate_exhausts (m fuel : nat) (d0 : detok_t) (w : world V) :
  runtime_ok →
  check_repetition_penalty (repetition_penalty args) = Val () →
  max_tokens args = Z.of_nat m →
  (∀ t, stopping_criteria t = false) →
  0 < m → m < fuel →
  ∃ steps final w',
    stream_generate fuel args stopping_criteria skip d0 w = (Val (), w')
    ∧ length steps = m
    ∧ w_trace w' = w_trace w ++ blocks steps ++ [EvFinalize; EvYield final]
    ∧ steps_ok stopping_criteria skip (detok_reset d0) 0 args steps
    ∧ generation_tokens final = m
    ∧ prompt_tokens final = length (concat (input_ids args)).
Proof.
  intros Hrt Hcheck Hmax Hstop Hm Hfuel. unfold stream_generate.
  bind_refl.
  match goal with
  | |- context [stream_loop fuel args stopping_criteria skip GenCreated 0 ?loc0] =>
      set (loc := loc0)
  end.
  match goal with
  | |- context [mbind _ (stream_loop _ _ _ _ _ _ _) ?w0] =>
      destruct (stream_loop_exhausts m fuel 0 GenCreated loc w0)
        as (steps & loc' & w' & Hloop & Hlen & Htr & Hsteps & Hd & Hlast & _);
        [done|done|done|done|done|lia|lia|done|]
  end.
  destruct Hlast as (Hn & [tok Htok] & [lp Hlp] & [tps Htps]); [done|].
  exists steps. eexists _, _.
  erewrite bind_val by exact Hloop.
  bind_refl. rewrite Htok, Hlp, Hn, Htps. do 6 bind_refl.
  split; [reflexivity|]. cbn. rewrite Htr. cbn.
  split; [lia|]. split; [by rewrite <- !app_assoc|].
  split; [done|]. cbn. split; [lia|done].
Qed.

(** C2. A prompt of ten tokens, [max_tokens = 5] and criteria that never
    match: the session yields exactly five step records and then one
    finalize record, whose [generation_tokens] is five. *)
Theorem stream_generate_five_of_ten (fuel : nat) (d0 : detok_t) (w : world V) :
  runtime_ok →
  check_repetition_penalty (repetition_penalty args) = Val () →
  length (concat (input_ids args)) = 10 →
  max_tokens args = 5%Z →
  (∀ t, stopping_criteria t = false) →
  5 < fuel →
  w_trace w = [] →
  ∃ steps final w',
    stream_generate fuel args stopping_criteria skip d0 w = (Val (), w')
    ∧ w_trace w' = blocks steps ++ [EvFinalize; EvYield final]
    ∧ yielded (w_trace w') = steps.*2 ++ [final]
    ∧ length steps = 5
    ∧ length (yielded (w_trace w')) = 6
    ∧ generation_tokens final = 5
    ∧ prompt_tokens final = 10
    ∧ steps_ok stopping_criteria skip (detok_reset d0) 0 args steps.
Proof.
  intros Hrt Hcheck Hprompt Hmax Hstop Hfuel Hw.
  destruct (stream_generate_exhausts 5 fuel d0 w)
    as (steps & final & w' & Hrun & Hlen & Htr & Hsteps & Hgen & Hp);
    [done|done|done|done|lia|lia|].
  exists steps, final, w'. rewrite Hw in Htr. cbn in Htr. rewrite Htr.
  rewrite yielded_app, yielded_blocks. cbn.
  rewrite length_app, length_fmap, Hlen, Hgen, Hp, Hprompt. cbn.
  do 7 (split; [done|]). done.
Qed.

(** C10. When the generator ends without yielding a pair, as it does
    for [max_tokens = 0], [stream_generate] yields no record at all:
    building the last record fails with an unbound-variable error on
    [token], a name that only the loop body binds. *)
Theorem stream_generate_no_token (fuel : nat) (d0 : detok_t) (w : world V) :
  0 < fuel →
  ((∀ w0, ∃ w1, gen_next args GenCreated w0 = (Val GenStop, w1)) →
    (stream_generate fuel args stopping_criteria skip d0 w).1
      = Exn (UnboundLocalError "token")
    ∧ yielded (w_trace (stream_generate fuel args stopping_criteria skip d0 w).2)
      = yielded (w_trace w))
  ∧ (runtime_ok →
     check_repetition_penalty (repetition_penalty args) = Val () →
     max_tokens args = 0%Z →
     ∀ w0, ∃ w1, gen_next args GenCreated w0 = (Val GenStop, w1)).
Proof.
  intros Hfuel. split.
  - intros Hgen. destruct fuel as [|fuel]; [lia|].
    unfold stream_generate. bind_refl.
    match goal with
    | |- context [mbind _ (stream_loop _ _ _ _ _ _ _) ?w0] =>
        destruct (Hgen w0) as [w1 Hnext];
        pose proof (gen_next_trace args GenCreated w0) as Hframe
    end.
    rewrite Hnext in Hframe. cbn in Hframe. cbn [stream_loop].
    erewrite (bind_val (_ ≫= _)); cycle 1.
    { erewrite bind_val by exact Hnext. reflexivity. }
    cbn. bind_refl. erewrite bind_exn by reflexivity.
    cbn [fst snd w_trace with_session_event]. rewrite Hframe.
    split; [done|]. rewrite yielded_app. cbn. by rewrite app_nil_r.
  - intros Hrt Hcheck Hmax w0.
    by apply (gen_next_stops 0 GenCreated w0 Hrt Hcheck).
Qed.

End BudgetProperties.

(** ** The check of repetition_penalty *)

Section PenaltyCheckProperties.
Context {V : Type} `{!Scalar V} `{!Runtime V}.

Lemma check_repetition_penalty_rejects (rp : pyval V) :
  py_truthy rp = true → py_is_number rp = true →
  py_negative rp = true ∨ py_is_float rp = false →
  ∃ msg, check_repetition_penalty rp = Exn (ValueError msg).
Proof.
  intros Htruthy Hnum Hbad. unfold check_repetition_penalty.
  rewrite Htruthy. destruct rp; cbn in *; try done.
  - by eexists.
  - rewrite orb_true_r. by eexists.
  - destruct Hbad as [->|?]; [by eexists|done].
Qed.

(** C3, as the code has it. A non-zero number that is negative, or that
    is not a float (an int or a bool), makes the first resumption of
    [generate_step] raise [ValueError] before the cache is made and
    before any forward pass; a value that is false in a condition turns
    the penalty off and passes, and a float that is not negative
    passes; with penalty one the logits stay as they are. *)
Theorem generate_step_checks_penalty `{!ScalarUnit V} (args : gen_args V)
    (w : world V) :
  (py_truthy (repetition_penalty args) = true →
   py_is_number (repetition_penalty args) = true →
   py_negative (repetition_penalty args) = true
     ∨ py_is_float (repetition_penalty args) = false →
   ∃ msg, gen_next args GenCreated w = (Exn (ValueError msg), w))
  ∧ (py_truthy (repetition_penalty args) = false →
     check_repetition_penalty (repetition_penalty args) = Val ())
  ∧ (∀ x, repetition_penalty args = PyFloat x → s_ltb x s_zero = false →
     check_repetition_penalty (repetition_penalty args) = Val ())
  ∧ (∀ logits context, apply_repetition_penalty logits context s_one = logits).
Proof.
  split; [|split; [|split]].
  - intros Htruthy Hnum Hbad.
    destruct (check_repetition_penalty_rejects _ Htruthy Hnum Hbad) as [msg Hmsg].
    exists msg. cbn. unfold gen_start. rewrite Hmsg.
    by erewrite bind_exn by reflexivity.
  - intros Hfalsy. unfold check_repetition_penalty. by rewrite Hfalsy.
  - intros x -> Hlt. unfold check_repetition_penalty. cbn. rewrite Hlt. cbn.
    by destruct (negb _).
  - apply apply_repetition_penalty_one_id.
Qed.

End PenaltyCheckProperties.

(** * The properties on runs of the small runtime *)

Lemma Toy_runtime_ok : runtime_ok (V := Q).
Proof.
  split.
  - intros ids cache. eexists. split; [reflexivity|done].
  - intros y kwargs cache. eexists. split; [reflexivity|done].
  - intros rng logits (row & -> & _). by exists 0.
  - intros rng logits p t (row & -> & _). by exists 0.
Qed.

(** A session that meets the stop token [2] after two emitted tokens. *)
Lemma stream_generate_stops_witness :
  let run :=
    stream_generate 10 (Toy.args [1; 2; 3; 4; 5; 6; 7; 8; 9; 9] 5 PyNone (Some 20%Z))
      (StoppingCriteria_call (StoppingCriteria_init (OneId 2) None)) []
      Toy.detokenizer0 Toy.world0 in
  ∃ steps final,
    run.1 = Val ()
    ∧ w_trace run.2 = blocks steps ++ [EvStopCheck 2 true; EvFinalize; EvYield final]
    ∧ StoppingCriteria_call (StoppingCriteria_init (OneId 2) None) 2 = true
    ∧ steps_ok (StoppingCriteria_call (StoppingCriteria_init (OneId 2) None)) []
        (detok_reset Toy.detokenizer0) 0
        (Toy.args [1; 2; 3; 4; 5; 6; 7; 8; 9; 9] 5 PyNone (Some 20%Z)) steps
    ∧ (generated_tokens (S (length steps))
         (Toy.args [1; 2; 3; 4; 5; 6; 7; 8; 9; 9] 5 PyNone (Some 20%Z))
         GenCreated Toy.world0).1
      = Val (steps.*1 ++ [2])
    ∧ text final
      = detok_last_segment
          (detok_finalize (detok_feed [] (detok_reset Toy.detokenizer0) steps.*1))
    ∧ token final = Some 2
    ∧ generation_tokens final = length steps + 1
    ∧ checked (w_trace run.2) = steps.*1 ++ [2]
    ∧ added (w_trace run.2) = steps.*1
    ∧ yielded (w_trace run.2) = steps.*2 ++ [final].
Proof.
  apply (proj2 (proj2 (stream_generate_stops
                  (Toy.args [1; 2; 3; 4; 5; 6; 7; 8; 9; 9] 5 PyNone (Some 20%Z))
                  (StoppingCriteria_call (StoppingCriteria_init (OneId 2) None)) []
                  10 Toy.detokenizer0 Toy.world0 eq_refl)) 2).
  vm_compute. do 6 apply list_elem_of_further. apply list_elem_of_here.
Defined.

(** C1 does not hold as stated. In the session above the generator
    yields [0], [1] and then the stop token [2]: two tokens come strictly
    before the stop token and two step records are yielded, but the last
    record surfaces the stop token in its [token] field and reports three
    generated tokens. *)
Lemma final_record_counts_stop_token :
  (generated_tokens 3 (Toy.args [1; 2; 3; 4; 5; 6; 7; 8; 9; 9] 5 PyNone (Some 20%Z))
     GenCreated Toy.world0).1
  = Val [0; 1; 2]
  ∧ StoppingCriteria_call (StoppingCriteria_init (OneId 2) None) 2 = true
  ∧ ∃ step0 step1 final,
      yielded
        (w_trace
           (stream_generate 10
              (Toy.args [1; 2; 3; 4; 5; 6; 7; 8; 9; 9] 5 PyNone (Some 20%Z))
              (StoppingCriteria_call (StoppingCriteria_init (OneId 2) None)) []
              Toy.detokenizer0 Toy.world0).2)
      = [step0; step1; final]
      ∧ token step0 = Some 0 ∧ generation_tokens step0 = 1
      ∧ token step1 = Some 1 ∧ generation_tokens step1 = 2
      ∧ token final = Some 2 ∧ generation_tokens final = 3.
Proof.
  split; [reflexivity|]. split; [reflexivity|].
  eexists _, _, _. split; [vm_compute; reflexivity|]. repeat split.
Qed.

(** A prompt of ten tokens and a budget of five, nothing ever matching. *)
Lemma stream_generate_five_of_ten_witness :
  ∃ steps final w',
    stream_generate 6 (Toy.args [1; 2; 3; 4; 5; 6; 7; 8; 9; 9] 5 PyNone (Some 20%Z))
      (λ _, false) [] Toy.detokenizer0 Toy.world0 = (Val (), w')
    ∧ w_trace w' = blocks steps ++ [EvFinalize; EvYield final]
    ∧ yielded (w_trace w') = steps.*2 ++ [final]
    ∧ length steps = 5
    ∧ length (yielded (w_trace w')) = 6
    ∧ generation_tokens final = 5
    ∧ prompt_tokens final = 10
    ∧ steps_ok (λ _, false) [] (detok_reset Toy.detokenizer0) 0
        (Toy.args [1; 2; 3; 4; 5; 6; 7; 8; 9; 9] 5 PyNone (Some 20%Z)) steps.
Proof.
  apply (stream_generate_five_of_ten
           (Toy.args [1; 2; 3; 4; 5; 6; 7; 8; 9; 9] 5 PyNone (Some 20%Z))
           (λ _, false) [] 6 Toy.detokenizer0 Toy.world0).
  - exact Toy_runtime_ok.
  - reflexivity.
  - reflexivity.
  - reflexivity.
  - intros t. reflexivity.
  - lia.
  - reflexivity.
Defined.

(** The penalty [-1.0] and the int [1] are refused before anything runs;
    [None] and the float [1.0] pass. *)
Lemma generate_step_checks_penalty_witness :
  (∃ msg, gen_next (Toy.args [1; 2] 5 (PyFloat (-1)%Q) None) GenCreated Toy.world0
          = (Exn (ValueError msg), Toy.world0))
  ∧ (∃ msg, gen_next (Toy.args [1; 2] 5 (PyInt 1) None) GenCreated Toy.world0
            = (Exn (ValueError msg), Toy.world0))
  ∧ check_repetition_penalty (PyNone : pyval Q) = Val ()
  ∧ check_repetition_penalty (PyFloat 1%Q) = Val ()
  ∧ apply_repetition_penalty [[1; -2; 3]%Q] [1; 2] 1%Q = [[1; -2; 3]%Q].
Proof.
  split; [|split; [|split; [|split]]].
  - apply (proj1 (generate_step_checks_penalty
                    (Toy.args [1; 2] 5 (PyFloat (-1)%Q) None) Toy.world0)).
    + reflexivity.
    + reflexivity.
    + left. reflexivity.
  - apply (proj1 (generate_step_checks_penalty
                    (Toy.args [1; 2] 5 (PyInt 1) None) Toy.world0)).
    + reflexivity.
    + reflexivity.
    + right. reflexivity.
  - apply (proj1 (proj2 (generate_step_checks_penalty
                           (Toy.args [1; 2] 5 PyNone None) Toy.world0))).
    reflexivity.
  - apply (proj1 (proj2 (proj2 (generate_step_checks_penalty
                                  (Toy.args [1; 2] 5 (PyFloat 1%Q) None)
                                  Toy.world0))) 1%Q).
    + reflexivity.
    + reflexivity.
  - exact (proj2 (proj2 (proj2 (generate_step_checks_penalty
                                  (Toy.args [1; 2] 5 (PyFloat 1%Q) None)
                                  Toy.world0))) [[1; -2; 3]%Q] [1; 2]).
Defined.

(** C3 does not hold as stated: the empty string is not a number, and the
    generator starts and yields a token; the string ["abc"] stops it with
    a [TypeError], not a [ValueError]. *)
Lemma generate_step_accepts_empty_string :
  py_is_number (PyStr EmptyString : pyval Q) = false
  ∧ (∃ tok lp g w',
       gen_next (Toy.args [1; 2] 5 (PyStr EmptyString) None) GenCreated Toy.world0
       = (Val (GenYield tok lp g), w'))
  ∧ py_is_number (PyStr "abc" : pyval Q) = false
  ∧ gen_next (Toy.args [1; 2] 5 (PyStr "abc") None) GenCreated Toy.world0
    = (Exn (TypeError "'<' not supported between instances of 'str' and 'int'"),
       Toy.world0).
Proof.
  split; [reflexivity|]. split; [|split; reflexivity].
  eexists _, _, _, _. vm_compute. reflexivity.
Qed.



(** A session with the penalty on and a window of two tokens, and the
    step from the history [3, 9] that samples [3]. *)
Lemma repetition_context_bounded_witness :
  (∀ context,
     EvPenalty context
       ∈ w_log (stream_generate 10
                  (Toy.args [1; 2; 3; 4; 5; 6; 7; 8; 9; 9] 5 (PyFloat (3 # 2)%Q)
                     (Some 2%Z))
                  (λ _, false) [] Toy.detokenizer0 Toy.world0).2 →
     (Z.of_nat (length context) ≤ 2)%Z)
  ∧ ∃ logprobs cache' context' w',
      _step (Toy.args [1; 2; 3; 4; 5; 6; 7; 8; 9; 9] 5 (PyFloat (3 # 2)%Q) (Some 2%Z))
        [2] KwNone 0 [3; 9] Toy.world0
      = (Val ([3], logprobs, cache', context'), w')
      ∧ context' = [9; 3].
Proof.
  pose proof (repetition_context_bounded 10
                (Toy.args [1; 2; 3; 4; 5; 6; 7; 8; 9; 9] 5 (PyFloat (3 # 2)%Q)
                   (Some 2%Z))
                (λ _, false) [] Toy.detokenizer0 Toy.world0 2
                eq_refl eq_refl) as (Hbound & Hfifo & _).
  split; [apply Hbound; lia|].
  set (run := _step _ _ _ _ _ _).
  destruct run as [r w'] eqn:Hrun. subst run.
  pose proof Hrun as Hval. vm_compute in Hval. injection Hval as <- <-.
  eexists _, _, _, _. split; [reflexivity|].
  apply (Hfifo eq_refl eq_refl _ _ _ _ _ _ _ _ Hrun).
Defined.

(** C5 does not hold as stated: [repetition_context_size = 0] is set,
    but the two conditions [if repetition_context_size:] take it for
    unset and nothing is trimmed. With a prompt of ten tokens the
    penalty sees the whole prompt and every token sampled since,
    contexts of ten to fourteen tokens. *)
Lemma repetition_context_size_zero_untrimmed :
  repetition_context_size
    (Toy.args [1; 2; 3; 4; 5; 6; 7; 8; 9; 9] 5 (PyFloat (3 # 2)%Q) (Some 0%Z))
  = Some 0%Z
  ∧ w_log (stream_generate 10
             (Toy.args [1; 2; 3; 4; 5; 6; 7; 8; 9; 9] 5 (PyFloat (3 # 2)%Q)
                (Some 0%Z))
             (λ _, false) [] Toy.detokenizer0 Toy.world0).2
    = [EvMakeCache; EvPrefill;
       EvDecode; EvPenalty [1; 2; 3; 4; 5; 6; 7; 8; 9; 9];
       EvDecode; EvPenalty [1; 2; 3; 4; 5; 6; 7; 8; 9; 9; 1];
       EvDecode; EvPenalty [1; 2; 3; 4; 5; 6; 7; 8; 9; 9; 1; 2];
       EvDecode; EvPenalty [1; 2; 3; 4; 5; 6; 7; 8; 9; 9; 1; 2; 3];
       EvDecode; EvPenalty [1; 2; 3; 4; 5; 6; 7; 8; 9; 9; 1; 2; 3; 4];
       EvClearCache]
  ∧ ¬ (Z.of_nat (length [1; 2; 3; 4; 5; 6; 7; 8; 9; 9]) ≤ 0)%Z.
Proof.
  split; [reflexivity|]. split; [vm_compute; reflexivity|]. cbn. lia.
Qed.

(** The penalty [2] on a context with a repeated token: each listed
    column is scaled once. *)
Example apply_repetition_penalty_example :
  apply_repetition_penalty [[4; -3; 5; 0]%Q] [1; 0; 1] 2%Q
  = [[(4 / 2)%Q; (-3 * 2)%Q; 5%Q; 0%Q]].
Proof. reflexivity. Qed.

Lemma apply_repetition_penalty_one_witness :
  apply_repetition_penalty [[4; -3; 5; 0]%Q] [1; 0; 1] 1%Q = [[4; -3; 5; 0]%Q].
Proof.
  assert (Hcontext : [1; 0; 1] ≠ []) by discriminate.
  exact (apply_repetition_penalty_one [[4; -3; 5; 0]%Q] [1; 0; 1] Hcontext).
Defined.

(** Greedy sampling on a row whose greatest logit occurs twice, with a
    bias of [2] on token [2] and of [-1] on token [0]: the adjusted row
    is [0, 3, 4, 4], and token [2] is returned, which without the bias
    would be token [1]. *)
Lemma sample_greedy_witness :
  ∃ tokens logprobs,
    (∀ w, sample {| input_ids := [[1; 2]]; max_tokens := 5; temperature := 0%Q;
                    repetition_penalty := PyNone; repetition_context_size := None;
                    top_p := 1%Q; logit_bias := Some [(2, 2%Q); (0, (-1)%Q)] |}
            [[1; 3; 2; 4]%Q] w
          = (Val (tokens, logprobs), w))
    ∧ Forall2 (λ row i,
        ∃ x, bias_adjusted (Some [(2, 2%Q); (0, (-1)%Q)]) row i = Some x
             ∧ (∀ j y, bias_adjusted (Some [(2, 2%Q); (0, (-1)%Q)]) row j = Some y →
                  s_ltb x y = false)
             ∧ (∀ j y, j < i →
                  bias_adjusted (Some [(2, 2%Q); (0, (-1)%Q)]) row j = Some y →
                  s_ltb y x = true)) [[1; 3; 2; 4]%Q] tokens.
Proof.
  apply (sample_greedy
           {| input_ids := [[1; 2]]; max_tokens := 5; temperature := 0%Q;
              repetition_penalty := PyNone; repetition_context_size := None;
              top_p := 1%Q; logit_bias := Some [(2, 2%Q); (0, (-1)%Q)] |}
           [[1; 3; 2; 4]%Q]).
  - reflexivity.
  - repeat constructor. discriminate.
  - apply (bool_decide_unpack _). by vm_compute.
Defined.

(** The run of the same call: token [2], the first of the two greatest
    adjusted logits. *)
Example sample_greedy_biased_run :
  (sample {| input_ids := [[1; 2]]; max_tokens := 5; temperature := 0%Q;
             repetition_penalty := PyNone; repetition_context_size := None;
             top_p := 1%Q; logit_bias := Some [(2, 2%Q); (0, (-1)%Q)] |}
     [[1; 3; 2; 4]%Q] Toy.world0).1
  = Val ([2], [[(1 + -1)%Q; 3%Q; (2 + 2)%Q; 4%Q]]).
Proof. reflexivity. Qed.

Example sample_greedy_example :
  (sample (Toy.args [1; 2] 5 PyNone None) [[1; 3; 3; 2]%Q] Toy.world0).1
  = Val ([1], [[1; 3; 3; 2]%Q]).
Proof. reflexivity. Qed.

(** [reset] with one id, and with none on criteria whose tokenizer is
    configured with two. *)
Lemma StoppingCriteria_reset_replaces_witness :
  (∃ self',
     StoppingCriteria_reset
       (StoppingCriteria_init (Ids [7]) (Some {| tk_eos_token_ids := Ids [1; 2] |}))
       (Some (OneId 5)) = Val self'
     ∧ eos_token_ids self' = [5])
  ∧ (∃ self',
       StoppingCriteria_reset
         (StoppingCriteria_init (Ids [7]) (Some {| tk_eos_token_ids := Ids [1; 2] |}))
         None = Val self'
       ∧ eos_token_ids self' = [1; 2])
  ∧ StoppingCriteria_reset (StoppingCriteria_init (Ids [7]) None) None
    = Exn (AttributeError "'NoneType' object has no attribute 'eos_token_ids'").
Proof.
  split; [|split].
  - apply (proj1 (StoppingCriteria_reset_replaces
                    (StoppingCriteria_init (Ids [7])
                       (Some {| tk_eos_token_ids := Ids [1; 2] |})))
             (OneId 5)).
  - apply (proj1 (proj2 (StoppingCriteria_reset_replaces
                           (StoppingCriteria_init (Ids [7])
                              (Some {| tk_eos_token_ids := Ids [1; 2] |}))))
             {| tk_eos_token_ids := Ids [1; 2] |}).
    reflexivity.
  - apply (proj2 (proj2 (proj2 (StoppingCriteria_reset_replaces
                                  (StoppingCriteria_init (Ids [7]) None))))).
    reflexivity.
Defined.

(** C9 does not hold as stated: for a model configured with the stop id
    [7] and a tokenizer whose ids are [1, 2], the criteria [load_processor]
    creates stop on [7], and [reset()] leaves them stopping on [1] and [2]
    and no longer on [7], the id configured for the model; and [reset()]
    on criteria without a tokenizer replaces nothing and raises. *)
Lemma reset_takes_tokenizer_ids :
  eos_token_ids
    (load_processor_criteria (Some (OneId 7)) {| tk_eos_token_ids := Ids [1; 2] |})
  = [7]
  ∧ StoppingCriteria_call
      (load_processor_criteria (Some (OneId 7)) {| tk_eos_token_ids := Ids [1; 2] |})
      7 = true
  ∧ (∃ self',
       StoppingCriteria_reset
         (load_processor_criteria (Some (OneId 7))
            {| tk_eos_token_ids := Ids [1; 2] |}) None = Val self'
       ∧ eos_token_ids self' = [1; 2]
       ∧ StoppingCriteria_call self' 7 = false)
  ∧ StoppingCriteria_reset (StoppingCriteria_init (OneId 7) None) None
    = Exn (AttributeError "'NoneType' object has no attribute 'eos_token_ids'").
Proof.
  split; [reflexivity|]. split; [reflexivity|]. split; [|reflexivity].
  eexists. split; [reflexivity|]. split; reflexivity.
Qed.

(** A budget of zero tokens: no record, and the error on [token]. *)
Lemma stream_generate_no_token_witness :
  (stream_generate 3 (Toy.args [1; 2; 3] 0 PyNone (Some 20%Z)) (λ _, false) []
     Toy.detokenizer0 Toy.world0).1
  = Exn (UnboundLocalError "token")
  ∧ yielded (w_trace (stream_generate 3 (Toy.args [1; 2; 3] 0 PyNone (Some 20%Z))
                        (λ _, false) [] Toy.detokenizer0 Toy.world0).2)
    = yielded (w_trace Toy.world0).
Proof.
  pose proof (stream_generate_no_token (Toy.args [1; 2; 3] 0 PyNone (Some 20%Z))
                (λ _, false) [] 3 Toy.detokenizer0 Toy.world0) as Hno.
  destruct Hno as [Hraise Hstop]; [lia|].
  apply Hraise. apply Hstop.
  - exact Toy_runtime_ok.
  - reflexivity.
  - reflexivity.
Defined.

(** The same row with a bias of [5] on token [3]: the bias decides. *)
Example sample_greedy_bias_example :
  (sample {| input_ids := [[1; 2]]; max_tokens := 5; temperature := 0%Q;
             repetition_penalty := PyNone; repetition_context_size := None;
             top_p := 1%Q; logit_bias := Some [(3, 5%Q)] |}
     [[1; 3; 3; 2]%Q] Toy.world0).1
  = Val ([3], [[1; 3; 3; (2 + 5)%Q]%Q]).
Proof. reflexivity. Qed.

Section ShardProperties.
Context {T : Type} (nbytes : T → N).

Lemma dict_set_fresh {A} (k : string) (v : A) d :
  k ∉ d.*1 → dict_set k v d = d ++ [(k, v)].
Proof.
  induction d as [|[k' v'] d IH]; [done|]. cbn. intros Hk.
  apply not_elem_of_cons in Hk as [Hne Hk].
  destruct (String.eqb_spec k' k) as [->|_]; [done|]. by rewrite IH.
Qed.

Lemma total_nbytes_app (d1 d2 : list (string * T)) :
  total_nbytes nbytes (d1 ++ d2) = (total_nbytes nbytes d1 + total_nbytes nbytes d2)%N.
Proof. induction d1 as [|kv d1 IH]; cbn; [done|]. unfold total_nbytes in *. rewrite IH. lia. Qed.

Lemma total_nbytes_dict_set k v (d : list (string * T)) :
  (total_nbytes nbytes (dict_set k v d) ≤ total_nbytes nbytes d + nbytes v)%N.
Proof.
  induction d as [|[k' v'] d IH]; cbn; [lia|].
  destruct (String.eqb k' k); cbn; unfold total_nbytes in *; lia.
Qed.

Lemma dict_set_length {A} k (v : A) d : 1 ≤ length (dict_set k v d).
Proof. destruct d as [|[k' v'] d]; cbn; [lia|]. destruct (String.eqb k' k); cbn; lia. Qed.

Lemma dict_set_nonempty {A} k (v : A) d : dict_set k v d ≠ [].
Proof. destruct d as [|[k' v'] d]; cbn; [done|]. by destruct (String.eqb k' k). Qed.

Lemma shards_state_snoc limit ws kv :
  shards_state nbytes limit (ws ++ [kv])
  = make_shards_step nbytes limit (shards_state nbytes limit ws) kv.
Proof. unfold shards_state. by rewrite foldl_app. Qed.

Lemma make_shards_state ws gb :
  make_shards nbytes ws gb
  = let '(shards, shard, _) := shards_state nbytes (Z.shiftl gb 30) ws in shards ++ [shard].
Proof. done. Qed.

Lemma shards_state_concat limit ws :
  NoDup ws.*1 →
  let '(shards, shard, _) := shards_state nbytes limit ws in
  concat shards ++ shard = ws.
Proof.
  induction ws as [|[k v] ws IH] using rev_ind; [done|].
  rewrite fmap_app, NoDup_app. intros (Hnd & Hfresh & _).
  rewrite shards_state_snoc. specialize (IH Hnd).
  destruct (shards_state nbytes limit ws) as [[shards shard] size].
  assert (k ∉ ws.*1) as Hk.
  { intros Hin. apply (Hfresh k Hin). cbn. apply list_elem_of_here. }
  unfold make_shards_step. cbn [fst snd].
  destruct (_ <? _)%Z.
  - cbn. rewrite concat_app. cbn. rewrite app_nil_r, IH. done.
  - rewrite dict_set_fresh; [by rewrite app_assoc, IH|].
    intros Hin. apply Hk. rewrite <- IH, fmap_app. apply elem_of_app. by right.
Qed.

Lemma shards_state_bounded limit ws :
  let '(shards, shard, size) := shards_state nbytes limit ws in
  Forall (λ s, length s ≤ 1 ∨ (Z.of_N (total_nbytes nbytes s) ≤ limit)%Z) shards
  ∧ (total_nbytes nbytes shard ≤ size)%N
  ∧ (length shard ≤ 1 ∨ (Z.of_N size ≤ limit)%Z).
Proof.
  induction ws as [|[k v] ws IH] using rev_ind.
  { cbn. split; [constructor|]. split; [done|]. left. lia. }
  rewrite shards_state_snoc.
  destruct (shards_state nbytes limit ws) as [[shards shard] size].
  destruct IH as (Hall & Htot & Hlast).
  unfold make_shards_step. cbn [fst snd].
  destruct (Z.ltb_spec limit (Z.of_N (size + nbytes v))) as [Hlt|Hle].
  - split; [|split].
    + apply Forall_app. split; [done|]. constructor; [|constructor].
      destruct Hlast as [?|?]; [by left|right; lia].
    + cbn. lia.
    + left. cbn. lia.
  - split; [done|]. split; [|right; lia].
    pose proof (total_nbytes_dict_set k v shard). lia.
Qed.

Lemma shards_state_nonempty limit ws :
  let '(shards, shard, size) := shards_state nbytes limit ws in
  match ws with
  | [] => shards = [] ∧ shard = []
  | kv :: _ =>
      shard ≠ [] ∧ Forall (λ s, s ≠ []) (tail shards)
      ∧ match shards with
        | [] => ¬ (limit < Z.of_N (nbytes kv.2))%Z
        | s :: _ => s = [] ↔ (limit < Z.of_N (nbytes kv.2))%Z
        end
  end.
Proof.
  induction ws as [|[k v] ws IH] using rev_ind; [done|].
  rewrite shards_state_snoc.
  destruct ws as [|kv0 ws].
  { cbn. destruct (Z.ltb_spec limit (Z.of_N (0 + nbytes v))) as [Hlt|Hle]; cbn.
    - split; [done|]. split; [constructor|]. split; [lia|done].
    - split; [done|]. split; [constructor|]. lia. }
  change ((kv0 :: ws) ++ [(k, v)]) with (kv0 :: (ws ++ [(k, v)])).
  destruct (shards_state nbytes limit (kv0 :: ws)) as [[shards shard] size].
  destruct IH as (Hne & Hall & Hhead).
  unfold make_shards_step. cbn [fst snd].
  destruct (_ <? _)%Z.
  - split; [done|]. destruct shards as [|s shards]; cbn.
    + split; [constructor|]. split; [done|]. intros ?. done.
    + split; [|done]. apply Forall_app. split; [done|]. by constructor.
  - split; [apply dict_set_nonempty|]. done.
Qed.

Lemma make_shards_join (weights : list (string * T)) (max_file_size_gb : Z) :
  NoDup weights.*1 →
  concat (make_shards nbytes weights max_file_size_gb) = weights.
Proof.
  intros Hnd. rewrite make_shards_state.
  pose proof (shards_state_concat (Z.shiftl max_file_size_gb 30) weights Hnd) as H.
  destruct (shards_state nbytes _ weights) as [[shards shard] size].
  rewrite concat_app. cbn. by rewrite app_nil_r.
Qed.

Lemma NoDup_concat_lookup {A} (ls : list (list A)) (i j : nat) (a b : list A) x :
  NoDup (concat ls) → ls !! i = Some a → ls !! j = Some b →
  x ∈ a → x ∈ b → i = j.
Proof.
  revert i j. induction ls as [|l ls IH]; intros i j Hnd Hi Hj Ha Hb; [done|].
  cbn in Hnd. apply NoDup_app in Hnd as (_ & Hdisj & Hnd).
  assert (∀ k c, ls !! k = Some c → x ∈ c → x ∈ concat ls) as Hin.
  { intros k c Hk Hc. apply list_elem_of_In, in_concat. exists c.
    split; apply list_elem_of_In; [by eapply list_elem_of_lookup_2|done]. }
  destruct i as [|i], j as [|j]; cbn in Hi, Hj.
  - done.
  - injection Hi as ->. exfalso. eapply Hdisj; [exact Ha|]. by eapply Hin.
  - injection Hj as ->. exfalso. eapply Hdisj; [exact Hb|]. by eapply Hin.
  - f_equal. by eapply IH.
Qed.

(** X1. [make_shards] loses nothing and splits nothing: for a dictionary
    of weights (distinct names), the shards, read in order, are the
    weights in their order, and no name lies in two shards. *)
Theorem make_shards_concat (weights : list (string * T)) (max_file_size_gb : Z) :
  NoDup weights.*1 →
  let shards := make_shards nbytes weights max_file_size_gb in
  concat shards = weights
  ∧ ∀ i j shard_i shard_j k,
      shards !! i = Some shard_i → shards !! j = Some shard_j →
      k ∈ shard_i.*1 → k ∈ shard_j.*1 → i = j.
Proof.
  intros Hnd shards.
  assert (concat shards = weights) as Hjoin by by apply make_shards_join.
  split; [done|]. intros i j shard_i shard_j k Hi Hj Hki Hkj.
  apply (NoDup_concat_lookup ((λ shard, shard.*1) <$> shards) i j
           shard_i.*1 shard_j.*1 k); [|by rewrite list_lookup_fmap, ?Hi, ?Hj..|done|done].
  replace (concat ((λ shard, shard.*1) <$> shards)) with (concat shards).*1.
  - by rewrite Hjoin.
  - clear. induction shards as [|shard shards IH]; [done|].
    cbn. by rewrite fmap_app, IH.
Qed.

(** X2. Every shard that holds two or more weights is within the size
    limit of [max_file_size_gb] GiB: a shard that exceeds the limit holds
    at most one weight. This needs no assumption on the limit, which may
    be 0 or negative. *)
Theorem make_shards_bounded (weights : list (string * T)) (max_file_size_gb : Z) :
  Forall (λ shard,
            length shard ≤ 1 ∨
            (Z.of_N (total_nbytes nbytes shard) ≤ max_file_size_gb * 2 ^ 30)%Z)
    (make_shards nbytes weights max_file_size_gb).
Proof.
  rewrite make_shards_state.
  pose proof (shards_state_bounded (Z.shiftl max_file_size_gb 30) weights) as H.
  destruct (shards_state nbytes _ weights) as [[shards shard] size].
  destruct H as (Hall & Htot & Hlast).
  rewrite Z.shiftl_mul_pow2 in * by lia.
  apply Forall_app. split.
  - eapply Forall_impl; [exact Hall|]. cbn. intros s [?|?]; [by left|right; lia].
  - constructor; [|constructor]. destruct Hlast; [by left|right; lia].
Qed.

(** X3. [make_shards] returns an empty shard in exactly one situation,
    and only as the first shard: when there are no weights, or when the
    first weight alone exceeds the limit (the empty shard open at that
    moment is closed before the weight is placed). *)
Theorem make_shards_empty_shard (weights : list (string * T))
    (max_file_size_gb : Z) (i : nat) :
  make_shards nbytes weights max_file_size_gb !! i = Some []
  ↔ i = 0
    ∧ match weights with
      | [] => True
      | kv :: _ => (max_file_size_gb * 2 ^ 30 < Z.of_N (nbytes kv.2))%Z
      end.
Proof.
  rewrite make_shards_state.
  pose proof (shards_state_nonempty (Z.shiftl max_file_size_gb 30) weights) as H.
  destruct (shards_state nbytes _ weights) as [[shards shard] size].
  rewrite Z.shiftl_mul_pow2 in * by lia.
  destruct weights as [|kv ws].
  { destruct H as [-> ->]. cbn. destruct i; cbn; [done|]. split; [done|]. by intros []. }
  destruct H as (Hne & Hall & Hhead).
  destruct shards as [|s shards]; cbn in *.
  - destruct i; cbn; [|split; [done|by intros []]].
    split; [|intros []; lia]. intros [= ?]. done.
  - destruct i; cbn.
    + rewrite <- Hhead. split; [by intros [= ->]|by intros [_ ->]].
    + split; [|by intros []]. intros Hi. exfalso.
      apply list_elem_of_lookup_2 in Hi. apply elem_of_app in Hi as [Hi|Hi].
      * by eapply (proj1 (Forall_forall _ _) Hall) in Hi.
      * apply list_elem_of_singleton in Hi. done.
Qed.

Lemma shards_state_fits limit ws :
  NoDup ws.*1 → (Z.of_N (total_nbytes nbytes ws) ≤ limit)%Z →
  shards_state nbytes limit ws = ([], ws, total_nbytes nbytes ws).
Proof.
  induction ws as [|[k v] ws IH] using rev_ind; [done|].
  rewrite fmap_app, NoDup_app, total_nbytes_app. cbn. intros (Hnd & Hfresh & _) Hle.
  rewrite shards_state_snoc, IH by (done || lia).
  unfold make_shards_step. cbn [fst snd].
  destruct (Z.ltb_spec limit (Z.of_N (total_nbytes nbytes ws + nbytes v))) as [?|_]; [lia|].
  rewrite dict_set_fresh.
  - do 2 f_equal. lia.
  - intros Hin. apply (Hfresh k Hin). apply list_elem_of_here.
Qed.

Lemma dict_get_elem {A} k (v : A) d :
  NoDup d.*1 → (k, v) ∈ d → dict_get k d = Some v.
Proof.
  induction d as [|[k' v'] d IH]; [by intros _ ?%elem_of_nil|].
  cbn. rewrite NoDup_cons. intros [Hk' Hnd] [[= -> ->]|Hin]%elem_of_cons.
  - by rewrite String.eqb_refl.
  - destruct (String.eqb_spec k' k) as [->|_]; [|by apply IH].
    exfalso. apply Hk'. apply list_elem_of_fmap. by exists (k, v).
Qed.

Lemma dict_get_omap {A} (g : string → option A) k name ks :
  k ∈ ks → g k = Some name →
  dict_get k (omap (λ k, (λ name, (k, name)) <$> g k) ks) = Some name.
Proof.
  intros Hin Hg. induction ks as [|k' ks IH]; [by apply elem_of_nil in Hin|].
  cbn. destruct (g k') as [n'|] eqn:Hg'; cbn.
  - destruct (String.eqb_spec k' k) as [->|Hne]; [congruence|].
    apply elem_of_cons in Hin as [->|Hin]; [done|]. by apply IH.
  - apply elem_of_cons in Hin as [->|Hin]; [congruence|]. by apply IH.
Qed.

Lemma omap_keys {A} (g : string → option A) ks :
  (∀ k, k ∈ ks → is_Some (g k)) →
  (omap (λ k, (λ name, (k, name)) <$> g k) ks).*1 = ks.
Proof.
  induction ks as [|k ks IH]; [done|]. intros Hall. cbn.
  destruct (Hall k) as [n Hn]; [apply list_elem_of_here|]. rewrite Hn. cbn.
  rewrite IH; [done|]. intros k' ?. apply Hall. by apply list_elem_of_further.
Qed.

Lemma map_shard_fresh name (shard : list (string * T)) wm :
  NoDup (wm.*1 ++ shard.*1) →
  map_shard name shard wm = wm ++ ((λ kv, (kv.1, name)) <$> shard).
Proof.
  unfold map_shard. revert wm.
  induction shard as [|[k v] shard IH]; intros wm Hnd; cbn; [by rewrite app_nil_r|].
  cbn in Hnd. rewrite dict_set_fresh.
  - rewrite IH; [by rewrite <- app_assoc|].
    rewrite fmap_app. cbn. by rewrite <- app_assoc.
  - apply NoDup_app in Hnd as (_ & Hfresh & _). intros Hin.
    apply (Hfresh k Hin). apply list_elem_of_here.
Qed.

Lemma shard_index_keys count i (shards : list (list (string * T))) :
  (shard_index count i shards).*1 = (concat shards).*1.
Proof.
  revert i. induction shards as [|shard shards IH]; intros i; cbn; [done|].
  rewrite !fmap_app, IH. f_equal. rewrite <- list_fmap_compose. done.
Qed.

Lemma write_shards_fresh count i (shards : list (list (string * T))) files wm :
  NoDup (wm.*1 ++ (concat shards).*1) →
  write_shards count i shards (files, wm)
  = (files ++ imap (λ j shard, (shard_file_name count (i + j), shard)) shards,
     wm ++ shard_index count i shards).
Proof.
  revert i files wm.
  induction shards as [|shard shards IH]; intros i files wm Hnd; cbn.
  { by rewrite !app_nil_r. }
  cbn in Hnd. rewrite fmap_app, app_assoc in Hnd.
  rewrite map_shard_fresh by (by apply NoDup_app in Hnd as [? _]).
  rewrite IH.
  - rewrite <- !app_assoc. cbn. rewrite Nat.add_0_r. do 3 f_equal.
    apply imap_ext. intros j s _. cbn. f_equal. f_equal. lia.
  - rewrite fmap_app, <- list_fmap_compose. exact Hnd.
Qed.

Lemma shard_index_elem count i (shards : list (list (string * T))) j shard k (v : T) :
  shards !! j = Some shard → (k, v) ∈ shard →
  (k, shard_file_name count (i + j)) ∈ shard_index count i shards.
Proof.
  revert i j. induction shards as [|s shards IH]; intros i j Hj Hin; [done|].
  cbn. apply elem_of_app. destruct j as [|j]; cbn in Hj.
  - left. injection Hj as ->. rewrite Nat.add_0_r.
    apply list_elem_of_fmap. by exists (k, v).
  - right. replace (i + S j) with (S i + j) by lia. by apply IH.
Qed.

Lemma save_weights_run (weights : list (string * T)) donate :
  NoDup weights.*1 →
  let shards := make_shards nbytes weights MAX_FILE_SIZE_GB in
  let index := shard_index (length shards) 0 shards in
  save_weights nbytes weights donate
  = {| shard_files := imap (λ j shard, (shard_file_name (length shards) j, shard)) shards;
       total_size := total_nbytes nbytes weights;
       weight_map :=
         omap (λ k, (λ name, (k, name)) <$> dict_get k index) (sorted_strings index.*1);
       caller_weights := if donate then [] else weights |}.
Proof.
  intros Hnd shards index. unfold save_weights. fold shards.
  rewrite write_shards_fresh.
  - done.
  - cbn. unfold shards. by rewrite make_shards_join.
Qed.

Lemma string_leb_total : Total (λ a b : string, Is_true (String.leb a b)).
Proof.
  intros a b. destruct (String.leb_total a b) as [->| ->]; [by left|by right].
Qed.

Lemma sorted_strings_Permutation ks : sorted_strings ks ≡ₚ ks.
Proof. apply merge_sort_Permutation. Qed.

Lemma sorted_strings_Sorted ks :
  Sorted (λ a b : string, String.leb a b = true) (sorted_strings ks).
Proof.
  rewrite <- (list_fmap_id (sorted_strings ks)).
  eapply Sorted_fmap; [|apply Sorted_merge_sort, string_leb_total].
  intros a b. apply Is_true_true_1.
Qed.

Lemma shard_index_NoDup (weights : list (string * T)) count i gb :
  NoDup weights.*1 →
  NoDup (shard_index count i (make_shards nbytes weights gb)).*1.
Proof. intros Hnd. by rewrite shard_index_keys, make_shards_join. Qed.

(** X4. The index [save_weights] writes maps every weight to a file
    that was written and that holds this weight, with its tensor. *)
Theorem save_weights_index (weights : list (string * T)) (donate_weights : bool)
    (k : string) (v : T) :
  NoDup weights.*1 → (k, v) ∈ weights →
  let saved := save_weights nbytes weights donate_weights in
  ∃ shard_name shard,
    dict_get k (weight_map saved) = Some shard_name
    ∧ (shard_name, shard) ∈ shard_files saved
    ∧ (k, v) ∈ shard.
Proof.
  intros Hnd Hin. cbn zeta. rewrite save_weights_run by done. cbn.
  set (shards := make_shards nbytes weights MAX_FILE_SIZE_GB).
  assert (∃ j shard, shards !! j = Some shard ∧ (k, v) ∈ shard) as (j & shard & Hj & Hkv).
  { rewrite <- (make_shards_join weights MAX_FILE_SIZE_GB Hnd) in Hin.
    fold shards in Hin. apply list_elem_of_In, in_concat in Hin as (shard & Hs & Hkv).
    apply list_elem_of_In in Hs, Hkv.
    apply list_elem_of_lookup_1 in Hs as [j Hj]. eauto. }
  exists (shard_file_name (length shards) j), shard. split; [|split; [|done]].
  - pose proof (shard_index_elem (length shards) 0 shards j shard k v Hj Hkv) as Hix.
    apply dict_get_omap.
    + rewrite sorted_strings_Permutation. apply list_elem_of_fmap.
      by exists (k, shard_file_name (length shards) (0 + j)).
    + apply dict_get_elem; [|done]. by apply shard_index_NoDup.
  - apply list_elem_of_lookup_2 with j. rewrite list_lookup_imap, Hj. done.
Qed.

(** X5. The [weight_map] of the index lists exactly the names of the
    weights, each once, in increasing order, and [total_size] is the sum
    of the sizes of the tensors in the files written. *)
Theorem save_weights_index_sorted (weights : list (string * T))
    (donate_weights : bool) :
  NoDup weights.*1 →
  let saved := save_weights nbytes weights donate_weights in
  Sorted (λ a b : string, String.leb a b = true) (weight_map saved).*1
  ∧ (weight_map saved).*1 ≡ₚ weights.*1
  ∧ total_size saved = total_nbytes nbytes (concat (shard_files saved).*2).
Proof.
  intros Hnd. cbn zeta. rewrite save_weights_run by done. cbn.
  set (shards := make_shards nbytes weights MAX_FILE_SIZE_GB).
  set (index := shard_index (length shards) 0 shards).
  rewrite omap_keys.
  - split; [apply sorted_strings_Sorted|]. split.
    + rewrite sorted_strings_Permutation. unfold index.
      rewrite shard_index_keys. unfold shards. by rewrite make_shards_join.
    + rewrite fmap_imap. 
      replace (imap _ shards) with shards.
      * unfold shards. by rewrite make_shards_join.
      * clear. generalize (length shards). intros n. 
        rewrite <- (imap_ext (λ _ s, s)); [|done].
        induction shards as [|? ? IH]; cbn; [done|]. f_equal. done.
  - intros k Hk. rewrite sorted_strings_Permutation in Hk.
    apply list_elem_of_fmap in Hk as ([k' name] & -> & Hk). cbn.
    exists name. apply dict_get_elem; [|done]. by apply shard_index_NoDup.
Qed.

(** X6. Weights of at most 5 GiB in total go to the single file
    [model.safetensors], in their order, and the index maps every weight
    to that file. *)
Theorem save_weights_single_file (weights : list (string * T))
    (donate_weights : bool) :
  NoDup weights.*1 →
  (Z.of_N (total_nbytes nbytes weights) ≤ 5 * 2 ^ 30)%Z →
  let saved := save_weights nbytes weights donate_weights in
  shard_files saved = [("model.safetensors", weights)]
  ∧ ∀ k v, (k, v) ∈ weights →
      dict_get k (weight_map saved) = Some "model.safetensors".
Proof.
  intros Hnd Hfit. cbn zeta. rewrite save_weights_run by done. cbn.
  assert (make_shards nbytes weights MAX_FILE_SIZE_GB = [weights]) as ->.
  { rewrite make_shards_state, shards_state_fits; [done..|].
    unfold MAX_FILE_SIZE_GB. rewrite Z.shiftl_mul_pow2 by lia. done. }
  cbn. split; [done|]. intros k v Hin. rewrite app_nil_r.
  assert (NoDup ((λ kv : string * T, (kv.1, "model.safetensors")) <$> weights).*1) as Hnd'.
  { by rewrite <- list_fmap_compose. }
  apply dict_get_omap.
  - rewrite sorted_strings_Permutation, <- list_fmap_compose.
    apply list_elem_of_fmap. by exists (k, v).
  - apply dict_get_elem; [done|]. apply list_elem_of_fmap. by exists (k, v).
Qed.

End ShardProperties.

Lemma pretty_N_char_digit d :
  (d < 10)%N →
  let c := Ascii.N_of_ascii (pretty_N_char d) in
  ((48 <=? c) && (c <=? 57))%N = true ∧ (c - 48)%N = d.
Proof.
  intros Hd. rewrite <- (N2Nat.id d). assert (N.to_nat d < 10) as Hn by lia.
  revert Hn. generalize (N.to_nat d). clear. intros n Hn.
  do 10 (destruct n as [|n]; [by vm_compute|]). lia.
Qed.

Lemma string_app_assoc (s1 s2 s3 : string) :
  (s1 +:+ s2) +:+ s3 = s1 +:+ (s2 +:+ s3).
Proof.
  induction s1 as [|c s1 IH]; [done|].
  change (String c ((s1 +:+ s2) +:+ s3) = String c (s1 +:+ (s2 +:+ s3))).
  by rewrite IH.
Qed.

Lemma pretty_N_go_app x s : pretty_N_go x s = pretty_N_go x EmptyString +:+ s.
Proof.
  revert s. induction (N.lt_wf_0 x) as [x _ IH]. intros s.
  destruct (decide (x = 0%N)) as [->|Hx]; [by rewrite !pretty_N_go_0|].
  assert (x `div` 10 < x)%N as Hlt by (apply N.div_lt; lia).
  rewrite !(pretty_N_go_step x) by lia.
  rewrite (IH _ Hlt), (IH _ Hlt (String _ EmptyString)).
  by rewrite string_app_assoc.
Qed.

Lemma read_digits_pretty_go x acc t :
  ∃ n, read_digits acc (pretty_N_go x EmptyString +:+ t)
       = read_digits (acc * 10 ^ n + x) t.
Proof.
  revert acc t. induction (N.lt_wf_0 x) as [x _ IH]. intros acc t.
  destruct (decide (x = 0%N)) as [->|Hx].
  { exists 0%N. rewrite pretty_N_go_0. cbn. f_equal. lia. }
  assert (x `div` 10 < x)%N as Hlt by (apply N.div_lt; lia).
  rewrite pretty_N_go_step, pretty_N_go_app, string_app_assoc by lia.
  destruct (IH _ Hlt acc
    (String (pretty_N_char (x `mod` 10)) EmptyString +:+ t)) as [n ->].
  exists (n + 1)%N.
  change (String ?c EmptyString +:+ t) with (String c t). cbn [read_digits].
  destruct (pretty_N_char_digit (x `mod` 10)%N) as [-> ->].
  { apply N.mod_lt. lia. }
  f_equal. rewrite N.pow_add_r. pose proof (N.div_mod x 10). lia.
Qed.

Lemma read_digits_zeros n t : read_digits 0 (zeros n +:+ t) = read_digits 0 t.
Proof.
  induction n as [|n IH]; [done|].
  change (zeros (S n) +:+ t) with (String "0"%char (zeros n +:+ t)).
  cbn. exact IH.
Qed.

Lemma read_digits_format n t :
  read_digits 0 (format_05d n +:+ String "-"%char t) = N.of_nat n.
Proof.
  unfold format_05d. rewrite string_app_assoc, read_digits_zeros.
  unfold pretty, pretty_nat, pretty, pretty_N.
  destruct (decide (N.of_nat n = 0%N)) as [->|Hn]; [done|].
  destruct (read_digits_pretty_go (N.of_nat n) 0 (String "-"%char t)) as [k ->].
  cbn [read_digits]. change (N_of_ascii "-") with 45%N. cbn [N.leb N.compare Pos.compare Pos.compare_cont andb].
  lia.
Qed.

Lemma shard_file_name_inj count i j :
  1 < count → shard_file_name count i = shard_file_name count j → i = j.
Proof.
  intros Hc. unfold shard_file_name. rewrite bool_decide_eq_true_2 by done.
  intros Heq%String.app_inj. apply (f_equal (read_digits 0)) in Heq.
  change ("-of-" +:+ ?s) with (String "-"%char ("of-" +:+ s)) in Heq.
  rewrite !read_digits_format in Heq. lia.
Qed.

Section FileNames.
Context {T : Type} (nbytes : T → N).

Lemma write_shards_files count i (shards : list (list (string * T))) st :
  (write_shards count i shards st).1
  = st.1 ++ imap (λ j shard, (shard_file_name count (i + j), shard)) shards.
Proof.
  revert i st. induction shards as [|shard shards IH]; intros i st; cbn.
  { by rewrite app_nil_r. }
  rewrite IH. cbn. rewrite <- app_assoc. cbn. rewrite Nat.add_0_r. do 2 f_equal.
  apply imap_ext. intros j s _. cbn. do 2 f_equal. lia.
Qed.

(** X7. [save_weights] never writes two shards to one file name: the
    names of the files written are pairwise distinct, however many shards
    there are. *)
Theorem save_weights_file_names (weights : list (string * T))
    (donate_weights : bool) :
  NoDup (shard_files (save_weights nbytes weights donate_weights)).*1.
Proof.
  unfold save_weights.
  set (shards := make_shards nbytes weights MAX_FILE_SIZE_GB).
  pose proof (write_shards_files (length shards) 0 shards ([], [])) as Hfiles.
  destruct (write_shards _ _ _ _) as [files wm]. cbn in *. subst files.
  rewrite fmap_imap.
  rewrite (imap_ext _ (λ j _, shard_file_name (length shards) j)) by done.
  rewrite imap_seq_0.
  destruct (decide (1 < length shards)) as [Hc|Hc].
  - eapply NoDup_fmap_2_strong; [|apply NoDup_seq].
    intros i j _ _. by apply shard_file_name_inj.
  - destruct shards as [|s0 [|s1 shards]]; cbn in *; [constructor| |lia].
    apply NoDup_singleton.
Qed.

End FileNames.

Lemma make_shards_concat_witness :
  let shards := make_shards (λ n : N, n) example_weights 5 in
  concat shards = example_weights
  ∧ ∀ i j shard_i shard_j k,
      shards !! i = Some shard_i → shards !! j = Some shard_j →
      k ∈ shard_i.*1 → k ∈ shard_j.*1 → i = j.
Proof.
  apply (make_shards_concat (λ n : N, n) example_weights 5).
  apply (bool_decide_unpack _). by vm_compute.
Defined.

Lemma save_weights_index_witness :
  let saved := save_weights (λ n : N, n) example_weights false in
  ∃ shard_name shard,
    dict_get "norm.weight" (weight_map saved) = Some shard_name
    ∧ (shard_name, shard) ∈ shard_files saved
    ∧ ("norm.weight", 4096%N) ∈ shard.
Proof.
  apply (save_weights_index (λ n : N, n) example_weights false "norm.weight" 4096%N).
  - apply (bool_decide_unpack _). by vm_compute.
  - apply (bool_decide_unpack _). by vm_compute.
Defined.

Lemma save_weights_index_sorted_witness :
  let saved := save_weights (λ n : N, n) example_weights true in
  Sorted (λ a b : string, String.leb a b = true) (weight_map saved).*1
  ∧ (weight_map saved).*1 ≡ₚ example_weights.*1
  ∧ total_size saved = total_nbytes (λ n : N, n) (concat (shard_files saved).*2).
Proof.
  apply (save_weights_index_sorted (λ n : N, n) example_weights true).
  apply (bool_decide_unpack _). by vm_compute.
Defined.

Lemma save_weights_single_file_witness :
  let saved := save_weights (λ n : N, n) small_weights false in
  shard_files saved = [("model.safetensors", small_weights)]
  ∧ ∀ k v, (k, v) ∈ small_weights →
      dict_get k (weight_map saved) = Some "model.safetensors".
Proof.
  apply (save_weights_single_file (λ n : N, n) small_weights false).
  - apply (bool_decide_unpack _). by vm_compute.
  - by vm_compute.
Defined.

Section ConfigProperties.

Lemma dict_get_set_eq {A} k (v : A) d : dict_get k (dict_set k v d) = Some v.
Proof.
  induction d as [|[k' v'] d IH]; cbn; [by rewrite String.eqb_refl|].
  destruct (String.eqb_spec k' k) as [->|Hne]; cbn.
  - by rewrite String.eqb_refl.
  - by destruct (String.eqb_spec k' k).
Qed.

Lemma dict_get_set_ne {A} k k0 (v : A) d :
  k0 ≠ k → dict_get k0 (dict_set k v d) = dict_get k0 d.
Proof.
  intros Hne. induction d as [|[k' v'] d IH]; cbn.
  - by destruct (String.eqb_spec k k0).
  - destruct (String.eqb_spec k' k) as [->|Hne']; cbn.
    + by destruct (String.eqb_spec k k0).
    + by destruct (String.eqb_spec k' k0).
Qed.

(** X8. For a positive [divisor] and one of the keys
    ["intermediate_size"] and ["hidden_size"], [_update_vision_config]
    stores the least multiple of [divisor] that is not below [value],
    and changes no other entry of the configuration. *)
Theorem _update_vision_config_pads (config : list (string * config_value))
    (vision_config : list (string * config_leaf)) (value divisor : Z)
    (key : string) :
  (0 < divisor)%Z →
  key ∈ ["intermediate_size"; "hidden_size"] →
  dict_get "vision_config" config = Some (Sub vision_config) →
  ∃ padded config' vision_config',
    _update_vision_config config (SInt value) divisor key = Ok config'
    ∧ dict_get "vision_config" config' = Some (Sub vision_config')
    ∧ dict_get key vision_config' = Some (CInt padded)
    ∧ (divisor | padded)%Z
    ∧ (value ≤ padded < value + divisor)%Z
    ∧ (∀ k, k ≠ key → dict_get k vision_config' = dict_get k vision_config)
    ∧ (∀ k, k ≠ "vision_config" → dict_get k config' = dict_get k config).
Proof.
  intros Hd Hkey Hvc. unfold _update_vision_config.
  rewrite bool_decide_eq_true_2 by done. unfold py_mod, py_floordiv.
  destruct (Z.eqb_spec divisor 0) as [?|_]; [lia|]. cbn [mbind outcome_bind size_int].
  pose proof (Z.mod_pos_bound value divisor Hd) as Hmod.
  pose proof (Z.div_mod value divisor ltac:(lia)) as Hdm.
  destruct (decide (value `mod` divisor = 0)%Z) as [Hz|Hnz].
  - rewrite bool_decide_eq_false_2 by (intros ?; done). cbn. rewrite Hvc.
    eexists value, _, _. split; [reflexivity|].
    rewrite !dict_get_set_eq. do 2 (split; [done|]).
    split; [by apply Z.mod_divide; [lia|]|]. split; [lia|].
    split; intros k Hk; by apply dict_get_set_ne.
  - rewrite bool_decide_eq_true_2 by done. cbn. rewrite Hvc.
    eexists _, _, _. split; [reflexivity|].
    rewrite !dict_get_set_eq. do 2 (split; [done|]).
    split; [apply Z.divide_factor_r|]. split; [nia|].
    split; intros k Hk; by apply dict_get_set_ne.
Qed.

(** X9. The failures of [_update_vision_config]: a zero [divisor] with
    a padded key raises [ZeroDivisionError], also when the configuration
    has no ["vision_config"], since the value is computed first; a
    missing ["vision_config"] raises [KeyError] otherwise; and for any
    other key the value is stored as given, whatever the divisor. *)
Theorem _update_vision_config_errors (config : list (string * config_value))
    (value : size_value) (divisor : Z) (key : string) :
  (key ∈ ["intermediate_size"; "hidden_size"] → divisor = 0%Z →
   ∃ msg, _update_vision_config config value divisor key
          = Err (ZeroDivisionError msg))
  ∧ (dict_get "vision_config" config = None →
     (key ∈ ["intermediate_size"; "hidden_size"] → divisor ≠ 0%Z) →
     _update_vision_config config value divisor key
     = Err (KeyError "vision_config"))
  ∧ (key ∉ ["intermediate_size"; "hidden_size"] →
     ∀ vision_config,
       dict_get "vision_config" config = Some (Sub vision_config) →
       ∃ config' vision_config',
         _update_vision_config config value divisor key = Ok config'
         ∧ dict_get "vision_config" config' = Some (Sub vision_config')
         ∧ dict_get key vision_config' = Some (size_leaf value)).
Proof.
  unfold _update_vision_config, py_mod, py_floordiv. split; [|split].
  - intros Hkey ->. rewrite bool_decide_eq_true_2 by done. cbn. eauto.
  - intros Hvc Hdiv. destruct (decide (key ∈ ["intermediate_size"; "hidden_size"])) as [Hkey|Hkey].
    + rewrite bool_decide_eq_true_2 by done.
      destruct (Z.eqb_spec divisor 0) as [?|_]; [by destruct Hdiv|].
      cbn [mbind outcome_bind]. destruct (bool_decide _); cbn; by rewrite Hvc.
    + rewrite bool_decide_eq_false_2 by done. cbn. by rewrite Hvc.
  - intros Hkey vc Hvc. rewrite bool_decide_eq_false_2 by done. cbn. rewrite Hvc.
    eexists _, _. split; [reflexivity|]. by rewrite !dict_get_set_eq.
Qed.

(** X10. For positive sampling rates below [2 ^ 63], [resample_audio]
    hands the resampler the ratio [target_sr / orig_sr] in lowest terms:
    two positive coprime factors [up] and [down] with
    [up * orig_sr = down * target_sr]; for equal rates both are 1. A
    rate of [2 ^ 63] or more does not fit the 64-bit integers of
    [np.gcd], and the call raises [OverflowError]. *)
Theorem resample_audio_factors {audio_t} (resample_poly : audio_t → Z → Z → audio_t)
    (audio : audio_t) (orig_sr target_sr : Z) :
  ((0 < orig_sr < 2 ^ 63)%Z → (0 < target_sr < 2 ^ 63)%Z →
   ∃ up down,
     resample_audio resample_poly audio orig_sr target_sr
     = Ok (resample_poly audio up down)
     ∧ (0 < up)%Z ∧ (0 < down)%Z
     ∧ (up * orig_sr = down * target_sr)%Z
     ∧ Z.gcd up down = 1%Z
     ∧ (orig_sr = target_sr → up = 1%Z ∧ down = 1%Z))
  ∧ ((2 ^ 63 ≤ orig_sr)%Z ∨ (2 ^ 63 ≤ target_sr)%Z →
     ∃ msg,
       resample_audio resample_poly audio orig_sr target_sr
       = Err (OverflowError msg)).
Proof.
  split.
  - intros Ho Ht. unfold resample_audio, resample_factors, np_int64, is_int64.
    destruct (Z.leb_spec (- 2 ^ 63) orig_sr); [|lia].
    destruct (Z.ltb_spec orig_sr (2 ^ 63)); [|lia].
    destruct (Z.leb_spec (- 2 ^ 63) target_sr); [|lia].
    destruct (Z.ltb_spec target_sr (2 ^ 63)); [|lia].
    cbn [andb mbind outcome_bind mret outcome_ret].
    set (g := Z.gcd orig_sr target_sr).
    assert (0 < g)%Z as Hg.
    { pose proof (Z.gcd_nonneg orig_sr target_sr).
      destruct (decide (g = 0%Z)) as [Hz|]; [|unfold g in *; lia].
      apply Z.gcd_eq_0_l in Hz. lia. }
    destruct (Z.gcd_divide_l orig_sr target_sr) as [a Ha].
    destruct (Z.gcd_divide_r orig_sr target_sr) as [b Hb].
    assert (Z.gcd orig_sr target_sr = g) as Hgg by done.
    fold g in Ha, Hb.
    assert (wrap_int64 g = g) as ->.
    { assert (g ≤ orig_sr)%Z by (apply Z.divide_pos_le; [lia|by exists a]).
      unfold wrap_int64. rewrite Z.mod_small; lia. }
    clearbody g. subst orig_sr target_sr.
    rewrite !Z.div_mul by lia.
    rewrite Z.gcd_mul_mono_r_nonneg in Hgg by lia.
    exists b, a. split; [done|].
    split; [nia|]. split; [nia|]. split; [ring|].
    split; [rewrite Z.gcd_comm; nia|].
    intros Heq. assert (a = b) as -> by nia.
    rewrite Z.gcd_diag in Hgg. nia.
  - intros Hbig. unfold resample_audio, resample_factors, np_int64, is_int64.
    destruct (Z.ltb_spec orig_sr (2 ^ 63)).
    + destruct (Z.ltb_spec target_sr (2 ^ 63)); [lia|].
      rewrite andb_false_r. destruct (_ && _); by eexists.
    + rewrite andb_false_r. by eexists.
Qed.

Lemma dict_pop_sublist {A} k (d : list (string * A)) : dict_pop k d `sublist_of` d.
Proof.
  induction d as [|[k' v'] d IH]; [done|]. cbn.
  destruct (String.eqb k' k); [by apply sublist_cons|by apply sublist_skip].
Qed.

Lemma dict_pop_NoDup {A} k (d : list (string * A)) :
  NoDup d.*1 → NoDup (dict_pop k d).*1.
Proof.
  intros Hnd. pose proof (dict_pop_sublist k d) as Hs.
  apply (fmap_sublist fst) in Hs. by eapply sublist_NoDup.
Qed.

Lemma dict_pop_elem {A} k (d : list (string * A)) k0 v :
  NoDup d.*1 → (k0, v) ∈ dict_pop k d ↔ (k0, v) ∈ d ∧ k0 ≠ k.
Proof.
  induction d as [|[k' v'] d IH]; cbn.
  { intros _. rewrite elem_of_nil. tauto. }
  rewrite NoDup_cons. intros [Hk' Hnd]. rewrite !elem_of_cons.
  destruct (String.eqb_spec k' k) as [->|Hne].
  - split.
    + intros Hin. split; [by right|]. intros ->. apply Hk'.
      apply list_elem_of_fmap. by exists (k, v).
    + intros [[[= -> ->]|Hin] Hk0]; done.
  - rewrite elem_of_cons, IH by done. split.
    + intros [[= -> ->]|[? ?]]; [split; [by left|done]|split; [by right|done]].
    + intros [[[= -> ->]|Hin] Hk0]; [by left|by right].
Qed.

Lemma sorted_items_elem {A} (d : list (string * A)) k v :
  NoDup d.*1 →
  (k, v) ∈ omap (λ k, (λ v, (k, v)) <$> dict_get k d) (sorted_strings d.*1)
  ↔ (k, v) ∈ d.
Proof.
  intros Hnd. rewrite list_elem_of_omap. split.
  - intros (k' & Hk' & Hget). destruct (dict_get k' d) as [v'|] eqn:Hd; [|done].
    injection Hget as -> ->. clear Hk' Hnd.
    induction d as [|[k1 v1] d IH]; [done|]. cbn in Hd.
    destruct (String.eqb_spec k1 k) as [->|_].
    + injection Hd as ->. apply list_elem_of_here.
    + apply list_elem_of_further. by apply IH.
  - intros Hin. exists k. split.
    + rewrite sorted_strings_Permutation. apply list_elem_of_fmap. by exists (k, v).
    + by rewrite (dict_get_elem k v d).
Qed.

(** X11. [save_config] writes the entries of the configuration other
    than ["_name_or_path"] and ["torch_dtype"], each as it was, in
    increasing order of the keys; and it removes these two keys from the
    caller's dictionary as well. *)
Theorem save_config_written {A} (config : list (string * A)) :
  NoDup config.*1 →
  let '(config', written) := save_config config in
  Sorted (λ a b : string, String.leb a b = true) written.*1
  ∧ (∀ k v, (k, v) ∈ written
            ↔ (k, v) ∈ config ∧ k ≠ "_name_or_path" ∧ k ≠ "torch_dtype")
  ∧ (∀ k v, (k, v) ∈ config'
            ↔ (k, v) ∈ config ∧ k ≠ "_name_or_path" ∧ k ≠ "torch_dtype").
Proof.
  intros Hnd. unfold save_config.
  set (c1 := dict_pop "_name_or_path" config).
  set (c2 := dict_pop "torch_dtype" c1).
  assert (NoDup c1.*1) as Hnd1 by by apply dict_pop_NoDup.
  assert (NoDup c2.*1) as Hnd2 by by apply dict_pop_NoDup.
  assert (∀ k v, (k, v) ∈ c2
            ↔ (k, v) ∈ config ∧ k ≠ "_name_or_path" ∧ k ≠ "torch_dtype") as Hc2.
  { intros k v. unfold c2, c1. rewrite !dict_pop_elem by done. tauto. }
  split; [|split; [|done]].
  - rewrite omap_keys; [apply sorted_strings_Sorted|].
    intros k Hk. rewrite sorted_strings_Permutation in Hk.
    apply list_elem_of_fmap in Hk as ([k' v] & -> & Hk). cbn.
    exists v. by apply dict_get_elem.
  - intros k v. by rewrite sorted_items_elem, Hc2.
Qed.

End ConfigProperties.

(** Unfolds the operations of the monad [P] in the goal. *)
Ltac run_p :=
  repeat (cbn; unfold mbind, mret, P_bind, P_ret, outcome_bind, outcome_ret,
                 throw, lift_outcome, inspect, update, alloc).

Section CriteriaProperties.

Lemma encode_all_strings (tk : tokenizer_obj) (strs : list string) (new : list nat) :
  Forall2 (λ s i, last (encode tk (" " +:+ s)) = Some i) strs new →
  encode_all tk (TokStr <$> strs) = Ok new.
Proof.
  induction 1 as [|s i strs new Hs _ IH]; [done|].
  cbn. rewrite Hs. cbn. rewrite IH. done.
Qed.

Lemma encode_all_int (tk : tokenizer_obj) (tokens : list token_arg) i :
  TokInt i ∈ tokens → ∃ e, encode_all tk tokens = Err e.
Proof.
  induction tokens as [|t tokens IH]; [by intros ?%elem_of_nil|].
  intros [<-|Hin]%elem_of_cons; cbn; [eauto|].
  destruct (encode_last tk t) as [j|e|] eqn:Ht; cbn; [|eauto|].
  - destruct (IH Hin) as [e ->]. cbn. eauto.
  - destruct t as [s0|z]; cbn in Ht; [destruct (last _)|]; done.
Qed.

Lemma encode_all_not_cut (tk : tokenizer_obj) (tokens : list token_arg) :
  encode_all tk tokens ≠ Cut.
Proof.
  induction tokens as [|t tokens IH]; [done|]. cbn.
  destruct t as [s0|z]; cbn; [|done].
  destruct (last _); cbn; [|done].
  destruct (encode_all tk tokens); cbn; done.
Qed.

(** X12. [add_eos_token_ids] with a list of strings appends, to the very
    list object the criteria hold, the last id of the encoding of each
    string preceded by a space, in order; the ids that stopped
    generation before still do, and no other list object changes. *)
Theorem add_eos_token_ids_extends (self : criteria_obj) (tk : tokenizer_obj)
    (p : nat) (old new : list nat) (strs : list string) (h : heap) :
  c_tokenizer self = Some tk →
  c_eos_token_ids self = RList p →
  h !! p = Some old →
  Forall2 (λ s i, last (encode tk (" " +:+ s)) = Some i) strs new →
  ∃ h',
    StoppingCriteria_add_eos_token_ids self (EosList (TokStr <$> strs)) h
    = (Ok (), h')
    ∧ h' !! p = Some (old ++ new)
    ∧ (∀ q, q ≠ p → h' !! q = h !! q)
    ∧ ∀ t, StoppingCriteria_call_obj h' self t
           = Ok (bool_decide (t ∈ old ∨ t ∈ new)).
Proof.
  intros Htk Hp Hold Hnew. unfold StoppingCriteria_add_eos_token_ids.
  rewrite Htk, Hp. run_p.
  rewrite (encode_all_strings tk strs new Hnew). run_p.
  eexists. split; [reflexivity|].
  split; [by rewrite list_lookup_alter_eq, Hold|].
  split; [intros q Hq; by rewrite list_lookup_alter_ne|].
  intros t. unfold StoppingCriteria_call_obj. rewrite Hp.
  rewrite list_lookup_alter_eq, Hold. cbn. f_equal.
  apply bool_decide_ext. by rewrite elem_of_app.
Qed.

(** X13. A call of [add_eos_token_ids] that raises leaves every list
    object as it was. It raises [ValueError] when the criteria hold no
    tokenizer, and it raises for an integer argument and for any list
    that contains an integer, although the documentation of the method
    lists integers among the accepted arguments. *)
Theorem add_eos_token_ids_atomic (self : criteria_obj)
    (new_eos_token_ids : eos_tokens_arg) (h : heap) :
  (∀ e h', StoppingCriteria_add_eos_token_ids self new_eos_token_ids h
           = (Err e, h') → h' = h)
  ∧ (new_eos_token_ids ≠ EosNone → c_tokenizer self = None →
     StoppingCriteria_add_eos_token_ids self new_eos_token_ids h
     = (Err (Raised (ValueError "Processor is not provided")), h))
  ∧ (∀ i, new_eos_token_ids = EosOne (TokInt i)
          ∨ (∃ l, new_eos_token_ids = EosList l ∧ TokInt i ∈ l) →
     ∃ e, StoppingCriteria_add_eos_token_ids self new_eos_token_ids h
          = (Err e, h)).
Proof.
  unfold StoppingCriteria_add_eos_token_ids. split; [|split].
  - intros e h'.
    destruct new_eos_token_ids as [|[s|z]|l]; [done|..];
      (destruct (c_tokenizer self) as [tk|]; [|by intros [= _ <-]]); run_p.
    + destruct (last _); run_p; [|by intros [= _ <-]].
      destruct (c_eos_token_ids self); run_p; by intros [= _ <-] || done.
    + by intros [= _ <-].
    + destruct (encode_all tk l); run_p; [|by intros [= _ <-]|done].
      destruct (c_eos_token_ids self); run_p; by intros [= _ <-] || done.
  - intros Hne ->. by destruct new_eos_token_ids as [|[s|z]|l].
  - intros i [->|(l & -> & Hin)]; destruct (c_tokenizer self) as [tk|]; eauto.
    run_p. destruct (encode_all_int tk l i Hin) as [e ->]. eauto.
Qed.

(** X14. When the model configuration holds its stop ids as a list,
    the criteria [load_processor] creates share that list object. A
    call of [generate] with [eos_tokens] then extends the list of the
    configuration itself, and a later call without [eos_tokens] resets
    the criteria to that same list: the added id still stops
    generation. *)
Theorem eos_tokens_outlive_reset (tk : tokenizer_obj) (h : heap) (p : nat)
    (ids : list nat) (s : string) (t : nat) :
  h !! p = Some ids →
  last (encode tk (" " +:+ s)) = Some t →
  ∃ c0 slot1 slot2 h1,
    load_stopping_criteria (RList p) tk h = (Ok c0, h)
    ∧ choose_stopping_criteria (RList p) (EosList [TokStr s]) ArgNone
        (SlotCriteria c0) h = (Ok slot1, h1)
    ∧ choose_stopping_criteria (RList p) EosNone ArgNone slot1 h1
      = (Ok slot2, h1)
    ∧ h1 !! p = Some (ids ++ [t])
    ∧ ∀ x, slot_call h1 slot2 x = Ok (bool_decide (x ∈ ids ++ [t])).
Proof.
  intros Hp Ht. eexists _, _, _, _. split; [reflexivity|].
  unfold choose_stopping_criteria, StoppingCriteria_add_eos_token_ids.
  run_p. rewrite Ht. run_p. split; [reflexivity|].
  unfold StoppingCriteria_reset_obj. run_p.
  rewrite bool_decide_eq_false_2 by (intros Hne; by apply Hne).
  split; [reflexivity|].
  rewrite list_lookup_alter_eq, Hp. split; [done|].
  intros x. unfold slot_call, StoppingCriteria_call_obj. cbn.
  by rewrite list_lookup_alter_eq, Hp.
Qed.

(** X15. When the model configuration holds one stop id as an integer,
    the criteria get a list of their own: a call of [generate] with
    [eos_tokens] makes generation stop on the configured id and on the
    added one, and a later call without [eos_tokens] stops on the
    configured id only. *)
Theorem eos_tokens_dropped_by_reset (tk : tokenizer_obj) (h : heap) (i : nat)
    (s : string) (t : nat) :
  last (encode tk (" " +:+ s)) = Some t →
  ∃ c0 slot1 slot2 h0 h1 h2,
    load_stopping_criteria (RInt i) tk h = (Ok c0, h0)
    ∧ choose_stopping_criteria (RInt i) (EosList [TokStr s]) ArgNone
        (SlotCriteria c0) h0 = (Ok slot1, h1)
    ∧ (∀ x, slot_call h1 slot1 x = Ok (bool_decide (x ∈ [i; t])))
    ∧ choose_stopping_criteria (RInt i) EosNone ArgNone slot1 h1
      = (Ok slot2, h2)
    ∧ ∀ x, slot_call h2 slot2 x = Ok (bool_decide (x ∈ [i])).
Proof.
  intros Ht. eexists _, _, _, _, _, _. split; [reflexivity|].
  unfold choose_stopping_criteria, StoppingCriteria_add_eos_token_ids.
  run_p. rewrite Ht. run_p. split; [reflexivity|].
  assert (alter (λ l, l ++ [t]) (length h) (h ++ [[i]]) = h ++ [[i; t]]) as ->.
  { apply list_eq. intros q. rewrite list_lookup_alter.
    destruct (decide (length h = q)) as [<-|Hq].
    - by rewrite !lookup_app_r, Nat.sub_diag by lia.
    - destruct (decide (q < length h)).
      + by rewrite !lookup_app_l by lia.
      + by rewrite !lookup_app_r by lia; destruct (q - length h) as [|[|?]] eqn:?; [lia|..]. }
  split.
  { intros x. unfold slot_call, StoppingCriteria_call_obj. cbn.
    by rewrite lookup_app_r, Nat.sub_diag by lia. }
  unfold StoppingCriteria_reset_obj. run_p.
  rewrite length_app. cbn.
  rewrite bool_decide_eq_true_2; [split; [reflexivity|]|].
  - intros x. unfold slot_call, StoppingCriteria_call_obj. cbn.
    rewrite lookup_app_r by (rewrite length_app; cbn; lia).
    rewrite length_app. cbn. by rewrite Nat.sub_diag.
  - rewrite lookup_app_l by (rewrite length_app; cbn; lia).
    rewrite lookup_app_r by lia. rewrite Nat.sub_diag. cbn.
    rewrite lookup_app_r by (rewrite length_app; cbn; lia).
    rewrite length_app. cbn. rewrite Nat.sub_diag. cbn. done.
Qed.

(** X16. [generate] with a plain function as [stopping_criteria] stores
    it in [tokenizer.stopping_criteria], whatever was there; every later
    call that gives [eos_tokens], or neither option, then raises
    [AttributeError] before anything is generated. *)
Theorem plain_callable_breaks_later_calls (config_eos_token_id : ids_ref)
    (f : nat → bool) (slot : criteria_slot) (h : heap) :
  choose_stopping_criteria config_eos_token_id EosNone (ArgCallable f) slot h
  = (Ok (SlotCallable f), h)
  ∧ (∃ msg,
       choose_stopping_criteria config_eos_token_id EosNone ArgNone
         (SlotCallable f) h
       = (Err (Raised (AttributeError msg)), h))
  ∧ (∀ eos_tokens stopping_criteria, eos_tokens ≠ EosNone →
     ∃ msg,
       choose_stopping_criteria config_eos_token_id eos_tokens stopping_criteria
         (SlotCallable f) h
       = (Err (Raised (AttributeError msg)), h)).
Proof.
  split; [done|]. split; [by eexists|].
  intros eos_tokens stopping_criteria Hne.
  destruct eos_tokens as [|t|l]; [done|by eexists..].
Qed.

Lemma read_ids_grow (h h1 : heap) (r : ids_ref) ids :
  read_ids h r = Some ids → read_ids (h ++ h1) r = Some ids.
Proof.
  destruct r as [|i|p]; cbn; [done..|].
  destruct (h !! p) as [l|] eqn:Hp; [|done].
  by rewrite (lookup_app_l_Some _ _ _ _ Hp).
Qed.

Lemma read_tokenizer_grow (h h1 : heap) tk tkv :
  read_tokenizer h tk = Some tkv → read_tokenizer (h ++ h1) tk = Some tkv.
Proof.
  unfold read_tokenizer. destruct (read_ids h _) as [ids|] eqn:Hr; [|done].
  by rewrite (read_ids_grow _ _ _ _ Hr).
Qed.

Lemma read_criteria_eq (h : heap) (c : criteria_obj) (a : StoppingCriteria) :
  read_criteria h c = Some a ↔
  ∃ p, c_eos_token_ids c = RList p
       ∧ h !! p = Some (eos_token_ids a)
       ∧ match c_tokenizer c with
         | Some tk => ∃ tkv, read_tokenizer h tk = Some tkv ∧ tokenizer a = Some tkv
         | None => tokenizer a = None
         end.
Proof.
  unfold read_criteria. destruct a as [ids tkv].
  destruct (c_eos_token_ids c) as [|i|p]; cbn.
  1,2: split; [done|by intros (p & ? & _)].
  destruct (h !! p) as [l|] eqn:Hp; cbn.
  2: { split; [done|]. intros (q & [= <-] & Hq & _). congruence. }
  destruct (c_tokenizer c) as [tk|]; cbn.
  - destruct (read_tokenizer h tk) as [tkv'|]; cbn.
    + split.
      * intros [= -> <-]. exists p. eauto.
      * intros (q & [= <-] & Hq & tkv'' & [= <-] & ->). congruence.
    + split; [done|]. by intros (q & _ & _ & tkv'' & ? & _).
  - split.
    + intros [= -> <-]. exists p. eauto.
    + intros (q & [= <-] & Hq & ->). congruence.
Qed.

Lemma P_ret_bind {W A B} (a : A) (k : A → P W B) (w : W) :
  (mret a ≫= k) w = k a w.
Proof. done. Qed.

Lemma bool_decide_Some_ne {A} `{EqDecision A} (x y : A) :
  bool_decide (Some x ≠ Some y) = bool_decide (x ≠ y).
Proof. apply bool_decide_ext. split; intros Hne; congruence. Qed.

Lemma reset_obj_assign (self : criteria_obj) (a : StoppingCriteria)
    (r : ids_ref) (ids : ids_arg) (h : heap) :
  read_criteria h self = Some a →
  read_ids h r = Some ids →
  match
    (ids' ← match r with
            | RInt i => (q ← alloc [i]; mret (RList q))
            | _ => mret r
            end;
     differ ← inspect (λ h, ids_differ h (c_eos_token_ids self) ids');
     if differ : bool
     then mret {| c_eos_token_ids := ids'; c_tokenizer := c_tokenizer self |}
     else mret self) h
  with
  | (Ok self', h') =>
      ∃ a', read_criteria h' self' = Some a'
            ∧ (if bool_decide (eos_token_ids a ≠ as_id_list ids)
               then {| eos_token_ids := as_id_list ids; tokenizer := tokenizer a |}
               else a) = a'
            ∧ ∀ t, StoppingCriteria_call_obj h' self' t
                   = Ok (StoppingCriteria_call a' t)
  | _ => False
  end.
Proof.
  intros Ha Hr. pose proof Ha as Ha0.
  apply read_criteria_eq in Ha as (p & Hp & Hids & Htk).
  assert (∀ h1, read_criteria (h ++ h1) self = Some a) as Hgrow.
  { intros h1. apply read_criteria_eq. exists p. split; [done|].
    split; [by apply lookup_app_l_Some|].
    destruct (c_tokenizer self) as [tk|]; [|done].
    destruct Htk as (tkv & Htkv & ?). exists tkv. split; [|done].
    by apply read_tokenizer_grow. }
  assert (∀ h' t, h' !! p = Some (eos_token_ids a) →
            StoppingCriteria_call_obj h' self t = Ok (StoppingCriteria_call a t)) as Hcall.
  { intros h' t Hh'. unfold StoppingCriteria_call_obj. by rewrite Hp, Hh'. }
  destruct r as [|i|q]; [done|..]; run_p; rewrite Hp.
  - injection Hr as <-. cbn.
    rewrite (lookup_app_l_Some _ _ _ _ Hids).
    rewrite lookup_app_r, Nat.sub_diag by lia. cbn.
    rewrite bool_decide_Some_ne.
    destruct (bool_decide (eos_token_ids a ≠ [i])); run_p.
    + eexists. split; [|split; [reflexivity|]].
      * apply read_criteria_eq. exists (length h). cbn. split; [done|].
        split; [by rewrite lookup_app_r, Nat.sub_diag by lia|].
        destruct (c_tokenizer self) as [tk|]; [|done].
        destruct Htk as (tkv & Htkv & ?). exists tkv. split; [|done].
        by apply read_tokenizer_grow.
      * intros t. unfold StoppingCriteria_call_obj. cbn.
        by rewrite lookup_app_r, Nat.sub_diag by lia.
    + exists a. split; [apply Hgrow|]. split; [done|].
      intros t. apply Hcall. by apply lookup_app_l_Some.
  - cbn in Hr. destruct (h !! q) as [l|] eqn:Hq; [|done]. injection Hr as <-.
    unfold ids_differ. rewrite Hids, Hq, bool_decide_Some_ne. cbn [as_id_list].
    destruct (bool_decide (eos_token_ids a ≠ l)); run_p.
    + eexists. split; [|split; [reflexivity|]].
      * apply read_criteria_eq. exists q. cbn. do 2 (split; [done|]).
        destruct (c_tokenizer self) as [tk|]; done.
      * intros t. unfold StoppingCriteria_call_obj. cbn. by rewrite Hq.
    + exists a. split; [done|]. split; [done|]. intros t. by apply Hcall.
Qed.

(** X17. The object-level [reset] refines the value-level
    [StoppingCriteria_reset] of the embedding above: on criteria and
    arguments that stand for values, it succeeds exactly when the
    value-level reset does, the object it leaves stands for the value
    computed there, it raises the same exception and then leaves the
    heap unchanged, and calling the object tests membership in the new
    ids. *)
Theorem StoppingCriteria_reset_obj_refines (self : criteria_obj)
    (ids : ids_ref) (h : heap) (a : StoppingCriteria) :
  read_criteria h self = Some a →
  (ids ≠ RNone → is_Some (read_ids h ids)) →
  match StoppingCriteria_reset_obj self ids h with
  | (Ok self', h') =>
      ∃ a', read_criteria h' self' = Some a'
            ∧ StoppingCriteria_reset a (read_ids h ids) = Val a'
            ∧ ∀ t, StoppingCriteria_call_obj h' self' t
                   = Ok (StoppingCriteria_call a' t)
  | (Err e, h') =>
      h' = h ∧ of_res (StoppingCriteria_reset a (read_ids h ids)) = Err e
  | (Cut, _) => False
  end.
Proof.
  intros Ha Harg. pose proof Ha as Ha0.
  apply read_criteria_eq in Ha as (p & Hp & Hids & Htk).
  unfold StoppingCriteria_reset_obj.
  assert (ids = RNone ∨ ids ≠ RNone) as [->|Hne] by (destruct ids; eauto).
  - destruct (c_tokenizer self) as [tk|] eqn:Hctk.
    + destruct Htk as (tkv & Htkv & Hta).
      pose proof Htkv as Htkv0. unfold read_tokenizer in Htkv.
      destruct (read_ids h (t_eos_token_ids tk)) as [ids0|] eqn:Hr0; [|done].
      injection Htkv as <-.
      pose proof (reset_obj_assign self a _ _ h Ha0 Hr0) as Hrun.
      rewrite Hctk in Hrun.
      rewrite P_ret_bind. cbv beta.
      match type of Hrun with
      | match ?r with _ => _ end => destruct r as [[self'| |] h']
      end; [|done..].
      destruct Hrun as (a' & Ha' & Hval & Hcall). exists a'.
      split; [done|]. split; [|done].
      unfold StoppingCriteria_reset. cbn. rewrite Hta. cbn.
      rewrite <- Hval, Hta. by destruct (bool_decide _).
    + cbn. split; [done|]. unfold StoppingCriteria_reset. cbn. by rewrite Htk.
  - destruct (Harg Hne) as [ids0 Hr0].
    pose proof (reset_obj_assign self a _ _ h Ha0 Hr0) as Hrun.
    assert (match ids with
            | RNone =>
                match c_tokenizer self with
                | Some tk => mret (t_eos_token_ids tk)
                | None => throw (Raised (AttributeError
                    "'NoneType' object has no attribute 'eos_token_ids'"))
                end
            | _ => mret ids
            end = (mret ids : P heap ids_ref)) as -> by by destruct ids.
    rewrite P_ret_bind. cbv beta.
    match type of Hrun with
      | match ?r with _ => _ end => destruct r as [[self'| |] h']
      end; [|done..].
    destruct Hrun as (a' & Ha' & Hval & Hcall). exists a'.
    split; [done|]. split; [|done].
    unfold StoppingCriteria_reset. rewrite Hr0. cbn.
    rewrite <- Hval. by destruct (bool_decide _).
Qed.

End CriteriaProperties.

(** ** Sessions that return *)

Section ReturnProperties.
Context {V : Type} `{!Scalar V} `{!Runtime V}.
Context (args : gen_args V) (stopping_criteria : nat → bool) (skip : list nat).

(** The local variables after a loop that ended: by exhaustion they are
    those of the last emitted token, by [break] those of the stop
    token. *)
Lemma stream_loop_returns (fuel : nat) (g : gen_state) (n : nat)
    (loc loc' : stream_locals) (w w' : world V) :
  (n ≠ 0 → is_Some (l_prompt_tps loc)) →
  stream_loop fuel args stopping_criteria skip g n loc w = (Val loc', w') →
  ∃ steps,
    steps_ok stopping_criteria skip (l_detokenizer loc) n args steps
    ∧ l_detokenizer loc' = detok_feed skip (l_detokenizer loc) steps.*1
    ∧ ((w_trace w' = w_trace w ++ blocks steps
        ∧ match last steps with
          | None => loc' = loc
          | Some s =>
              l_n loc' = Some (n + length steps - 1)
              ∧ l_token loc' = Some s.1
              ∧ is_Some (l_logprobs loc')
              ∧ is_Some (l_prompt_tps loc')
          end)
       ∨ (∃ t, stopping_criteria t = true
             ∧ w_trace w' = w_trace w ++ blocks steps ++ [EvStopCheck t true]
             ∧ l_token loc' = Some t
             ∧ l_n loc' = Some (n + length steps)
             ∧ is_Some (l_logprobs loc')
             ∧ is_Some (l_prompt_tps loc'))).
Proof.
  revert g n loc w. induction fuel as [|fuel IH]; intros g n loc w Hbound; [done|].
  cbn [stream_loop]. unfold mbind at 1, M_bind at 1.
  pose proof (gen_next_trace args g w) as Hframe.
  destruct (gen_next args g w) as [[[tok lp g'|]|e|] w1]; cbn in Hframe; [| |done..].
  2: { intros [= <- <-]. exists []. split; [by intros i s ?|]. split; [done|].
       left. cbn. by rewrite Hframe, app_nil_r. }
  unfold mbind at 1, M_bind at 1.
  destruct (stream_body_run args stopping_criteria skip n tok lp loc w1 Hbound)
    as (c & w2 & -> & Hbody).
  destruct (stopping_criteria tok) eqn:Hstop.
  - destruct Hbody as (loc1 & -> & Htr & Hn & Htok & Hlp & Htps & Hd).
    intros [= <- <-]. exists []. split; [by intros i s ?|]. split; [done|].
    right. exists tok. rewrite Htr, Hframe, Nat.add_0_r. by rewrite Hlp.
  - destruct Hbody as (loc1 & r & -> & Htr & Hn & Htok & Hlp & Htps & Hd
                       & Hrtok & Hrgen & Hrprompt & Hrtext).
    intros Hrun. apply IH in Hrun as (steps & Hsteps & Hd' & Hrun); [|done].
    exists ((tok, r) :: steps). split.
    { apply steps_ok_cons; try done. by rewrite <- Hd. }
    split; [by rewrite Hd', Hd|].
    destruct Hrun as [[Htr' Hloc]|(t & Ht & Htr' & Htok' & Hn' & Hrest)].
    + left. split; [rewrite Htr', Htr, Hframe; cbn; by rewrite <- app_assoc|].
      destruct steps as [|s steps].
      * cbn in Hloc. subst loc'. cbn. rewrite Hn, Htok, Hlp.
        split; [f_equal; lia|]. by repeat split.
      * change (last ((tok, r) :: s :: steps)) with (last (s :: steps)).
        destruct (last (s :: steps)) as [s'|] eqn:Hlast;
          [|by apply last_None in Hlast].
        destruct Hloc as (Hn' & Hrest). split; [|done].
        rewrite Hn'. cbn. f_equal. lia.
    + right. exists t. split; [done|]. split.
      { rewrite Htr', Htr, Hframe. cbn. by rewrite <- !app_assoc. }
      split; [done|]. split; [|done]. rewrite Hn'. cbn. f_equal. lia.
Qed.

(** A session that returns has yielded a last record after the step
    records: its count is the number of emitted tokens when the budget
    ended the session, and one more when a stop token did. *)
Lemma stream_generate_returns (fuel : nat) (d0 : detok_t) (w w' : world V) :
  stream_generate fuel args stopping_criteria skip d0 w = (Val (), w') →
  ∃ steps final,
    steps_ok stopping_criteria skip (detok_reset d0) 0 args steps
    ∧ prompt_tokens final = length (concat (input_ids args))
    ∧ text final
      = detok_last_segment
          (detok_finalize (detok_feed skip (detok_reset d0) steps.*1))
    ∧ ((w_trace w' = w_trace w ++ blocks steps ++ [EvFinalize; EvYield final]
        ∧ token final = fst <$> last steps
        ∧ steps ≠ []
        ∧ generation_tokens final = length steps)
       ∨ (∃ t, stopping_criteria t = true
             ∧ w_trace w'
               = w_trace w ++ blocks steps
                   ++ [EvStopCheck t true; EvFinalize; EvYield final]
             ∧ token final = Some t
             ∧ generation_tokens final = length steps + 1)).
Proof.
  intros Hres.
  unfold stream_generate in Hres. unfold mbind at 1, M_bind at 1 in Hres.
  cbn [tick] in Hres.
  set (w0 := with_clock_read w) in Hres.
  set (loc0 := {| l_n := None; l_token := None; l_logprobs := None;
                  l_prompt_tps := None; l_tic := perf_counter (w_clock w);
                  l_detokenizer := detok_reset d0 |}) in Hres.
  unfold mbind at 1, M_bind at 1 in Hres.
  destruct (stream_loop fuel args stopping_criteria skip GenCreated 0 loc0 w0)
    as [[loc|e|] w1] eqn:Hloop; [|done..].
  apply stream_loop_returns in Hloop as (steps & Hsteps & Hd & Hrun); [|done].
  exists steps.
  destruct Hrun as [[Htr Hloc]|(t & Ht & Htr & Htok & Hn & [lp Hlp] & [tps Htps])].
  - destruct (last steps) as [s|] eqn:Hlast.
    + destruct Hloc as (Hn & Htok & [lp Hlp] & [tps Htps]).
      destruct loc as [n' tok' lp' tps' tic' d']. cbn in *. subst.
      revert Hres; run_m; intros [= <-]; cbn.
      match goal with |- context [EvYield ?r] => exists r end.
      split; [done|]. split; [done|]. split; [done|]. left.
      split; [rewrite Htr; by rewrite <- !app_assoc|]. cbn.
      split; [done|]. split; [by intros ->|].
      destruct steps; [done|]. cbn. lia.
    + subst loc. revert Hres. by run_m.
  - destruct loc as [n' tok' lp' tps' tic' d']. cbn in *. subst.
    revert Hres; run_m; intros [= <-]; cbn.
    match goal with |- context [EvYield ?r] => exists r end.
    split; [done|]. split; [done|]. split; [done|]. right.
    exists t. split; [done|]. split; [rewrite Htr; by rewrite <- !app_assoc|].
    done.
Qed.

End ReturnProperties.

(** ** generate *)

Lemma P_bind_ok {W A B} (m : P W A) (f : A → P W B) (w : W) (b : B) (w' : W) :
  (m ≫= f) w = (Ok b, w') → ∃ a w1, m w = (Ok a, w1) ∧ f a w1 = (Ok b, w').
Proof.
  unfold mbind, P_bind. destruct (m w) as [[a|e|] w1]; [|done..]. eauto.
Qed.

Lemma P_bind_val {W A B} (m : P W A) (f : A → P W B) (w : W) (a : A) (w1 : W) :
  m w = (Ok a, w1) → (m ≫= f) w = f a w1.
Proof. intros Hm. unfold mbind, P_bind. by rewrite Hm. Qed.

Section GenerateProperties.
Context {V : Type} `{!Scalar V} `{!Runtime V}.

Lemma consume_run (verbose : bool) (responses : list (GenerationResult V))
    (so_far : string) (last_response : option (GenerationResult V))
    (s : session V) :
  consume verbose responses so_far last_response s
  = (Ok (foldl (λ so_far response, so_far +:+ text response) so_far responses,
         from_option Some last_response (last responses)),
     {| s_world := s_world s; s_heap := s_heap s;
        s_stopping_criteria := s_stopping_criteria s;
        s_stdout := s_stdout s
                      ++ (if verbose
                          then (λ response, PrText (text response)) <$> responses
                          else []) |}).
Proof.
  revert so_far last_response s.
  induction responses as [|r responses IH]; intros so_far last_response s.
  { destruct s, verbose; cbn; by rewrite app_nil_r. }
  cbn [consume]. destruct verbose.
  - erewrite P_bind_val by reflexivity. rewrite IH. cbn.
    rewrite <- app_assoc. do 3 f_equal.
    destruct responses as [|r' responses]; [done|].
    change (last (r :: r' :: responses)) with (last (r' :: responses)).
    by destruct (last (r' :: responses)) eqn:Hlast; [|apply last_None in Hlast].
  - erewrite P_bind_val by reflexivity. rewrite IH. cbn.
    do 3 f_equal.
    destruct responses as [|r' responses]; [done|].
    change (last (r :: r' :: responses)) with (last (r' :: responses)).
    by destruct (last (r' :: responses)) eqn:Hlast; [|apply last_None in Hlast].
Qed.

Lemma stream_generate_untested_raises (args : gen_args V) (d : detok_t) (e : exn)
    (w : world V) :
  (stream_generate_untested args d e w).1 ≠ Val ()
  ∧ yielded (w_trace (stream_generate_untested args d e w).2) = yielded (w_trace w).
Proof.
  destruct (stream_generate_untested args d e w) as [r w'] eqn:Hres. cbn [fst snd].
  unfold stream_generate_untested in Hres.
  unfold mbind at 1, M_bind at 1 in Hres. cbn [tick] in Hres.
  set (w0 := with_clock_read w) in Hres. unfold mbind at 1, M_bind at 1 in Hres.
  pose proof (gen_next_trace args GenCreated w0) as Hframe.
  destruct (gen_next args GenCreated w0) as [[[tok lp g'|]|e'|] w1];
    cbn in Hframe; revert Hres; run_m; intros [= <- <-]; cbn; rewrite ?Hframe;
    try done.
  split; [done|]. unfold yielded. rewrite omap_app. cbn. by rewrite app_nil_r.
Qed.

Lemma wired_limit_enter_run (wl : wired_t) (s : session V) :
  wired_limit_enter wl s
  = (Ok (), {| s_world := s_world s; s_heap := s_heap s;
               s_stopping_criteria := s_stopping_criteria s;
               s_stdout := s_stdout s ++ option_list (wired_limit_warning wl) |}).
Proof.
  unfold wired_limit_enter. destruct (wired_limit_warning wl); [done|].
  destruct s. cbn. by rewrite app_nil_r.
Qed.

Lemma stream_block_returns (fuel : nat) (args : gen_args V) (skip : list nat)
    (d : detok_t) (s : session V) :
  ∃ responses r w',
    stream_block fuel args skip d s
    = (Ok (responses, r),
       {| s_world := w'; s_heap := s_heap s;
          s_stopping_criteria := s_stopping_criteria s;
          s_stdout := s_stdout s |})
    ∧ (r = Val () →
       ∃ f steps final,
         stopping_function (s_heap s) (s_stopping_criteria s) = inl f
         ∧ steps_ok f skip (detok_reset d) 0 args steps
         ∧ responses = steps.*2 ++ [final]
         ∧ prompt_tokens final = length (concat (input_ids args))
         ∧ text final
           = detok_last_segment
               (detok_finalize (detok_feed skip (detok_reset d) steps.*1))
         ∧ ((w_trace w'
             = w_trace (s_world s) ++ blocks steps ++ [EvFinalize; EvYield final]
             ∧ token final = fst <$> last steps
             ∧ steps ≠ []
             ∧ generation_tokens final = length steps)
            ∨ (∃ t, f t = true
                  ∧ w_trace w'
                    = w_trace (s_world s) ++ blocks steps
                        ++ [EvStopCheck t true; EvFinalize; EvYield final]
                  ∧ token final = Some t
                  ∧ generation_tokens final = length steps + 1))).
Proof.
  unfold stream_block.
  destruct (stopping_function (s_heap s) (s_stopping_criteria s)) as [f|e] eqn:Hf.
  - destruct (stream_generate fuel args f skip d (s_world s)) as [r w'] eqn:Hrun.
    eexists _, r, w'. split; [reflexivity|]. intros ->.
    apply stream_generate_returns in Hrun
      as (steps & final & Hsteps & Hprompt & Htext & Hrun).
    exists f, steps, final. split; [done|]. split; [done|].
    split; [|by split; [|split]].
    destruct Hrun as [(-> & _)|(t & _ & -> & _)];
      rewrite !yielded_app, drop_app_length, yielded_blocks; done.
  - pose proof (stream_generate_untested_raises args d e (s_world s)) as [Hne _].
    destruct (stream_generate_untested args d e (s_world s)) as [r w'].
    eexists _, r, w'. split; [reflexivity|]. by intros ->.
Qed.

(** The stream prints the warning of [wired_limit], if any, and nothing
    else. *)
Lemma run_stream_returns (fuel : nat) (args : gen_args V) (wl : wired_t)
    (skip : list nat) (d : detok_t) (s : session V) :
  ∃ responses r w',
    run_stream fuel args wl skip d s
    = (Ok (responses, r),
       {| s_world := w'; s_heap := s_heap s;
          s_stopping_criteria := s_stopping_criteria s;
          s_stdout := s_stdout s ++ option_list (wired_limit_warning wl) |})
    ∧ (r = Val () →
       ∃ f steps final,
         stopping_function (s_heap s) (s_stopping_criteria s) = inl f
         ∧ steps_ok f skip (detok_reset d) 0 args steps
         ∧ responses = steps.*2 ++ [final]
         ∧ prompt_tokens final = length (concat (input_ids args))
         ∧ text final
           = detok_last_segment
               (detok_finalize (detok_feed skip (detok_reset d) steps.*1))
         ∧ ((w_trace w'
             = w_trace (s_world s) ++ blocks steps ++ [EvFinalize; EvYield final]
             ∧ token final = fst <$> last steps
             ∧ steps ≠ []
             ∧ generation_tokens final = length steps)
            ∨ (∃ t, f t = true
                  ∧ w_trace w'
                    = w_trace (s_world s) ++ blocks steps
                        ++ [EvStopCheck t true; EvFinalize; EvYield final]
                  ∧ token final = Some t
                  ∧ generation_tokens final = length steps + 1))).
Proof.
  unfold run_stream. rewrite (P_bind_val _ _ _ _ _ (wired_limit_enter_run wl s)).
  match goal with
  | |- context [stream_block fuel args skip d ?s1] =>
      destruct (stream_block_returns fuel args skip d s1)
        as (responses & r & w' & Hrun & Hret)
  end.
  exists responses, r, w'. split; [exact Hrun|]. exact Hret.
Qed.

(** X18. What [generate] returns, whenever it returns a text: the text
    is the concatenation of the texts of the step records and of the
    last record; [input_tokens] is the size of the prompt and
    [total_tokens] the sum of input and output; [output_tokens] is the
    number of tokens in the text when the budget ended the session, and
    one more than that when a stop token did, which is counted although
    it is not in the text. *)
Theorem generate_usage (fuel : nat) (config_eos_token_id : ids_ref)
    (args : gen_args V) (wl : wired_t) (skip : list nat) (d : detok_t)
    (prompt : string)
    (image audio video : media_arg) (verbose : bool)
    (eos_tokens : eos_tokens_arg) (stopping_criteria : criteria_arg)
    (s s' : session V) (txt : string) (usage : usage_stats V) :
  generate fuel config_eos_token_id args wl skip d prompt image audio video
    verbose eos_tokens stopping_criteria s = (Ok (Some (txt, usage)), s') →
  ∃ f steps final,
    stopping_function (s_heap s') (s_stopping_criteria s') = inl f
    ∧ steps_ok f skip (detok_reset d) 0 args steps
    ∧ txt = joined_text (steps.*2 ++ [final])
    ∧ text final
      = detok_last_segment
          (detok_finalize (detok_feed skip (detok_reset d) steps.*1))
    ∧ input_tokens usage = length (concat (input_ids args))
    ∧ total_tokens usage = input_tokens usage + output_tokens usage
    ∧ ((w_trace (s_world s')
        = w_trace (s_world s) ++ blocks steps ++ [EvFinalize; EvYield final]
        ∧ steps ≠ []
        ∧ output_tokens usage = length steps)
       ∨ (∃ t, f t = true
             ∧ w_trace (s_world s')
               = w_trace (s_world s) ++ blocks steps
                   ++ [EvStopCheck t true; EvFinalize; EvYield final]
             ∧ output_tokens usage = length steps + 1)).
Proof.
  unfold generate. intros Hgen.
  apply P_bind_ok in Hgen as ([] & s0 & Hpre & Hgen).
  assert (s_world s0 = s_world s ∧ s_heap s0 = s_heap s
          ∧ s_stopping_criteria s0 = s_stopping_criteria s) as (Hw0 & Hh0 & Hc0).
  { destruct verbose; revert Hpre; run_p; by intros [= <-]. }
  apply P_bind_ok in Hgen as ([] & s1 & Hcrit & Hgen).
  assert (s_world s1 = s_world s0) as Hw1.
  { revert Hcrit. unfold generate_criteria.
    destruct (choose_stopping_criteria _ _ _ _ _) as [[slot|e|] h]; [|done..].
    by intros [= <-]. }
  apply P_bind_ok in Hgen as ([responses r] & s2 & Hstream & Hgen).
  destruct (run_stream_returns fuel args wl skip d s1)
    as (responses' & r' & w' & Hrun & Hret).
  rewrite Hrun in Hstream. injection Hstream as -> -> <-.
  apply P_bind_ok in Hgen as ([txt0 last_response] & s3 & Hcons & Hgen).
  rewrite consume_run in Hcons. injection Hcons as <- <- <-.
  apply P_bind_ok in Hgen as ([] & s4 & Hres & Hgen).
  destruct r as [[]|e|]; [|done..]. injection Hres as <-.
  destruct (Hret eq_refl)
    as (f & steps & final & Hf & Hsteps & -> & Hprompt & Htext & Htrace).
  rewrite last_snoc in Hgen. cbn [from_option] in Hgen.
  exists f, steps, final.
  assert (∃ out,
    (Ok (Some (txt, usage)), s')
    = (Ok (Some (joined_text (steps.*2 ++ [final]),
                 {| input_tokens := prompt_tokens final;
                    output_tokens := generation_tokens final;
                    total_tokens := prompt_tokens final + generation_tokens final;
                    usage_prompt_tps := prompt_tps final;
                    usage_generation_tps := generation_tps final;
                    usage_peak_memory := peak_memory final |})),
       {| s_world := w'; s_heap := s_heap s1;
          s_stopping_criteria := s_stopping_criteria s1; s_stdout := out |}))
    as [out Heq].
  { unfold joined_text. destruct verbose; cbn [andb] in Hgen.
    - destruct (_ =? 0) in Hgen; [revert Hgen; by run_p|].
      revert Hgen; unfold attribute, say; run_p; intros <-; eauto.
    - revert Hgen; unfold attribute, say; run_p; intros <-; eauto. }
  injection Heq as -> -> ->. cbn.
  split; [done|]. split; [done|]. split; [done|]. split; [done|].
  split; [done|]. split; [done|]. rewrite <- Hw0, <- Hw1.
  destruct Htrace as [(Htr & _ & Hne & Hgen')|(t & Ht & Htr & _ & Hgen')].
  - left. by rewrite Hgen'.
  - right. exists t. by rewrite Hgen'.
Qed.

Lemma same_engine_refl (s : session V) : same_engine s s.
Proof. done. Qed.

Lemma same_engine_trans (s1 s2 s3 : session V) :
  same_engine s1 s2 → same_engine s2 s3 → same_engine s1 s3.
Proof. intros (? & ? & ? & ?) (? & ? & ? & ?). repeat split; congruence. Qed.

Lemma same_engine_sym (s1 s2 : session V) : same_engine s1 s2 → same_engine s2 s1.
Proof. intros (? & ? & ? & ?). by repeat split. Qed.

Lemma other_lines_app (a b : list (printed V)) :
  other_lines (a ++ b) = other_lines a ++ other_lines b.
Proof. apply filter_app. Qed.

Lemma other_lines_own (l : list (printed V)) :
  Forall (λ p, own_line p = true) l → other_lines l = [].
Proof.
  induction 1 as [|p l Hp _ IH]; [done|]. unfold other_lines in *.
  rewrite filter_cons_False by congruence. done.
Qed.

Lemma other_lines_texts (responses : list (GenerationResult V)) :
  other_lines (V := V) ((λ response, PrText (text response)) <$> responses) = [].
Proof. apply other_lines_own, Forall_fmap, Forall_true. done. Qed.

(** Sessions that agree on the lines of other origin still do after
    each has printed lines of [generate]. *)
Lemma other_lines_more (a b l1 l2 : list (printed V)) :
  other_lines a = other_lines b →
  other_lines l1 = [] → other_lines l2 = [] →
  other_lines (a ++ l1) = other_lines (b ++ l2).
Proof. intros Hab H1 H2. by rewrite !other_lines_app, Hab, H1, H2. Qed.

Lemma sim_bind {A C D} (Q : outcome C → outcome D → Prop)
    (Post : A → Prop)
    (m1 m2 : P (session V) A) (f1 : A → P (session V) C)
    (f2 : A → P (session V) D) :
  sim eq m1 m2 →
  (∀ s a, (m1 s).1 = Ok a → Post a) →
  (∀ a, Post a → sim Q (f1 a) (f2 a)) →
  (∀ e, Q (Err e) (Err e)) → Q Cut Cut →
  sim Q (m1 ≫= f1) (m2 ≫= f2).
Proof.
  intros Hm Hpost Hf Herr Hcut s1 s2 Hs. unfold mbind, P_bind.
  destruct (Hm s1 s2 Hs) as [Hr Hs']. specialize (Hpost s1).
  destruct (m1 s1) as [[a|e|] s1'], (m2 s2) as [r2 s2']; cbn in *; subst r2.
  - by apply Hf; [apply Hpost|].
  - done.
  - done.
Qed.

Lemma sim_prints_r {A B} (Q : outcome A → outcome B → Prop)
    (m1 : P (session V) A) (m : P (session V) unit) (f2 : unit → P (session V) B) :
  prints m → sim Q m1 (f2 ()) → sim Q m1 (m ≫= f2).
Proof.
  intros Hm Hf s1 s2 Hs. unfold mbind, P_bind.
  destruct (Hm s2) as [Hr Hs']. destruct (m s2) as [r s2']. cbn in *. subst r.
  apply Hf. eapply same_engine_trans; [done|]. by apply same_engine_sym.
Qed.

Lemma sim_ret_l {A B} (Q : outcome A → outcome B → Prop)
    (f1 : unit → P (session V) A) (m2 : P (session V) B) :
  sim Q (f1 ()) m2 → sim Q (mret () ≫= f1) m2.
Proof. done. Qed.

Lemma prints_say (p : printed V) : own_line p = true → prints (say p).
Proof.
  intros Hp s. split; [done|]. repeat (split; [done|]). cbn.
  rewrite other_lines_app, (other_lines_own [p]), app_nil_r; [done|].
  by constructor.
Qed.

Lemma prints_bind (m : P (session V) unit) (f : unit → P (session V) unit) :
  prints m → prints (f ()) → prints (m ≫= f).
Proof.
  intros Hm Hf s. unfold mbind, P_bind.
  destruct (Hm s) as [Hr Hs]. destruct (m s) as [r s1]. cbn in *. subst r.
  destruct (Hf s1) as [Hr' Hs']. split; [done|]. by eapply same_engine_trans.
Qed.

Lemma sim_generate_criteria config_eos_token_id eos_tokens stopping_criteria :
  sim eq (generate_criteria (V := V) config_eos_token_id eos_tokens stopping_criteria)
    (generate_criteria config_eos_token_id eos_tokens stopping_criteria).
Proof.
  intros s1 s2 (Hw & Hh & Hc & Hout). unfold generate_criteria. rewrite Hh, Hc.
  by destruct (choose_stopping_criteria _ _ _ _ _) as [[slot|e|] h].
Qed.

Lemma sim_run_stream fuel (args : gen_args V) wl skip d :
  sim eq (run_stream fuel args wl skip d) (run_stream fuel args wl skip d).
Proof.
  intros s1 s2 (Hw & Hh & Hc & Hout).
  destruct (run_stream_returns fuel args wl skip d s1)
    as (responses1 & r1 & w1 & Hrun1 & _).
  destruct (run_stream_returns fuel args wl skip d s2)
    as (responses2 & r2 & w2 & Hrun2 & _).
  assert ((responses1, r1, w1) = (responses2, r2, w2)) as [= <- <- <-].
  { revert Hrun1 Hrun2. unfold run_stream.
    rewrite !(P_bind_val _ _ _ _ _ (wired_limit_enter_run wl _)).
    unfold stream_block. cbn [s_world s_heap s_stopping_criteria s_stdout].
    rewrite Hw, Hh, Hc.
    destruct (stopping_function _ _) as [f|e].
    - destruct (stream_generate _ _ _ _ _ _). by intros [= <- <- <-] [= <- <- <-].
    - destruct (stream_generate_untested _ _ _ _).
      by intros [= <- <- <-] [= <- <- <-]. }
  rewrite Hrun1, Hrun2. cbn. split; [done|]. repeat (split; [done|]).
  cbn [s_stdout]. by rewrite !other_lines_app, Hout.
Qed.

Lemma run_stream_nonempty fuel (args : gen_args V) wl skip d s responses r :
  (run_stream fuel args wl skip d s).1 = Ok (responses, r) →
  r = Val () → ∃ final, last responses = Some final.
Proof.
  destruct (run_stream_returns fuel args wl skip d s)
    as (responses' & r' & w' & -> & Hret).
  intros [= -> ->] Hr.
  destruct (Hret Hr) as (f & steps & final & _ & _ & -> & _).
  exists final. apply last_snoc.
Qed.

Lemma silent_bind {A B} (m : P (session V) A) (f : A → P (session V) B) :
  silent m → (∀ a, silent (f a)) → silent (m ≫= f).
Proof.
  intros Hm Hf s. unfold mbind, P_bind. specialize (Hm s).
  destruct (m s) as [[a|e|] s1]; cbn in *; [|done..]. by rewrite Hf.
Qed.

Lemma silent_ret {A} (a : A) : silent (V := V) (mret a).
Proof. done. Qed.

Lemma silent_attribute {A} name last_response (field : GenerationResult V → A) :
  silent (attribute name last_response field).
Proof. by destruct last_response. Qed.

Lemma silent_generate_criteria config_eos_token_id eos_tokens stopping_criteria :
  silent (generate_criteria (V := V) config_eos_token_id eos_tokens stopping_criteria).
Proof.
  intros s. unfold generate_criteria.
  by destruct (choose_stopping_criteria _ _ _ _ _) as [[slot|e|] h].
Qed.

Lemma silent_lift_outcome {A} (r : outcome A) : silent (V := V) (lift_outcome r).
Proof. done. Qed.

Lemma silent_consume responses so_far last_response :
  silent (consume (V := V) false responses so_far last_response).
Proof. intros s. rewrite consume_run. cbn. by rewrite app_nil_r. Qed.

Lemma sim_attribute {A} name last_response (field : GenerationResult V → A) :
  sim eq (attribute name last_response field) (attribute name last_response field).
Proof. by destruct last_response. Qed.

(** What the quiet call prints: the warning of [wired_limit], if the
    stream is entered and the model is close to the limit. *)
Lemma generate_quiet_stdout (fuel : nat) (config_eos_token_id : ids_ref)
    (args : gen_args V) (wl : wired_t) (skip : list nat) (d : detok_t)
    (prompt : string) (image audio video : media_arg)
    (eos_tokens : eos_tokens_arg) (stopping_criteria : criteria_arg)
    (s : session V) :
  s_stdout (generate fuel config_eos_token_id args wl skip d prompt image audio
              video false eos_tokens stopping_criteria s).2
  = s_stdout s
      ++ match (choose_stopping_criteria config_eos_token_id eos_tokens
                  stopping_criteria (s_stopping_criteria s) (s_heap s)).1 with
         | Ok _ => option_list (wired_limit_warning wl)
         | _ => []
         end.
Proof.
  unfold generate. rewrite P_ret_bind. unfold mbind at 1, P_bind at 1.
  unfold generate_criteria at 1.
  destruct (choose_stopping_criteria _ _ _ _ _) as [[slot|e|] h]; cbn [fst snd];
    [|by rewrite app_nil_r..].
  unfold mbind at 1, P_bind at 1.
  match goal with
  | |- context [run_stream fuel args wl skip d ?s1] =>
      destruct (run_stream_returns fuel args wl skip d s1)
        as (responses & r & w' & -> & _)
  end.
  cbn [s_world s_heap s_stopping_criteria s_stdout].
  match goal with
  | |- s_stdout (?m ?s2).2 = _ => assert (silent m) as Hsilent
  end.
  { cbn [andb].
    repeat (apply silent_bind || apply silent_ret || apply silent_attribute
            || apply silent_consume || apply silent_lift_outcome
            || intros [] || intros ? ). }
  by rewrite Hsilent.
Qed.

(** X19. [verbose] changes what [generate] itself prints, and one
    result, only: the verbose call returns what the quiet call returns,
    except that it returns [None] in place of an empty text with its
    statistics; both leave the engine, the list objects and the stopping
    criteria in the same state, and the same lines of other origin on
    the standard output. The quiet call is not silent: when the options
    for the stopping criteria are accepted, so that the stream is
    entered, and the model is close to the memory limit, it prints the
    warning of [wired_limit], and that is all it prints. *)
Theorem generate_verbose (fuel : nat) (config_eos_token_id : ids_ref)
    (args : gen_args V) (wl : wired_t) (skip : list nat) (d : detok_t)
    (prompt : string) (image audio video : media_arg)
    (eos_tokens : eos_tokens_arg) (stopping_criteria : criteria_arg)
    (s : session V) :
  let quiet :=
    generate fuel config_eos_token_id args wl skip d prompt image audio video
      false eos_tokens stopping_criteria s in
  let loud :=
    generate fuel config_eos_token_id args wl skip d prompt image audio video
      true eos_tokens stopping_criteria s in
  loud.1 = verbose_result quiet.1
  ∧ same_engine quiet.2 loud.2
  ∧ s_stdout quiet.2
    = s_stdout s
        ++ match (choose_stopping_criteria config_eos_token_id eos_tokens
                    stopping_criteria (s_stopping_criteria s) (s_heap s)).1 with
           | Ok _ => option_list (wired_limit_warning wl)
           | _ => []
           end.
Proof.
  cbn zeta.
  assert (sim (λ quiet loud, loud = verbose_result quiet)
            (generate fuel config_eos_token_id args wl skip d prompt image audio
               video false eos_tokens stopping_criteria)
            (generate fuel config_eos_token_id args wl skip d prompt image audio
               video true eos_tokens stopping_criteria)) as Hsim; cycle 1.
  { destruct (Hsim s s (same_engine_refl s)) as [Hr He].
    split; [exact Hr|]. split; [exact He|]. apply generate_quiet_stdout. }
  unfold generate. apply sim_ret_l.
  apply sim_prints_r;
    [repeat (apply prints_bind || (apply prints_say; reflexivity))|].
  apply sim_bind with (Post := λ _, True);
    [apply sim_generate_criteria|done| |done..].
  intros [] _.
  apply sim_bind with (Post := λ a, a.2 = Val () → ∃ final, last a.1 = Some final);
    [apply sim_run_stream| | |done..].
  { intros s0 [responses r]. apply run_stream_nonempty. }
  intros [responses r] Hlast. cbn in Hlast.
  intros s1 s2 (Hw & Hh & Hc & Hout).
  rewrite !(P_bind_val _ _ _ _ _ (consume_run _ _ _ _ _)).
  assert (other_lines (s_stdout s1 ++ [])
          = other_lines (s_stdout s2 ++ ((λ response, PrText (text response))
                                           <$> responses))) as Hout'.
  { apply other_lines_more; [done|done|apply other_lines_texts]. }
  destruct r as [[]|e|]; [|by split; [|repeat split]..].
  destruct (Hlast eq_refl) as [final ->]. cbn [from_option].
  erewrite !(P_bind_val (lift_outcome _)) by reflexivity. cbn [andb].
  destruct (String.length _ =? 0) eqn:Hlen;
    unfold attribute, say; run_p; unfold verbose_result; rewrite Hlen;
    (split; [done|]); repeat (split; [done|]);
    rewrite <- !app_assoc;
    (apply other_lines_more; [done|done|]);
    rewrite other_lines_app, other_lines_texts;
    apply other_lines_own; repeat constructor.
Qed.

Lemma stream_generate_empty (fuel : nat) (args : gen_args V) (f : nat → bool)
    (skip : list nat) (d : detok_t) (w : world V) :
  runtime_ok →
  check_repetition_penalty (repetition_penalty args) = Val () →
  max_tokens args = 0%Z → 0 < fuel →
  ∃ w', stream_generate fuel args f skip d w
        = (Exn (UnboundLocalError "token"), w')
        ∧ yielded (w_trace w') = yielded (w_trace w).
Proof.
  intros Hrt Hcheck Hmax Hfuel. destruct fuel as [|fuel]; [lia|].
  destruct (stream_generate (S fuel) args f skip d w) as [r w'] eqn:Hres.
  unfold stream_generate in Hres. unfold mbind at 1, M_bind at 1 in Hres.
  cbn [tick] in Hres. set (w0 := with_clock_read w) in Hres.
  destruct (gen_next_stops args 0 GenCreated w0 Hrt Hcheck Hmax eq_refl)
    as [w1 Hnext].
  pose proof (gen_next_trace args GenCreated w0) as Hframe.
  rewrite Hnext in Hframe. cbn in Hframe.
  unfold mbind at 1, M_bind at 1 in Hres. cbn [stream_loop] in Hres.
  unfold mbind at 1, M_bind at 1 in Hres. rewrite Hnext in Hres.
  revert Hres. run_m. intros [= <- <-]. eexists. split; [done|]. cbn.
  rewrite Hframe. unfold yielded. rewrite omap_app. cbn. by rewrite app_nil_r.
Qed.

(** The check of [repetition_penalty] passes or raises; and when it
    raises, so does the first [next()] on the generator, before anything
    else. *)
Lemma check_repetition_penalty_raises (args : gen_args V) (w : world V) :
  check_repetition_penalty (repetition_penalty args) = Val ()
  ∨ ∃ e, check_repetition_penalty (repetition_penalty args) = Exn e
         ∧ gen_next args GenCreated w = (Exn e, w).
Proof.
  cbn [gen_next]. unfold gen_start.
  destruct (check_repetition_penalty (repetition_penalty args)) as [[]|e|] eqn:Hc.
  - by left.
  - right. exists e. split; [done|]. by erewrite bind_exn by reflexivity.
  - exfalso. revert Hc. unfold check_repetition_penalty.
    destruct (py_truthy _); [|done].
    destruct (repetition_penalty args); cbn; try done;
      by destruct (_ || _).
Qed.

(** With a budget of zero the stream yields nothing and raises: the
    error of the penalty check, or else the one on [token]. *)
Lemma stream_block_zero_budget (fuel : nat) (args : gen_args V)
    (skip : list nat) (d : detok_t) (s : session V) :
  runtime_ok → max_tokens args = 0%Z → 0 < fuel →
  ∃ w',
    stream_block fuel args skip d s
    = (Ok ([], Exn (match check_repetition_penalty (repetition_penalty args) with
                    | Exn e => e
                    | _ => UnboundLocalError "token"
                    end)),
       {| s_world := w'; s_heap := s_heap s;
          s_stopping_criteria := s_stopping_criteria s;
          s_stdout := s_stdout s |})
    ∧ yielded (w_trace w') = yielded (w_trace (s_world s)).
Proof.
  intros Hrt Hmax Hfuel. unfold stream_block.
  set (w0 := with_clock_read (s_world s)).
  destruct (check_repetition_penalty_raises args w0) as [Hcheck|(e & Hcheck & Hnext)];
    rewrite Hcheck.
  - destruct (stopping_function _ _) as [f|e].
    + destruct (stream_generate_empty fuel args f skip d (s_world s))
        as (w' & -> & Hy); [done..|].
      exists w'. by rewrite Hy, drop_all.
    + destruct (stream_generate_untested args d e (s_world s)) as [r w'] eqn:Hres.
      unfold stream_generate_untested in Hres.
      unfold mbind at 1, M_bind at 1 in Hres. cbn [tick] in Hres. fold w0 in Hres.
      destruct (gen_next_stops args 0 GenCreated w0 Hrt Hcheck Hmax eq_refl)
        as [w1 Hnext].
      pose proof (gen_next_trace args GenCreated w0) as Hframe.
      rewrite Hnext in Hframe. cbn in Hframe.
      unfold mbind at 1, M_bind at 1 in Hres. rewrite Hnext in Hres.
      revert Hres. run_m. intros [= <- <-]. eexists. cbn. rewrite Hframe.
      unfold yielded. rewrite omap_app. cbn. rewrite app_nil_r, drop_all.
      split; [reflexivity|]. cbn. rewrite omap_app. cbn. by rewrite app_nil_r.
  - destruct fuel as [|fuel]; [lia|]. exists w0.
    destruct (stopping_function _ _) as [f|e'].
    + unfold stream_generate. unfold mbind at 1, M_bind at 1. cbn [tick].
      fold w0. unfold mbind at 1, M_bind at 1. cbn [stream_loop].
      unfold mbind at 1, M_bind at 1. rewrite Hnext. cbn. by rewrite drop_all.
    + unfold stream_generate_untested. unfold mbind at 1, M_bind at 1.
      cbn [tick]. fold w0. unfold mbind at 1, M_bind at 1. rewrite Hnext.
      cbn. by rewrite drop_all.
Qed.

Lemma run_stream_zero_budget (fuel : nat) (args : gen_args V) (wl : wired_t)
    (skip : list nat) (d : detok_t) (s : session V) :
  runtime_ok → max_tokens args = 0%Z → 0 < fuel →
  ∃ w',
    run_stream fuel args wl skip d s
    = (Ok ([], Exn (match check_repetition_penalty (repetition_penalty args) with
                    | Exn e => e
                    | _ => UnboundLocalError "token"
                    end)),
       {| s_world := w'; s_heap := s_heap s;
          s_stopping_criteria := s_stopping_criteria s;
          s_stdout := s_stdout s ++ option_list (wired_limit_warning wl) |})
    ∧ yielded (w_trace w') = yielded (w_trace (s_world s)).
Proof.
  intros Hrt Hmax Hfuel. unfold run_stream.
  rewrite (P_bind_val _ _ _ _ _ (wired_limit_enter_run wl s)).
  match goal with
  | |- context [stream_block fuel args skip d ?s1] =>
      destruct (stream_block_zero_budget fuel args skip d s1 Hrt Hmax Hfuel)
        as (w' & Hrun & Hyield)
  end.
  exists w'. split; [exact Hrun|exact Hyield].
Qed.

Lemma choose_stopping_criteria_not_cut config_eos_token_id eos_tokens
    stopping_criteria slot (h : heap) :
  (choose_stopping_criteria config_eos_token_id eos_tokens stopping_criteria
     slot h).1 ≠ Cut.
Proof.
  unfold choose_stopping_criteria.
  destruct eos_tokens as [|t|l].
  - destruct stopping_criteria as [|c|f|]; try done.
    destruct slot as [c|f]; [|done].
    unfold StoppingCriteria_reset_obj.
    destruct config_eos_token_id as [|i|p]; run_p.
    + destruct (c_tokenizer c) as [tk|]; run_p; [|done].
      destruct (t_eos_token_ids tk); run_p; by destruct (ids_differ _ _ _).
    + by destruct (ids_differ _ _ _).
    + by destruct (ids_differ _ _ _).
  - destruct slot as [c|f]; [|done].
    unfold StoppingCriteria_add_eos_token_ids.
    destruct (c_tokenizer c) as [tk|]; [|done].
    destruct t as [str|z]; run_p; [|done].
    destruct (last _); run_p; [|done].
    unfold extend. by destruct (c_eos_token_ids c).
  - destruct slot as [c|f]; [|done].
    unfold StoppingCriteria_add_eos_token_ids.
    destruct (c_tokenizer c) as [tk|]; [|done]. run_p.
    pose proof (encode_all_not_cut tk l) as Hcut.
    destruct (encode_all tk l); run_p; [|done..].
    unfold extend. by destruct (c_eos_token_ids c).
Qed.

(** X20. With [max_tokens = 0], [generate] never returns and yields no
    record, whatever the other options are. When the options for the
    stopping criteria are refused, it raises their error and the
    criteria stay as they were. Otherwise the criteria have been changed
    by then and stay changed, and it raises the error of the check of
    [repetition_penalty] if that fails, and else [UnboundLocalError] for
    [token]. *)
Theorem generate_zero_budget (fuel : nat) (config_eos_token_id : ids_ref)
    (args : gen_args V) (wl : wired_t) (skip : list nat) (d : detok_t)
    (prompt : string) (image audio video : media_arg) (verbose : bool)
    (eos_tokens : eos_tokens_arg) (stopping_criteria : criteria_arg)
    (s : session V) :
  runtime_ok → max_tokens args = 0%Z → 0 < fuel →
  ∃ e s',
    generate fuel config_eos_token_id args wl skip d prompt image audio video
      verbose eos_tokens stopping_criteria s
    = (Err e, s')
    ∧ yielded (w_trace (s_world s')) = yielded (w_trace (s_world s))
    ∧ match choose_stopping_criteria config_eos_token_id eos_tokens
              stopping_criteria (s_stopping_criteria s) (s_heap s) with
      | (Ok slot, h) =>
          s_heap s' = h ∧ s_stopping_criteria s' = slot
          ∧ e = Raised (match check_repetition_penalty (repetition_penalty args) with
                        | Exn e' => e'
                        | _ => UnboundLocalError "token"
                        end)
      | (_, h) =>
          (choose_stopping_criteria config_eos_token_id eos_tokens
             stopping_criteria (s_stopping_criteria s) (s_heap s)).1 = Err e
          ∧ s_world s' = s_world s ∧ s_heap s' = h
          ∧ s_stopping_criteria s' = s_stopping_criteria s
      end.
Proof.
  intros Hrt Hmax Hfuel. unfold generate.
  set (pre := if verbose then _ else _).
  assert (∃ out, pre s = (Ok (), {| s_world := s_world s; s_heap := s_heap s;
                                   s_stopping_criteria := s_stopping_criteria s;
                                   s_stdout := out |})) as [out Hpre].
  { unfold pre. destruct verbose, s; run_p; eauto. }
  rewrite (P_bind_val _ _ _ _ _ Hpre).
  unfold mbind at 1, P_bind at 1. unfold generate_criteria at 1.
  cbn [s_world s_heap s_stopping_criteria s_stdout].
  pose proof (choose_stopping_criteria_not_cut config_eos_token_id eos_tokens
                stopping_criteria (s_stopping_criteria s) (s_heap s)) as Hcut.
  destruct (choose_stopping_criteria _ _ _ _ _) as [[slot|e|] h]; [| |done].
  2: { eexists _, _. split; [reflexivity|]. done. }
  destruct (run_stream_zero_budget fuel args wl skip d
              {| s_world := s_world s; s_heap := h; s_stopping_criteria := slot;
                 s_stdout := out |} Hrt Hmax Hfuel)
    as (w' & Hrun & Hyield).
  rewrite (P_bind_val _ _ _ _ _ Hrun).
  rewrite (P_bind_val _ _ _ _ _ (consume_run _ _ _ _ _)).
  eexists _, _. split; [reflexivity|]. done.
Qed.

(** X21. A quiet call of [generate] with a budget of [m > 0] tokens
    and criteria that never stop returns: the text of [m] step records
    and a last record, and statistics with [output_tokens = m] and
    [total_tokens] the size of the prompt plus [m]. *)
Theorem generate_at_budget (fuel m : nat) (config_eos_token_id : ids_ref)
    (args : gen_args V) (wl : wired_t) (skip : list nat) (d : detok_t)
    (prompt : string) (image audio video : media_arg)
    (eos_tokens : eos_tokens_arg) (stopping_criteria : criteria_arg)
    (s : session V) (slot : criteria_slot) (h : heap) (f : nat → bool) :
  runtime_ok →
  check_repetition_penalty (repetition_penalty args) = Val () →
  max_tokens args = Z.of_nat m → 0 < m → m < fuel →
  choose_stopping_criteria config_eos_token_id eos_tokens stopping_criteria
    (s_stopping_criteria s) (s_heap s) = (Ok slot, h) →
  stopping_function h slot = inl f →
  (∀ t, f t = false) →
  ∃ steps final s',
    generate fuel config_eos_token_id args wl skip d prompt image audio video
      false eos_tokens stopping_criteria s
    = (Ok (Some (joined_text (steps.*2 ++ [final]),
                 {| input_tokens := length (concat (input_ids args));
                    output_tokens := m;
                    total_tokens := length (concat (input_ids args)) + m;
                    usage_prompt_tps := prompt_tps final;
                    usage_generation_tps := generation_tps final;
                    usage_peak_memory := peak_memory final |})), s')
    ∧ length steps = m
    ∧ steps_ok f skip (detok_reset d) 0 args steps
    ∧ w_trace (s_world s')
      = w_trace (s_world s) ++ blocks steps ++ [EvFinalize; EvYield final].
Proof.
  intros Hrt Hcheck Hmax Hm Hfuel Hchoose Hf Hnever. unfold generate.
  erewrite P_bind_val by reflexivity.
  erewrite P_bind_val; cycle 1.
  { unfold generate_criteria. by rewrite Hchoose. }
  destruct (stream_generate_exhausts args f skip m fuel d (s_world s))
    as (steps & final & w' & Hrun & Hlen & Htr & Hsteps & Hgen & Hprompt);
    [done..|].
  exists steps, final.
  erewrite P_bind_val; cycle 1.
  { unfold run_stream.
    rewrite (P_bind_val _ _ _ _ _ (wired_limit_enter_run wl _)).
    unfold stream_block. cbn [s_world s_heap s_stopping_criteria s_stdout].
    rewrite Hf, Hrun, Htr, !yielded_app, drop_app_length, yielded_blocks.
    reflexivity. }
  cbn beta iota zeta. change (yielded [EvFinalize; EvYield final]) with [final].
  rewrite (P_bind_val _ _ _ _ _ (consume_run _ _ _ _ _)).
  rewrite last_snoc. unfold attribute. run_p. rewrite Hgen, Hprompt.
  eexists. split; [reflexivity|]. done.
Qed.

End GenerateProperties.

Lemma _update_vision_config_pads_witness :
  ∃ padded config' vision_config',
    _update_vision_config example_config (SInt 1000) 64 "intermediate_size"
    = Ok config'
    ∧ dict_get "vision_config" config' = Some (Sub vision_config')
    ∧ dict_get "intermediate_size" vision_config' = Some (CInt padded)
    ∧ (64 | padded)%Z
    ∧ (1000 ≤ padded < 1000 + 64)%Z
    ∧ (∀ k, k ≠ "intermediate_size" →
         dict_get k vision_config' = dict_get k [("hidden_size", CInt 1024)])
    ∧ (∀ k, k ≠ "vision_config" → dict_get k config' = dict_get k example_config).
Proof.
  apply (_update_vision_config_pads example_config [("hidden_size", CInt 1024)]
           1000 64 "intermediate_size").
  - lia.
  - apply (bool_decide_unpack _). by vm_compute.
  - reflexivity.
Defined.

Lemma resample_audio_factors_witness :
  ∃ up down,
    resample_audio (λ audio up down : Z, (audio * up `div` down)%Z) 441%Z 44100 16000
    = Ok (441 * up `div` down)%Z
    ∧ (0 < up)%Z ∧ (0 < down)%Z
    ∧ (up * 44100 = down * 16000)%Z
    ∧ Z.gcd up down = 1%Z
    ∧ (44100%Z = 16000%Z → up = 1%Z ∧ down = 1%Z).
Proof.
  apply (proj1 (resample_audio_factors
                  (λ audio up down : Z, (audio * up `div` down)%Z)
                  441%Z 44100 16000)); lia.
Defined.

Lemma save_config_written_witness :
  let '(config', written) := save_config example_config in
  Sorted (λ a b : string, String.leb a b = true) written.*1
  ∧ (∀ k v, (k, v) ∈ written
            ↔ (k, v) ∈ example_config ∧ k ≠ "_name_or_path" ∧ k ≠ "torch_dtype")
  ∧ (∀ k v, (k, v) ∈ config'
            ↔ (k, v) ∈ example_config ∧ k ≠ "_name_or_path" ∧ k ≠ "torch_dtype").
Proof.
  apply (save_config_written example_config).
  apply (bool_decide_unpack _). by vm_compute.
Defined.

Lemma add_eos_token_ids_extends_witness :
  ∃ h',
    StoppingCriteria_add_eos_token_ids example_criteria
      (EosList (TokStr <$> ["</s>"; "stop"])) [[4]]
    = (Ok (), h')
    ∧ h' !! 0 = Some ([4] ++ [5; 5])
    ∧ (∀ q, q ≠ 0 → h' !! q = [[4]] !! q)
    ∧ ∀ t, StoppingCriteria_call_obj h' example_criteria t
           = Ok (bool_decide (t ∈ [4] ∨ t ∈ [5; 5])).
Proof.
  apply (add_eos_token_ids_extends example_criteria example_tokenizer 0 [4] [5; 5]
           ["</s>"; "stop"] [[4]]); try reflexivity.
  by repeat constructor.
Defined.

Lemma eos_tokens_outlive_reset_witness :
  ∃ c0 slot1 slot2 h1,
    load_stopping_criteria (RList 0) example_tokenizer [[4]] = (Ok c0, [[4]])
    ∧ choose_stopping_criteria (RList 0) (EosList [TokStr "stop"]) ArgNone
        (SlotCriteria c0) [[4]] = (Ok slot1, h1)
    ∧ choose_stopping_criteria (RList 0) EosNone ArgNone slot1 h1
      = (Ok slot2, h1)
    ∧ h1 !! 0 = Some ([4] ++ [5])
    ∧ ∀ x, slot_call h1 slot2 x = Ok (bool_decide (x ∈ [4] ++ [5])).
Proof.
  apply (eos_tokens_outlive_reset example_tokenizer [[4]] 0 [4] "stop" 5);
    reflexivity.
Defined.

Lemma eos_tokens_dropped_by_reset_witness :
  ∃ c0 slot1 slot2 h0 h1 h2,
    load_stopping_criteria (RInt 4) example_tokenizer [] = (Ok c0, h0)
    ∧ choose_stopping_criteria (RInt 4) (EosList [TokStr "stop"]) ArgNone
        (SlotCriteria c0) h0 = (Ok slot1, h1)
    ∧ (∀ x, slot_call h1 slot1 x = Ok (bool_decide (x ∈ [4; 5])))
    ∧ choose_stopping_criteria (RInt 4) EosNone ArgNone slot1 h1
      = (Ok slot2, h2)
    ∧ ∀ x, slot_call h2 slot2 x = Ok (bool_decide (x ∈ [4])).
Proof.
  apply (eos_tokens_dropped_by_reset example_tokenizer [] 4 "stop" 5).
  reflexivity.
Defined.

Lemma StoppingCriteria_reset_obj_refines_witness :
  ∃ a',
    read_criteria [[4]; [7]] {| c_eos_token_ids := RList 1;
                                c_tokenizer := Some example_tokenizer |}
    = Some a'
    ∧ StoppingCriteria_reset
        {| eos_token_ids := [4];
           tokenizer := Some {| tk_eos_token_ids := OneId 9 |} |}
        (Some (Ids [7])) = Val a'
    ∧ ∀ t, StoppingCriteria_call_obj [[4]; [7]]
             {| c_eos_token_ids := RList 1; c_tokenizer := Some example_tokenizer |} t
           = Ok (StoppingCriteria_call a' t).
Proof.
  apply (StoppingCriteria_reset_obj_refines example_criteria (RList 1) [[4]; [7]]
           {| eos_token_ids := [4];
              tokenizer := Some {| tk_eos_token_ids := OneId 9 |} |}).
  - reflexivity.
  - intros _. by eexists.
Defined.

Lemma generate_usage_witness :
  ∃ txt usage s',
    generate 10 (RList 0) (Toy.args [1; 2] 5 PyNone (Some 20%Z)) example_wired []
      Toy.detokenizer0 "hi" MediaNone MediaNone MediaNone true EosNone ArgNone
      example_session = (Ok (Some (txt, usage)), s')
    ∧ ∃ f steps final,
        stopping_function (s_heap s') (s_stopping_criteria s') = inl f
        ∧ steps_ok f [] (detok_reset Toy.detokenizer0) 0
            (Toy.args [1; 2] 5 PyNone (Some 20%Z)) steps
        ∧ txt = joined_text (steps.*2 ++ [final])
        ∧ text final
          = detok_last_segment
              (detok_finalize
                 (detok_feed [] (detok_reset Toy.detokenizer0) steps.*1))
        ∧ input_tokens usage
          = length (concat (input_ids (Toy.args [1; 2] 5 PyNone (Some 20%Z))))
        ∧ total_tokens usage = input_tokens usage + output_tokens usage
        ∧ ((w_trace (s_world s')
            = w_trace (s_world example_session) ++ blocks steps
                ++ [EvFinalize; EvYield final]
            ∧ steps ≠ []
            ∧ output_tokens usage = length steps)
           ∨ (∃ t, f t = true
                 ∧ w_trace (s_world s')
                   = w_trace (s_world example_session) ++ blocks steps
                       ++ [EvStopCheck t true; EvFinalize; EvYield final]
                 ∧ output_tokens usage = length steps + 1)).
Proof.
  eexists _, _, _. split; [vm_compute; reflexivity|].
  eapply (generate_usage 10 (RList 0) (Toy.args [1; 2] 5 PyNone (Some 20%Z))
            example_wired [] Toy.detokenizer0 "hi" MediaNone MediaNone MediaNone true EosNone
            ArgNone example_session).
  vm_compute. reflexivity.
Defined.

(** A verbose and a quiet call for a model close to the limit: the
    quiet call prints the warning of [wired_limit] and nothing else. *)
Lemma generate_verbose_witness :
  (generate 10 (RList 0) (Toy.args [1; 2] 5 PyNone (Some 20%Z)) example_wired []
     Toy.detokenizer0 "hi" MediaNone MediaNone MediaNone true EosNone ArgNone
     example_session).1
  = verbose_result
      (generate 10 (RList 0) (Toy.args [1; 2] 5 PyNone (Some 20%Z)) example_wired []
         Toy.detokenizer0 "hi" MediaNone MediaNone MediaNone false EosNone ArgNone
         example_session).1
  ∧ same_engine
      (generate 10 (RList 0) (Toy.args [1; 2] 5 PyNone (Some 20%Z)) example_wired []
         Toy.detokenizer0 "hi" MediaNone MediaNone MediaNone false EosNone ArgNone
         example_session).2
      (generate 10 (RList 0) (Toy.args [1; 2] 5 PyNone (Some 20%Z)) example_wired []
         Toy.detokenizer0 "hi" MediaNone MediaNone MediaNone true EosNone ArgNone
         example_session).2
  ∧ s_stdout
      (generate 10 (RList 0) (Toy.args [1; 2] 5 PyNone (Some 20%Z)) example_wired []
         Toy.detokenizer0 "hi" MediaNone MediaNone MediaNone false EosNone ArgNone
         example_session).2
    = [PrWiredLimit 15360 16384].
Proof.
  exact (generate_verbose 10 (RList 0) (Toy.args [1; 2] 5 PyNone (Some 20%Z))
           example_wired [] Toy.detokenizer0 "hi" MediaNone MediaNone MediaNone
           EosNone ArgNone example_session).
Defined.

(** What the verbose call prints in that session, in which the second
    token, [4], is a stop token. *)
Example generate_verbose_stdout :
  s_stdout
    (generate 10 (RList 0) (Toy.args [1; 2] 5 PyNone (Some 20%Z)) example_wired []
       Toy.detokenizer0 "hi" MediaNone MediaNone MediaNone true EosNone ArgNone
       example_session).2
  = [PrRule; PrFiles []; PrPrompt "hi"; PrWiredLimit 15360 16384;
     PrText "3"; PrText EmptyString; PrEndRule;
     PrPromptStats 2 (2 # 1)%Q; PrGenerationStats 2 (2 # 2)%Q; PrPeakMemory 0%Q].
Proof. vm_compute. reflexivity. Qed.

Lemma generate_zero_budget_witness :
  (∃ e s',
     generate 3 (RList 0) (Toy.args [1; 2] 0 PyNone (Some 20%Z)) example_wired []
       Toy.detokenizer0 "hi" MediaNone MediaNone MediaNone false
       (EosList [TokStr "stop"]) ArgNone example_session
     = (Err e, s')
     ∧ yielded (w_trace (s_world s')) = yielded (w_trace (s_world example_session))
     ∧ s_heap s' = [[4; 5]]
     ∧ s_stopping_criteria s' = SlotCriteria example_criteria
     ∧ e = Raised (UnboundLocalError "token"))
  ∧ (∃ e s',
       generate 3 (RList 0) (Toy.args [1; 2] 0 (PyInt 1) (Some 20%Z)) example_wired []
         Toy.detokenizer0 "hi" MediaNone MediaNone MediaNone false
         EosNone (ArgCallable (λ _, false)) example_session
       = (Err e, s')
       ∧ yielded (w_trace (s_world s')) = yielded (w_trace (s_world example_session))
       ∧ s_heap s' = [[4]]
       ∧ s_stopping_criteria s' = SlotCallable (λ _, false)
       ∧ e = Raised (ValueError
                       "repetition_penalty must be a non-negative float, got 1"))
  ∧ (∃ e s',
       generate 3 (RList 0) (Toy.args [1; 2] 0 PyNone (Some 20%Z)) example_wired []
         Toy.detokenizer0 "hi" MediaNone MediaNone MediaNone false
         EosNone ArgOther example_session
       = (Err e, s')
       ∧ yielded (w_trace (s_world s')) = yielded (w_trace (s_world example_session))
       ∧ Err (A := criteria_slot)
           (Raised (ValueError
              "stopping_criteria must be an instance of StoppingCriteria or a callable"))
         = Err e
       ∧ s_world s' = s_world example_session
       ∧ s_heap s' = [[4]]
       ∧ s_stopping_criteria s' = s_stopping_criteria example_session).
Proof.
  split; [|split].
  - apply (generate_zero_budget 3 (RList 0) (Toy.args [1; 2] 0 PyNone (Some 20%Z))
             example_wired [] Toy.detokenizer0 "hi" MediaNone MediaNone MediaNone
             false (EosList [TokStr "stop"]) ArgNone example_session).
    + exact Toy_runtime_ok.
    + reflexivity.
    + lia.
  - apply (generate_zero_budget 3 (RList 0)
             (Toy.args [1; 2] 0 (PyInt 1) (Some 20%Z))
             example_wired [] Toy.detokenizer0 "hi" MediaNone MediaNone MediaNone
             false EosNone (ArgCallable (λ _, false)) example_session).
    + exact Toy_runtime_ok.
    + reflexivity.
    + lia.
  - apply (generate_zero_budget 3 (RList 0) (Toy.args [1; 2] 0 PyNone (Some 20%Z))
             example_wired [] Toy.detokenizer0 "hi" MediaNone MediaNone MediaNone
             false EosNone ArgOther example_session).
    + exact Toy_runtime_ok.
    + reflexivity.
    + lia.
Defined.

Lemma generate_at_budget_witness :
  ∃ steps final s',
    generate 4 (RList 0) (Toy.args [1; 2] 3 PyNone (Some 20%Z)) example_wired []
      Toy.detokenizer0 "hi" MediaNone MediaNone MediaNone false EosNone
      (ArgCallable (λ _, false)) example_session
    = (Ok (Some (joined_text (steps.*2 ++ [final]),
                 {| input_tokens :=
                      length (concat (input_ids (Toy.args [1; 2] 3 PyNone (Some 20%Z))));
                    output_tokens := 3;
                    total_tokens :=
                      length (concat (input_ids (Toy.args [1; 2] 3 PyNone (Some 20%Z))))
                      + 3;
                    usage_prompt_tps := prompt_tps final;
                    usage_generation_tps := generation_tps final;
                    usage_peak_memory := peak_memory final |})), s')
    ∧ length steps = 3
    ∧ steps_ok (λ _, false) [] (detok_reset Toy.detokenizer0) 0
        (Toy.args [1; 2] 3 PyNone (Some 20%Z)) steps
    ∧ w_trace (s_world s')
      = w_trace (s_world example_session) ++ blocks steps
          ++ [EvFinalize; EvYield final].
Proof.
  apply (generate_at_budget 4 3 (RList 0) (Toy.args [1; 2] 3 PyNone (Some 20%Z))
           example_wired [] Toy.detokenizer0 "hi" MediaNone MediaNone MediaNone EosNone
           (ArgCallable (λ _, false)) example_session
           (SlotCallable (λ _, false)) [[4]] (λ _, false)).
  - exact Toy_runtime_ok.
  - reflexivity.
  - reflexivity.
  - lia.
  - lia.
  - reflexivity.
  - reflexivity.
  - reflexivity.
Defined.

(** ** Forward passes and the repetition context *)

Section PassProperties.
Context {V : Type} `{!Scalar V} `{!Runtime V}.
Context (args : gen_args V).

Lemma decode_passes_app (a b : list device_event) :
  decode_passes (a ++ b) = decode_passes a + decode_passes b.
Proof. unfold decode_passes. by rewrite omap_app, length_app. Qed.

Lemma prompt_passes_app (a b : list device_event) :
  prompt_passes (a ++ b) = prompt_passes a + prompt_passes b.
Proof. unfold prompt_passes. by rewrite omap_app, length_app. Qed.

Lemma penalty_contexts_app (a b : list device_event) :
  penalty_contexts (a ++ b) = penalty_contexts a ++ penalty_contexts b.
Proof. apply omap_app. Qed.

Lemma sample_log (logits : list (list V)) (w : world V) :
  w_log (sample args logits w).2 = w_log w.
Proof.
  unfold sample. destruct (s_eqb _ _).
  - unfold mbind, M_bind, lift_res. by destruct (argmax_rows _).
  - destruct (_ && _).
    + by destruct (top_p_sampling _ _ _ _).
    + by destruct (categorical _ _).
Qed.

(** One single-token pass: what it logs and the context it leaves. *)
Lemma _step_log y kwargs cache context (w : world V) :
  runtime_ok →
  check_repetition_penalty (repetition_penalty args) = Val () →
  ∃ t lp cache' w',
    _step args y kwargs cache context w
    = (Val ([t], lp, cache',
            trim_context args
              (if py_truthy (repetition_penalty args) then context ++ [t]
               else context)), w')
    ∧ w_log w'
      = w_log w ++ EvDecode
          :: (if py_truthy (repetition_penalty args) then [EvPenalty context]
              else []).
Proof.
  intros Hrt Hcheck. unfold _step.
  assert (Hrow : single_row
            (match kwargs with
             | KwEncDec _ _ => language_model None kwargs cache
             | _ => language_model (Some y) kwargs cache
             end).1).
  { destruct kwargs; apply (language_model_single Hrt). }
  destruct (match kwargs with KwEncDec _ _ => _ | _ => _ end) as [logits cache'].
  cbn in Hrow.
  destruct (py_truthy (repetition_penalty args)) eqn:Htruthy.
  - destruct (check_truthy_float _ Hcheck Htruthy) as [p Hp]. rewrite Hp.
    set (w2 := with_device_event (EvPenalty context)
                 (with_device_event EvDecode w)).
    pose proof (sample_log (apply_repetition_penalty logits context p) w2) as Hlog.
    destruct (sample_run args (apply_repetition_penalty logits context p) w2 Hrt)
      as (t & lp & w3 & Hsample & [row [-> _]]).
    { by apply apply_repetition_penalty_single. }
    rewrite Hsample in Hlog. cbn in Hlog.
    exists t, (Arr1 row), cache', w3. split.
    + bind_refl.
      erewrite bind_val; cycle 1.
      { do 2 bind_refl. erewrite bind_val by exact Hsample. cbn.
        bind_refl. reflexivity. }
      cbn. bind_refl. reflexivity.
    + rewrite Hlog. cbn. by rewrite <- app_assoc.
  - set (w2 := with_device_event EvDecode w).
    pose proof (sample_log logits w2) as Hlog.
    destruct (sample_run args logits w2 Hrt Hrow)
      as (t & lp & w3 & Hsample & [row [-> _]]).
    rewrite Hsample in Hlog. cbn in Hlog.
    exists t, (Arr1 row), cache', w3. split.
    + bind_refl.
      erewrite bind_val; cycle 1.
      { erewrite bind_val by exact Hsample. reflexivity. }
      cbn. bind_refl. reflexivity.
    + by rewrite Hlog.
Qed.

Lemma loop_iteration_log t lp (n : Z) cache context kwargs (w : world V) :
  runtime_ok →
  check_repetition_penalty (repetition_penalty args) = Val () →
  n ≠ max_tokens args →
  ∃ t' f w',
    loop_iteration args [t] lp n cache context kwargs w
    = (Val (GenYield t lp (GenSuspended f)), w')
    ∧ f_n f = n
    ∧ f_next_y f = [t']
    ∧ f_repetition_context f
      = trim_context args
          (if py_truthy (repetition_penalty args) then context ++ [t']
           else context)
    ∧ w_log w'
      = w_log w ++ EvDecode
          :: (if py_truthy (repetition_penalty args) then [EvPenalty context]
              else []).
Proof.
  intros Hrt Hcheck Hn. unfold loop_iteration.
  rewrite bool_decide_eq_true_2 by done.
  destruct (_step_log [t] kwargs cache context w Hrt Hcheck)
    as (t' & lp' & cache' & w' & Hstep & Hlog).
  eexists t', _, w'. split.
  - erewrite bind_val by exact Hstep. cbn. bind_refl. reflexivity.
  - done.
Qed.

Lemma gen_start_log (w : world V) :
  runtime_ok →
  check_repetition_penalty (repetition_penalty args) = Val () →
  ∃ t lp cache kwargs w1,
    gen_start args w
    = loop_iteration args [t] lp 0%Z cache (initial_context args) kwargs w1
    ∧ w_log w1 = w_log w ++ [EvMakeCache; EvPrefill].
Proof.
  intros Hrt Hcheck. unfold gen_start. rewrite Hcheck.
  pose proof (model_single Hrt (input_ids args) make_cache) as Hrow.
  destruct (model (input_ids args) make_cache) as [outputs cache].
  cbn in Hrow.
  set (w0 := with_device_event EvPrefill (with_device_event EvMakeCache w)).
  pose proof (sample_log (out_logits outputs) w0) as Hlog.
  destruct (sample_run args (out_logits outputs) w0 Hrt Hrow)
    as (t & lp & w1 & Hsample & _).
  rewrite Hsample in Hlog. cbn in Hlog.
  eexists t, _, _, _, w1. split.
  - do 3 bind_refl. erewrite bind_val by exact Hsample. reflexivity.
  - rewrite Hlog. cbn. by rewrite <- app_assoc.
Qed.

(** A [next()] that is within the budget, or has none: it yields after
    exactly one single-token pass, and after the prompt pass if it is
    the first. *)
Lemma gen_next_log (k : nat) (g : gen_state) (w : world V) :
  runtime_ok →
  check_repetition_penalty (repetition_penalty args) = Val () →
  gen_at k g →
  (max_tokens args < 0 ∨ Z.of_nat k < max_tokens args)%Z →
  ∃ tok lp g' w',
    gen_next args g w = (Val (GenYield tok lp g'), w')
    ∧ gen_at (S k) g'
    ∧ decode_passes (w_log w') = S (decode_passes (w_log w))
    ∧ prompt_passes (w_log w')
      = prompt_passes (w_log w) + (if g is GenCreated then 1 else 0).
Proof.
  intros Hrt Hcheck Hg Hk. destruct g as [|f|]; cbn in Hg; [| |done].
  - subst k. cbn [gen_next].
    destruct (gen_start_log w Hrt Hcheck)
      as (t & lp & cache & kwargs & w1 & -> & Hlog1).
    destruct (loop_iteration_log t lp 0%Z cache (initial_context args) kwargs w1
                Hrt Hcheck)
      as (t' & f & w' & -> & Hn & Hy & _ & Hlog); [lia|].
    eexists _, _, _, _. split; [done|]. split.
    { cbn. split; [lia|]. split; [lia|]. by exists t'. }
    rewrite Hlog, Hlog1, !decode_passes_app, !prompt_passes_app.
    destruct (py_truthy _); cbn; lia.
  - destruct Hg as (Hpos & Hn & t & Hy). cbn [gen_next]. unfold gen_resume.
    rewrite bool_decide_eq_false_2 by lia. rewrite Hy.
    set (n := (f_n f + 1)%Z).
    assert (∃ w1, (if bool_decide (n `mod` 50 = 0)%Z
                   then log_device EvClearCache else mret ()) w = (Val (), w1)
                  ∧ decode_passes (w_log w1) = decode_passes (w_log w)
                  ∧ prompt_passes (w_log w1) = prompt_passes (w_log w))
      as (w1 & Hclear & Hd1 & Hp1).
    { case_bool_decide; [|by exists w].
      exists (with_device_event EvClearCache w). split; [done|].
      cbn [w_log with_device_event].
      rewrite decode_passes_app, prompt_passes_app. cbn. lia. }
    destruct (loop_iteration_log t (f_next_logprobs f) n (f_cache f)
                (f_repetition_context f) (f_kwargs f) w1 Hrt Hcheck)
      as (t' & f' & w' & Hloop & Hn' & Hy' & _ & Hlog); [lia|].
    eexists _, _, _, _. split.
    { erewrite bind_val by exact Hclear. exact Hloop. }
    split.
    { cbn. split; [lia|]. split; [lia|]. by exists t'. }
    rewrite Hlog, !decode_passes_app, !prompt_passes_app, Hd1, Hp1.
    destruct (py_truthy _); cbn; lia.
Qed.

(** The [next()] at the end of the budget: it runs no single-token
    pass. *)
Lemma gen_next_stops_log (k : nat) (g : gen_state) (w : world V) :
  runtime_ok →
  check_repetition_penalty (repetition_penalty args) = Val () →
  gen_at k g →
  max_tokens args = Z.of_nat k →
  ∃ w',
    gen_next args g w = (Val GenStop, w')
    ∧ decode_passes (w_log w') = decode_passes (w_log w)
    ∧ prompt_passes (w_log w')
      = prompt_passes (w_log w) + (if g is GenCreated then 1 else 0).
Proof.
  intros Hrt Hcheck Hg Hk. destruct g as [|f|]; cbn in Hg; [| |done].
  - subst k. cbn [gen_next].
    destruct (gen_start_log w Hrt Hcheck)
      as (t & lp & cache & kwargs & w1 & -> & Hlog1).
    rewrite loop_iteration_stops by done.
    eexists. split; [done|].
    rewrite Hlog1, !decode_passes_app, !prompt_passes_app. cbn. lia.
  - destruct Hg as (Hpos & Hn & t & Hy). cbn [gen_next]. unfold gen_resume.
    rewrite bool_decide_eq_false_2 by lia.
    set (n := (f_n f + 1)%Z).
    assert (∃ w1, (if bool_decide (n `mod` 50 = 0)%Z
                   then log_device EvClearCache else mret ()) w = (Val (), w1)
                  ∧ decode_passes (w_log w1) = decode_passes (w_log w)
                  ∧ prompt_passes (w_log w1) = prompt_passes (w_log w))
      as (w1 & Hclear & Hd1 & Hp1).
    { case_bool_decide; [|by exists w].
      exists (with_device_event EvClearCache w). split; [done|].
      cbn [w_log with_device_event].
      rewrite decode_passes_app, prompt_passes_app. cbn. lia. }
    exists w1. split; [|split; [done|lia]].
    erewrite bind_val by exact Hclear. apply loop_iteration_stops. lia.
Qed.

Lemma P_ret_bind_m {W A B} (a : A) (k : A → M W B) (w : W) :
  (mret a ≫= k) w = k a w.
Proof. done. Qed.

Lemma initial_context_window :
  (∀ k, repetition_context_size args = Some k → (0 ≤ k)%Z) →
  initial_context args
  = last_window (repetition_context_size args) (concat (input_ids args)).
Proof.
  intros Hsize. unfold initial_context, last_window, size_truthy.
  destruct (repetition_context_size args) as [k|]; [|done].
  specialize (Hsize k eq_refl). change (default 0%Z (Some k)) with k.
  destruct (Z.eqb_spec k 0) as [->|Hne]; cbn [negb]; [done|].
  destruct (Z.ltb_spec 0 k); [|lia].
  unfold slice_from. destruct (Z.ltb_spec (- k) 0); [|lia].
  f_equal. lia.
Qed.

Lemma trim_context_window (context : list nat) :
  (∀ k, repetition_context_size args = Some k → (0 ≤ k)%Z) →
  trim_context args context
  = last_window (repetition_context_size args) context.
Proof.
  intros Hsize. unfold trim_context, last_window, size_truthy.
  destruct (repetition_context_size args) as [k|]; [|done].
  specialize (Hsize k eq_refl). change (default 0%Z (Some k)) with k.
  destruct (Z.eqb_spec k 0) as [->|Hne]; cbn [negb]; [done|].
  destruct (Z.ltb_spec 0 k); [|lia].
  destruct (Z.gtb_spec (Z.of_nat (length context)) k).
  - unfold slice_from. destruct (Z.ltb_spec (- k) 0); [|lia]. f_equal. lia.
  - replace (length context - Z.to_nat k) with 0 by lia. done.
Qed.

(** X22. The first [next()] on [generate_step], for a budget other
    than 0 and a context size that is not negative: it runs the prompt
    pass and one single-token pass, and yields the token that [sample]
    returns for the logits of the prompt pass as they are, without the
    repetition penalty. The penalty of the single-token pass sees the
    last [repetition_context_size] tokens of the prompt, all of them
    when the size is [None] or 0. The context the generator keeps is
    that window followed, with the penalty on, by the token of the
    single-token pass, cut to the size again; that token is the one the
    next [next()] yields. The token sampled from the prompt, the first
    one yielded, is never added to the repetition context. *)
Theorem generate_step_first_pass (w : world V) :
  runtime_ok →
  check_repetition_penalty (repetition_penalty args) = Val () →
  max_tokens args ≠ 0%Z →
  (∀ k, repetition_context_size args = Some k → (0 ≤ k)%Z) →
  ∃ token logprobs w1 f next_token,
    sample args (out_logits (model (input_ids args) make_cache).1)
      (with_device_event EvPrefill (with_device_event EvMakeCache w))
    = (Val ([token], logprobs), w1)
    ∧ (gen_next args GenCreated w).1
      = Val (GenYield token (Arr2 logprobs) (GenSuspended f))
    ∧ f_next_y f = [next_token]
    ∧ w_log (gen_next args GenCreated w).2
      = w_log w ++ [EvMakeCache; EvPrefill; EvDecode]
          ++ (if py_truthy (repetition_penalty args)
              then [EvPenalty (last_window (repetition_context_size args)
                                 (concat (input_ids args)))]
              else [])
    ∧ f_repetition_context f
      = last_window (repetition_context_size args)
          (last_window (repetition_context_size args) (concat (input_ids args))
             ++ (if py_truthy (repetition_penalty args) then [next_token] else []))
    ∧ (max_tokens args ≠ 1%Z →
       ∀ w2, ∃ next_logprobs g,
         (gen_next args (GenSuspended f) w2).1
         = Val (GenYield next_token next_logprobs g)).
Proof.
  intros Hrt Hcheck Hmax Hsize. cbn [gen_next].
  unfold gen_start. rewrite Hcheck.
  pose proof (model_single Hrt (input_ids args) make_cache) as Hrow.
  destruct (model (input_ids args) make_cache) as [outputs cache].
  cbn [fst] in *.
  set (w0 := with_device_event EvPrefill (with_device_event EvMakeCache w)).
  pose proof (sample_log (out_logits outputs) w0) as Hlog0.
  destruct (sample_run args (out_logits outputs) w0 Hrt Hrow)
    as (t & lp & w1 & Hsample & _).
  rewrite Hsample in Hlog0. cbn in Hlog0.
  do 3 bind_refl. fold w0. erewrite bind_val by exact Hsample.
  cbn beta iota zeta.
  set (kwargs := match cross_attention_states outputs with
                 | Some states => KwCross states
                 | None => match encoder_outputs outputs with
                           | Some encoder => KwEncDec [t] encoder
                           | None => KwNone
                           end
                 end).
  destruct (loop_iteration_log t (Arr2 lp) 0%Z cache (initial_context args) kwargs
              w1 Hrt Hcheck)
    as (t' & f & w' & Hloop & Hn & Hy & Hctx & Hlog); [done|].
  rewrite Hloop. cbn [fst snd].
  exists t, lp, w1, f, t'. split; [done|]. split; [done|]. split; [done|].
  rewrite initial_context_window in Hlog, Hctx by done.
  rewrite trim_context_window in Hctx by done.
  split; [|split].
  - rewrite Hlog, Hlog0. unfold w0. cbn [w_log with_device_event].
    rewrite <- !app_assoc. done.
  - rewrite Hctx. destruct (py_truthy _); [done|]. by rewrite app_nil_r.
  - intros Hmax1 w2. unfold gen_resume.
    rewrite bool_decide_eq_false_2 by (rewrite Hn; done).
    rewrite Hn, Hy. cbn [Z.add].
    rewrite bool_decide_eq_false_2 by done. rewrite P_ret_bind_m.
    change (0 + 1)%Z with 1%Z.
    destruct (loop_iteration_log t' (f_next_logprobs f) 1%Z (f_cache f)
                (f_repetition_context f) (f_kwargs f) w2 Hrt Hcheck)
      as (t'' & f' & w3 & -> & _); [done|].
    by eexists _, _.
Qed.

Lemma stream_body_log stopping_criteria skip (n tok : nat) (lp : array V)
    (loc : stream_locals) (w : world V) :
  w_log (stream_body args stopping_criteria skip n tok lp loc w).2 = w_log w.
Proof.
  unfold stream_body.
  case_bool_decide; destruct (stopping_criteria tok);
    destruct (l_prompt_tps loc); by run_m.
Qed.

(** One single-token pass per token pulled from the generator, in a
    loop that starts with a generator that has yielded [k] tokens. *)
Lemma stream_loop_passes (fuel k : nat) stopping_criteria skip (g : gen_state)
    (n : nat) (loc : stream_locals) (w : world V) r w' :
  runtime_ok →
  check_repetition_penalty (repetition_penalty args) = Val () →
  gen_at k g →
  (max_tokens args < 0 ∨ Z.of_nat k ≤ max_tokens args)%Z →
  (n ≠ 0 → is_Some (l_prompt_tps loc)) →
  stream_loop fuel args stopping_criteria skip g n loc w = (r, w') →
  decode_passes (w_log w') + length (checked (w_trace w))
  = decode_passes (w_log w) + length (checked (w_trace w'))
  ∧ prompt_passes (w_log w')
    = prompt_passes (w_log w)
      + (if g is GenCreated then if fuel is 0 then 0 else 1 else 0).
Proof.
  intros Hrt Hcheck. revert k g n loc w.
  induction fuel as [|fuel IH]; intros k g n loc w Hg Hk Hbound Hres.
  { injection Hres as <- <-. split; [done|]. destruct g; lia. }
  cbn [stream_loop] in Hres. unfold mbind at 1, M_bind at 1 in Hres.
  pose proof (gen_next_trace args g w) as Hframe.
  destruct (decide (max_tokens args = Z.of_nat k)) as [Hmax|Hmax].
  { destruct (gen_next_stops_log k g w Hrt Hcheck Hg Hmax)
      as (w1 & Hnext & Hd & Hp).
    rewrite Hnext in Hframe, Hres. cbn in Hframe. injection Hres as <- <-.
    rewrite Hframe. split; lia. }
  destruct (gen_next_log k g w Hrt Hcheck Hg)
    as (tok & lp & g' & w1 & Hnext & Hg' & Hd & Hp); [lia|].
  rewrite Hnext in Hframe, Hres. cbn in Hframe.
  unfold mbind at 1, M_bind at 1 in Hres.
  pose proof (stream_body_log stopping_criteria skip n tok lp loc w1) as Hblog.
  destruct (stream_body_run args stopping_criteria skip n tok lp loc w1 Hbound)
    as (c & w2 & Hbody & Hc).
  rewrite Hbody in Hblog, Hres. cbn in Hblog.
  destruct (stopping_criteria tok) eqn:Hstop.
  - destruct Hc as (loc' & -> & Htr & _). injection Hres as <- <-.
    rewrite Hblog, Htr, Hframe, checked_app, length_app. cbn. split; lia.
  - destruct Hc as (loc' & r' & -> & Htr & _ & _ & _ & Htps & _).
    assert (g' ≠ GenCreated) as Hg'c by (destruct g'; [by cbn in Hg'|done..]).
    destruct (IH (S k) g' (S n) loc' w2 Hg') as [IHd IHp]; [lia|done|done|].
    rewrite IHp, Hblog, Hp. split; [|destruct g'; [done|lia..]].
    rewrite Hblog, Htr, Hframe, checked_app, length_app in IHd.
    cbn in IHd. lia.
Qed.

(** X23. A session costs one prompt pass and one single-token pass
    per token pulled from the generator, stop token included: the
    generator runs the pass for the next token before it yields a token,
    so the last pass of a session computes a token that is never
    yielded. *)
Theorem stream_generate_decode_passes (fuel : nat) stopping_criteria skip
    (d : detok_t) (w : world V) :
  runtime_ok →
  check_repetition_penalty (repetition_penalty args) = Val () →
  0 < fuel →
  let w' := (stream_generate fuel args stopping_criteria skip d w).2 in
  decode_passes (w_log w') + length (checked (w_trace w))
  = decode_passes (w_log w) + length (checked (w_trace w'))
  ∧ prompt_passes (w_log w') = prompt_passes (w_log w) + 1.
Proof.
  intros Hrt Hcheck Hfuel.
  destruct (stream_generate fuel args stopping_criteria skip d w)
    as [r w'] eqn:Hres. cbn [snd].
  unfold stream_generate in Hres. unfold mbind at 1, M_bind at 1 in Hres.
  cbn [tick] in Hres.
  set (w0 := with_clock_read w) in Hres.
  set (loc0 := {| l_n := None; l_token := None; l_logprobs := None;
                  l_prompt_tps := None; l_tic := perf_counter (w_clock w);
                  l_detokenizer := detok_reset d |}) in Hres.
  unfold mbind at 1, M_bind at 1 in Hres.
  destruct (stream_loop fuel args stopping_criteria skip GenCreated 0 loc0 w0)
    as [r1 w1] eqn:Hloop.
  destruct (stream_loop_passes fuel 0 stopping_criteria skip GenCreated 0 loc0 w0
              r1 w1 Hrt Hcheck eq_refl) as [Hd Hp]; [lia|done|done|].
  destruct r1 as [loc|e|].
  2,3: injection Hres as <- <-; destruct fuel; [lia|done].
  assert (decode_passes (w_log w') = decode_passes (w_log w1)
          ∧ prompt_passes (w_log w') = prompt_passes (w_log w1)
          ∧ checked (w_trace w') = checked (w_trace w1)) as (Hd' & Hp' & Hc').
  { destruct loc as [[n'|] [tok'|] [lp'|] [tps'|] tic' d'];
      revert Hres; run_m; intros [= <- <-];
      unfold decode_passes, prompt_passes, checked; cbn;
      rewrite ?omap_app; cbn; by rewrite ?app_nil_r. }
  rewrite Hd', Hp', Hc'. destruct fuel; [lia|]. done.
Qed.

(** X24. A negative [max_tokens] is no budget at all: with criteria
    that never stop, the session never ends. However many tokens the
    consumer pulls, each pull yields a record. *)
Theorem stream_generate_unbounded (fuel : nat) stopping_criteria skip
    (d : detok_t) (w : world V) :
  runtime_ok →
  check_repetition_penalty (repetition_penalty args) = Val () →
  (max_tokens args < 0)%Z →
  (∀ t, stopping_criteria t = false) →
  ∃ steps w',
    stream_generate fuel args stopping_criteria skip d w = (Unfinished, w')
    ∧ w_trace w' = w_trace w ++ blocks steps
    ∧ length steps = fuel.
Proof.
  intros Hrt Hcheck Hmax Hnever.
  assert (∀ fuel k g n loc w,
    gen_at k g → (n ≠ 0 → is_Some (l_prompt_tps loc)) →
    ∃ steps w',
      stream_loop fuel args stopping_criteria skip g n loc w = (Unfinished, w')
      ∧ w_trace w' = w_trace w ++ blocks steps
      ∧ length steps = fuel) as Hloop.
  { clear fuel w. induction fuel as [|fuel IH]; intros k g n loc w Hg Hbound.
    { exists [], w. cbn. by rewrite app_nil_r. }
    cbn [stream_loop].
    pose proof (gen_next_trace args g w) as Hframe.
    destruct (gen_next_log k g w Hrt Hcheck Hg)
      as (tok & lp & g' & w1 & Hnext & Hg' & _); [lia|].
    rewrite Hnext in Hframe. cbn in Hframe.
    destruct (stream_body_run args stopping_criteria skip n tok lp loc w1 Hbound)
      as (c & w2 & Hbody & Hc).
    rewrite Hnever in Hc.
    destruct Hc as (loc' & r & -> & Htr & _ & _ & _ & Htps & _).
    destruct (IH (S k) g' (S n) loc' w2 Hg') as (steps & w' & Hrun & Htr' & Hlen);
      [done|].
    exists ((tok, r) :: steps), w'. split.
    - erewrite bind_val by exact Hnext. cbn.
      erewrite bind_val by exact Hbody. exact Hrun.
    - split; [|cbn; lia].
      rewrite Htr', Htr, Hframe, blocks_cons. by rewrite <- app_assoc. }
  unfold stream_generate. unfold mbind at 1, M_bind at 1. cbn [tick].
  set (w0 := with_clock_read w).
  set (loc0 := {| l_n := None; l_token := None; l_logprobs := None;
                  l_prompt_tps := None; l_tic := perf_counter (w_clock w);
                  l_detokenizer := detok_reset d |}).
  destruct (Hloop fuel 0 GenCreated 0 loc0 w0) as (steps & w' & Hrun & Htr & Hlen);
    [done..|].
  exists steps, w'. split; [|done].
  unfold mbind at 1, M_bind at 1. by rewrite Hrun.
Qed.

End PassProperties.

(** ** prepare_inputs *)

Section SplitProperties.

Lemma split_go_nonempty sep skip cur s : split_go sep skip cur s ≠ [].
Proof.
  revert skip cur. induction s as [|c s IH]; intros skip cur; cbn [split_go]; [done|].
  destruct skip; [|apply IH].
  destruct (String.prefix sep (String c s)); [done|apply IH].
Qed.

Lemma split_go_contains sep cur s :
  sep ≠ EmptyString → contains sep s = true → 2 ≤ length (split_go sep 0 cur s).
Proof.
  intros Hsep. revert cur.
  induction s as [|c s IH]; intros cur; cbn [split_go contains].
  { by destruct sep. }
  destruct (String.prefix sep (String c s)) eqn:Hpre; cbn [orb].
  - intros _. pose proof (split_go_nonempty sep (String.length sep - 1) EmptyString s).
    destruct (split_go _ _ _ s); [done|]. cbn. lia.
  - intros Hc. by apply IH.
Qed.

Lemma string_app_empty (s : string) : s +:+ EmptyString = s.
Proof.
  induction s as [|a s IH]; [done|].
  change (String a (s +:+ EmptyString) = String a s). by rewrite IH.
Qed.

Lemma split_go_absent sep cur s :
  sep ≠ EmptyString → contains sep s = false →
  split_go sep 0 cur s = [cur +:+ s].
Proof.
  intros Hsep. revert cur.
  induction s as [|c s IH]; intros cur; cbn [split_go contains].
  { intros _. by rewrite string_app_empty. }
  destruct (String.prefix sep (String c s)) eqn:Hpre; cbn [orb]; [done|].
  intros Hc. rewrite IH by done. f_equal. apply string_app_assoc.
Qed.

End SplitProperties.

Section PrepareInputsProperties.
Context {image_t pixel_t : Type}.
Implicit Types (processor : image_text_processor image_t pixel_t).

Lemma foldl_max_le (x : nat) (xs : list nat) :
  x ≤ foldl Nat.max x xs ∧ Forall (λ y, y ≤ foldl Nat.max x xs) xs
  ∧ (foldl Nat.max x xs = x ∨ foldl Nat.max x xs ∈ xs).
Proof.
  revert x. induction xs as [|y xs IH]; intros x; cbn.
  { split; [done|]. split; [constructor|by left]. }
  destruct (IH (x `max` y)) as (Hx & Hall & Hin).
  split; [lia|]. split; [constructor; [lia|done]|].
  destruct Hin as [Heq|Hin]; [|right; by apply list_elem_of_further].
  rewrite Heq. destruct (Nat.max_spec x y) as [[_ ->]|[_ ->]]; [|by left].
  right. apply list_elem_of_here.
Qed.

Lemma pad_rows_run (image_token_index pad_token_id max_length : nat)
    (text_chunks : list (list (list nat))) :
  Forall (λ chunks, 2 ≤ length chunks
                    ∧ sum_list (length <$> chunks) + 1 ≤ max_length) text_chunks →
  ∃ rows,
    pad_rows image_token_index pad_token_id max_length text_chunks = Ok rows
    ∧ Forall2 (λ chunks row,
                 length row = max_length
                 ∧ ∃ first second rest padding,
                     chunks = first :: second :: rest
                     ∧ row = first ++ [image_token_index] ++ second
                               ++ replicate padding pad_token_id)
        text_chunks rows.
Proof.
  induction 1 as [|chunks text_chunks [Hlen Hsum] _ (rows & Hrows & Hall)]; cbn.
  { by exists []. }
  destruct chunks as [|first [|second rest]]; cbn in Hlen; [lia..|].
  unfold pad_row. cbn. rewrite Hrows. cbn. eexists. split; [reflexivity|].
  constructor; [|done]. cbn in Hsum. split.
  - rewrite !length_app, length_replicate. cbn. lia.
  - eexists _, _, _, _. split; [done|]. by rewrite <- !app_assoc.
Qed.

Lemma pad_rows_short (image_token_index pad_token_id max_length : nat)
    (text_chunks : list (list (list nat))) :
  Exists (λ chunks, length chunks < 2) text_chunks →
  ∃ msg, pad_rows image_token_index pad_token_id max_length text_chunks
         = Err (IndexError msg).
Proof.
  induction text_chunks as [|chunks text_chunks IH]; [by intros ?%Exists_nil|].
  intros Hex. cbn. unfold pad_row.
  destruct chunks as [|first [|second rest]]; cbn; [by eexists..|].
  apply Exists_cons in Hex as [Hex|Hex]; [cbn in Hex; lia|].
  destruct (IH Hex) as [msg ->]. cbn. by eexists.
Qed.

Lemma py_max_ok (xs : list nat) :
  xs ≠ [] → ∃ m, py_max xs = Ok m ∧ Forall (λ x, x ≤ m) xs ∧ m ∈ xs.
Proof.
  destruct xs as [|x xs]; [done|]. intros _. cbn. eexists. split; [done|].
  destruct (foldl_max_le x xs) as (Hx & Hall & Hin).
  split; [by constructor|].
  destruct Hin as [->|Hin]; [apply list_elem_of_here|by apply list_elem_of_further].
Qed.

(** X25. For a non-empty list of prompts that all contain ["<image>"],
    the image-processor branch of [prepare_inputs] returns a rectangular
    batch: every row is the tokens before the first ["<image>"], the
    image token, the tokens up to the second ["<image>"] (later chunks
    are dropped) and padding with the end-of-sequence id, up to a common
    length, which is the largest token count of a prompt, all chunks
    counted, plus one. The attention mask has the same shape and is 0
    wherever the row holds the end-of-sequence id, padding or not. *)
Theorem prepare_inputs_image_padded processor images (prompts : list string)
    (image_token_index : nat) :
  prompts ≠ [] →
  Forall (λ prompt, contains "<image>" prompt = true) prompts →
  ∃ inputs max_length,
    prepare_inputs_image processor images (Prompts prompts) image_token_index
    = Ok inputs
    ∧ Forall2 (λ prompt row,
                 length row = max_length
                 ∧ ∃ first second rest padding,
                     tokenize processor <$> py_split "<image>" prompt
                     = first :: second :: rest
                     ∧ row = first ++ [image_token_index] ++ second
                               ++ replicate padding (eos_token_id processor)
                     ∧ sum_list (length <$> first :: second :: rest) + 1
                       ≤ max_length)
        prompts (mi_input_ids inputs)
    ∧ Exists (λ prompt,
                sum_list (length <$> (tokenize processor
                                        <$> py_split "<image>" prompt))
                + 1 = max_length) prompts
    ∧ Forall2 (λ row mask,
                 Forall2 (λ id m,
                            m = if bool_decide (id = eos_token_id processor)
                                then 0%Z else 1%Z) row mask)
        (mi_input_ids inputs) (mi_attention_mask inputs)
    ∧ mi_pixel_values inputs = preprocess processor images.
Proof.
  intros Hne Hall. unfold prepare_inputs_image. cbv zeta.
  set (chunks_of := λ prompt, tokenize processor <$> py_split "<image>" prompt).
  set (size_of := λ chunks : list (list nat), sum_list (length <$> chunks) + 1).
  destruct (py_max_ok (size_of <$> (chunks_of <$> prompts)))
    as (max_length & -> & Hle & Hin).
  { by destruct prompts. }
  cbn [mbind outcome_bind].
  destruct (pad_rows_run image_token_index (eos_token_id processor) max_length
              (chunks_of <$> prompts)) as (rows & -> & Hshape).
  { apply Forall_fmap, Forall_forall. intros p Hp. cbn. split.
    - unfold chunks_of. rewrite length_fmap. apply split_go_contains; [done|].
      by apply (proj1 (Forall_forall _ _) Hall).
    - apply (proj1 (Forall_forall _ _) Hle).
      apply list_elem_of_fmap. exists (chunks_of p). split; [done|].
      apply list_elem_of_fmap. by exists p. }
  cbn [mbind outcome_bind mret outcome_ret].
  eexists _, max_length. split; [reflexivity|].
  cbn [mi_input_ids mi_attention_mask mi_pixel_values].
  split; [|split; [|split; [|done]]].
  - apply Forall2_fmap_l in Hshape.
    apply Forall2_same_length_lookup. split; [by eapply Forall2_length|].
    intros i p row Hp Hrow.
    destruct (Forall2_lookup_lr _ _ _ _ _ _ Hshape Hp Hrow)
      as (Hlen & first & second & rest & padding & Hchunks & ->).
    split; [done|]. exists first, second, rest, padding.
    split; [done|]. split; [done|]. fold chunks_of. rewrite <- Hchunks.
    apply (proj1 (Forall_forall _ _) Hle).
    apply list_elem_of_fmap. exists (chunks_of p). split; [done|].
    apply list_elem_of_fmap. exists p. split; [done|].
    by eapply list_elem_of_lookup_2.
  - apply list_elem_of_fmap in Hin as (chunks & -> & Hin).
    apply list_elem_of_fmap in Hin as (p & -> & Hin).
    apply Exists_exists. by exists p.
  - apply Forall2_fmap_r, Forall_Forall2_diag, Forall_forall. intros row _.
    apply Forall2_fmap_r, Forall_Forall2_diag, Forall_forall. intros id _.
    cbn. by repeat case_bool_decide.
Qed.

(** X26. The failures of the image-processor branch: an empty list of
    prompts raises [ValueError] (from [max]); a prompt without
    ["<image>"] anywhere in a non-empty list raises [IndexError]; and a
    single prompt behaves as the list of that one prompt. *)
Theorem prepare_inputs_image_errors processor images (image_token_index : nat) :
  (∃ msg,
     prepare_inputs_image processor images (Prompts []) image_token_index
     = Err (Raised (ValueError msg)))
  ∧ (∀ prompts prompt,
       prompt ∈ prompts → contains "<image>" prompt = false →
       ∃ msg,
         prepare_inputs_image processor images (Prompts prompts) image_token_index
         = Err (IndexError msg))
  ∧ (∀ prompt,
       prepare_inputs_image processor images (OnePrompt prompt) image_token_index
       = prepare_inputs_image processor images (Prompts [prompt])
           image_token_index).
Proof.
  split; [by eexists|]. split; [|done].
  intros prompts prompt Hin Habsent. unfold prepare_inputs_image. cbv zeta.
  set (chunks_of := λ prompt, tokenize processor <$> py_split "<image>" prompt).
  set (size_of := λ chunks : list (list nat), sum_list (length <$> chunks) + 1).
  destruct (py_max_ok (size_of <$> (chunks_of <$> prompts)))
    as (max_length & -> & _).
  { destruct prompts; [by apply elem_of_nil in Hin|done]. }
  cbn [mbind outcome_bind].
  destruct (pad_rows_short image_token_index (eos_token_id processor) max_length
              (chunks_of <$> prompts)) as (msg & ->); [|by exists msg].
  apply Exists_fmap, Exists_exists. exists prompt. split; [done|].
  unfold compose, chunks_of, py_split. rewrite length_fmap, split_go_absent by done.
  cbn. lia.
Qed.

End PrepareInputsProperties.

Section AudioProperties.
Context {prompt_t image_t audio_t inputs_t : Type}.
Implicit Types (processor : processor_t prompt_t image_t audio_t inputs_t).

(** X27. Audio for a processor whose method takes no [audio]
    parameter: [process_inputs_with_fallback] raises [ValueError] whose
    message names the missing support, whatever the processor's method
    would return. Unless the tensor representation was ["pt"] already,
    this comes after a warning and a second attempt under ["pt"], which
    fails for the same reason. *)
Theorem process_inputs_unsupported_audio processor prompts images
    (audio : audio_t) add_special_tokens return_tensors (w : io_log) :
  accepts_audio processor = false →
  let e := ValueError ("Processor " ++ proc_str processor
                         ++ " does not support audio parameter") in
  process_inputs_with_fallback processor prompts images (Some audio)
    add_special_tokens return_tensors w
  = (Exn (ValueError ("Failed to process inputs with error: " ++ exn_str e)),
     if String.eqb return_tensors "pt"
     then {| io_printed := io_printed w;
             io_attempts := io_attempts w ++ [return_tensors] |}
     else {| io_printed := io_printed w ++ [fallback_warning e];
             io_attempts := io_attempts w ++ [return_tensors; "pt"] |}).
Proof.
  intros Haudio e.
  assert (∀ rt, process_inputs_body processor prompts images (Some audio)
                  add_special_tokens rt = Exn e) as Hbody.
  { intros rt. unfold process_inputs_body. by rewrite Haudio. }
  unfold process_inputs_with_fallback, try_except, process_inputs.
  rewrite Hbody. cbn.
  destruct (String.eqb return_tensors "pt"); cbn; [done|].
  unfold mbind, M_bind, print, modify. cbn. rewrite Haudio. cbn.
  by rewrite <- app_assoc.
Qed.

End AudioProperties.

Lemma process_inputs_unsupported_audio_witness :
  process_inputs_with_fallback Toy.failing_processor () None (Some ()) false "mlx"
    Toy.io0
  = (Exn (ValueError
            ("Failed to process inputs with error: "
               ++ exn_str (ValueError ("Processor "
                                         ++ proc_str Toy.failing_processor
                                         ++ " does not support audio parameter")))),
     if String.eqb "mlx" "pt"
     then {| io_printed := io_printed Toy.io0;
             io_attempts := io_attempts Toy.io0 ++ ["mlx"] |}
     else {| io_printed :=
               io_printed Toy.io0
                 ++ [fallback_warning
                       (ValueError ("Processor " ++ proc_str Toy.failing_processor
                                      ++ " does not support audio parameter"))];
             io_attempts := io_attempts Toy.io0 ++ ["mlx"; "pt"] |}).
Proof.
  apply (process_inputs_unsupported_audio Toy.failing_processor () None () false
           "mlx" Toy.io0).
  reflexivity.
Defined.

Lemma generate_step_first_pass_witness :
  ∃ token logprobs w1 f next_token,
    sample (Toy.args [1; 2; 3] 5 (PyFloat (3 # 2)%Q) (Some 2%Z))
      [Toy.one_hot 10 4]
      (with_device_event EvPrefill (with_device_event EvMakeCache Toy.world0))
    = (Val ([token], logprobs), w1)
    ∧ (gen_next (Toy.args [1; 2; 3] 5 (PyFloat (3 # 2)%Q) (Some 2%Z)) GenCreated
         Toy.world0).1
      = Val (GenYield token (Arr2 logprobs) (GenSuspended f))
    ∧ f_next_y f = [next_token]
    ∧ w_log (gen_next (Toy.args [1; 2; 3] 5 (PyFloat (3 # 2)%Q) (Some 2%Z))
               GenCreated Toy.world0).2
      = [EvMakeCache; EvPrefill; EvDecode; EvPenalty [2; 3]]
    ∧ f_repetition_context f = last_window (Some 2%Z) ([2; 3] ++ [next_token])
    ∧ (5%Z ≠ 1%Z →
       ∀ w2, ∃ next_logprobs g,
         (gen_next (Toy.args [1; 2; 3] 5 (PyFloat (3 # 2)%Q) (Some 2%Z))
            (GenSuspended f) w2).1
         = Val (GenYield next_token next_logprobs g)).
Proof.
  assert (Hsize : ∀ k, Some 2%Z = Some k → (0 ≤ k)%Z) by (intros k [= <-]; lia).
  assert (Hmax : 5%Z ≠ 0%Z) by done.
  exact (generate_step_first_pass
           (Toy.args [1; 2; 3] 5 (PyFloat (3 # 2)%Q) (Some 2%Z))
           Toy.world0 Toy_runtime_ok eq_refl Hmax Hsize).
Defined.

(** The run of this first [next()]: the prompt [1, 2, 3] gives the token
    [4], sampled without the penalty, and the generator keeps the
    context [3, 5], in which [5] is the token it will yield next. *)
Example generate_step_first_pass_run :
  ∃ logprobs f w',
    gen_next (Toy.args [1; 2; 3] 5 (PyFloat (3 # 2)%Q) (Some 2%Z)) GenCreated
      Toy.world0
    = (Val (GenYield 4 logprobs (GenSuspended f)), w')
    ∧ f_next_y f = [5]
    ∧ f_repetition_context f = [3; 5].
Proof. eexists _, _, _. split; [vm_compute; reflexivity|]. done. Qed.

Lemma stream_generate_decode_passes_witness :
  let w' :=
    (stream_generate 10 (Toy.args [1; 2] 5 PyNone (Some 20%Z))
       (StoppingCriteria_call (StoppingCriteria_init (OneId 5) None)) []
       Toy.detokenizer0 Toy.world0).2 in
  decode_passes (w_log w') + length (checked (w_trace Toy.world0))
  = decode_passes (w_log Toy.world0) + length (checked (w_trace w'))
  ∧ prompt_passes (w_log w') = prompt_passes (w_log Toy.world0) + 1.
Proof.
  apply (stream_generate_decode_passes (Toy.args [1; 2] 5 PyNone (Some 20%Z)) 10
           (StoppingCriteria_call (StoppingCriteria_init (OneId 5) None)) []
           Toy.detokenizer0 Toy.world0 Toy_runtime_ok).
  - reflexivity.
  - lia.
Defined.

Lemma stream_generate_unbounded_witness :
  ∃ steps w',
    stream_generate 7 (Toy.args [1; 2] (-1) PyNone (Some 20%Z)) (λ _, false) []
      Toy.detokenizer0 Toy.world0 = (Unfinished, w')
    ∧ w_trace w' = w_trace Toy.world0 ++ blocks steps
    ∧ length steps = 7.
Proof.
  apply (stream_generate_unbounded (Toy.args [1; 2] (-1) PyNone (Some 20%Z)) 7
           (λ _, false) [] Toy.detokenizer0 Toy.world0 Toy_runtime_ok).
  - reflexivity.
  - reflexivity.
  - done.
Defined.

Lemma prepare_inputs_image_padded_witness :
  ∃ inputs max_length,
    prepare_inputs_image example_image_processor (Some [(); ()])
      (Prompts ["what is<image>here"; "<image>a b c d<image>x"]) 9
    = Ok inputs
    ∧ Forall2 (λ prompt row,
                 length row = max_length
                 ∧ ∃ first second rest padding,
                     tokenize example_image_processor <$> py_split "<image>" prompt
                     = first :: second :: rest
                     ∧ row = first ++ [9] ++ second
                               ++ replicate padding
                                    (eos_token_id example_image_processor)
                     ∧ sum_list (length <$> first :: second :: rest) + 1
                       ≤ max_length)
        ["what is<image>here"; "<image>a b c d<image>x"] (mi_input_ids inputs)
    ∧ Exists (λ prompt,
                sum_list (length <$> (tokenize example_image_processor
                                        <$> py_split "<image>" prompt))
                + 1 = max_length)
        ["what is<image>here"; "<image>a b c d<image>x"]
    ∧ Forall2 (λ row mask,
                 Forall2 (λ id m,
                            m = if bool_decide
                                     (id = eos_token_id example_image_processor)
                                then 0%Z else 1%Z) row mask)
        (mi_input_ids inputs) (mi_attention_mask inputs)
    ∧ mi_pixel_values inputs = preprocess example_image_processor (Some [(); ()]).
Proof.
  apply (prepare_inputs_image_padded example_image_processor (Some [(); ()])
           ["what is<image>here"; "<image>a b c d<image>x"] 9).
  - done.
  - by repeat constructor.
Defined.
